(** * Rank fusion and de-duplication of retrieved documents

    A shallow embedding of the two combiners of the RAG notebooks

    - [reciprocal_rank_fusion]  (B - Query Translation/2 - RAG-fusion.ipynb)
    - [get_unique_union]        (B - Query Translation/1 - Multi-query.ipynb)

    and of the parsing step of [chain_generate_queries] (both notebooks),
    followed by the code around them: the retrieval chains of the two
    notebooks and of the re-ranking notebook, [choose_route] of the logical
    routing notebook, the environment cells of the setup notebook, and the
    linking of summaries to documents in the multi-representation indexing
    notebook.

    Modelling choices.

    - A document is opaque to both combiners: they only serialise it with
      langchain's [dumps] and rebuild it with [loads].  Both are section
      variables; the only fact assumed about them is the round trip
      [loads (dumps d) = d].
    - The Python dict [fused_scores] keeps its keys in insertion order and
      [sorted] is stable, so the dict is an association list in insertion
      order.
    - [k] is a Python int, as its default [60] is, and [1 / (rank + k)] is
      Python's true division; dividing by zero raises [ZeroDivisionError].
    - The engine is given twice.  [reciprocal_rank_fusion] keeps every score
      as the exact rational ([Q], compared with [==]) that the float of the
      program is a rounding of: it says which terms a score is the sum of.
      [Binary64.reciprocal_rank_fusion] computes the scores as the program
      does, in binary64, with a rounding at every division and at every
      addition ([spec_float] of the standard library).  Whatever depends on
      the value, the order or the equality of the scores is stated about
      the second.
    - [set(...)] is a [gset string]; the order in which Python iterates a set
      is unspecified, and nothing below depends on the order of [elements]. *)

From Stdlib Require Import ZArith QArith Qpower Lia Lqa Ascii String Floats.SpecFloat.
From stdpp Require Import base list strings gmap.

Local Open Scope Z_scope.

(** ** Exceptions

    The combiners contain no [raise]; the one exception their own
    arithmetic can produce is the division by zero. *)

Inductive exn : Type :=
| ZeroDivisionError.

Inductive result (A : Type) : Type :=
| Ok (a : A)
| Raise (e : exn).

Arguments Ok {A} a.
Arguments Raise {A} e.

(** The error monad; [x ← r; f] is stdpp's notation for [mbind]. *)
#[global] Instance result_ret : MRet result := λ A a, Ok a.

#[global] Instance result_bind : MBind result := λ A B f r,
  match r with
  | Ok a => f a
  | Raise e => Raise e
  end.

(** [1 / n] on a Python int [n]. *)
Definition true_div_one (n : Z) : result Q :=
  if decide (n = 0) then Raise ZeroDivisionError else Ok (/ inject_Z n)%Q.

(** ** The dict [fused_scores] *)

Definition dict : Type := list (string * Q).

(** [key in d] *)
Fixpoint dict_mem (key : string) (d : dict) : bool :=
  match d with
  | [] => false
  | (key', _) :: d' => if decide (key = key') then true else dict_mem key d'
  end.

(** [d[key] = v] for a key that is not in [d]: a new last entry. *)
Definition dict_new (key : string) (v : Q) (d : dict) : dict := d ++ [(key, v)].

(** [d[key] += c] for a key that is in [d]: the entry keeps its place. *)
Fixpoint dict_iadd (key : string) (c : Q) (d : dict) : dict :=
  match d with
  | [] => []
  | (key', v) :: d' =>
      if decide (key = key') then (key', (v + c)%Q) :: d'
      else (key', v) :: dict_iadd key c d'
  end.

(** [d[key]] *)
Fixpoint dict_get (key : string) (d : dict) : option Q :=
  match d with
  | [] => None
  | (key', v) :: d' => if decide (key = key') then Some v else dict_get key d'
  end.

(** ** [sorted(items, key=lambda x: x[1], reverse=True)]

    Python's sort is stable, also under [reverse=True]: entries with equal
    scores keep the order they have in the dict. *)

Fixpoint insert_desc (x : string * Q) (l : list (string * Q)) : list (string * Q) :=
  match l with
  | [] => [x]
  | y :: l' =>
      if Qle_bool (snd y) (snd x) then x :: y :: l' else y :: insert_desc x l'
  end.

Definition sorted_desc (l : list (string * Q)) : list (string * Q) :=
  foldr insert_desc [] l.

(** ** [x.split("\n\n")] *)

Definition newline : ascii := "010"%char.

(** [cur] is the piece being read.  The scan is left to right and a
    separator that has been consumed is not looked at again. *)
Fixpoint split_on_blank (x : string) (cur : string) : list string :=
  match x with
  | EmptyString => [cur]
  | String c x' =>
      match x' with
      | String c' x'' =>
          if decide (c = newline ∧ c' = newline)
          then cur :: split_on_blank x'' EmptyString
          else split_on_blank x' (cur +:+ String c EmptyString)
      | EmptyString => [cur +:+ String c EmptyString]
      end
  end.

(** The last stage of [chain_generate_queries]. *)
Definition parse_queries (x : string) : list string := split_on_blank x EmptyString.

(** The stages of [chain_generate_queries] after the model call: the text of
    the reply is split and handed on; no stage raises. *)
Definition chain_generate_queries (llm_output : string) : result (list string) :=
  Ok (parse_queries llm_output).

Section Combiners.

Variable Document : Type.
Variable dumps : Document → string.
Variable loads : string → Document.

(** *** RAG-fusion *)

(** The inner loop, [for rank, doc in enumerate(docs)], from [rank] on. *)
Fixpoint score_docs (k : Z) (rank : Z) (docs : list Document)
    (fused_scores : dict) : result dict :=
  match docs with
  | [] => Ok fused_scores
  | doc :: docs' =>
      let doc_str := dumps doc in
      let fused_scores :=
        if dict_mem doc_str fused_scores then fused_scores
        else dict_new doc_str 0%Q fused_scores in
      c ← true_div_one (rank + k) ;
      score_docs k (rank + 1) docs' (dict_iadd doc_str c fused_scores)
  end.

(** The outer loop, [for docs in results]. *)
Fixpoint score_results (k : Z) (results : list (list Document))
    (fused_scores : dict) : result dict :=
  match results with
  | [] => Ok fused_scores
  | docs :: results' =>
      fused_scores ← score_docs k 0 docs fused_scores ;
      score_results k results' fused_scores
  end.

Definition reciprocal_rank_fusion (results : list (list Document)) (k : Z)
    : result (list (Document * Q)) :=
  fused_scores ← score_results k results [] ;
  Ok ((λ item, (loads item.1, item.2)) <$> sorted_desc fused_scores).

(** *** Multi-query *)

Definition get_unique_union (documents : list (list Document)) : list Document :=
  let flattened_docs := mjoin (fmap dumps <$> documents) in
  let unique_docs := elements (list_to_set flattened_docs : gset string) in
  loads <$> unique_docs.

(** *** Quantities the statements below are about *)

(** The serialisation keys in the order the two loops meet them. *)
Definition all_keys (results : list (list Document)) : list string :=
  mjoin (fmap dumps <$> results).

(** What one list adds to the score of [key]: [1 / (r + k)] for every
    position [r], counted from [rank], at which a document with that key
    stands. *)
Fixpoint list_contribution (k : Z) (rank : Z) (key : string)
    (docs : list Document) : Q :=
  match docs with
  | [] => 0%Q
  | doc :: docs' =>
      ((if decide (dumps doc = key) then / inject_Z (rank + k) else 0)
       + list_contribution k (rank + 1) key docs')%Q
  end.

Fixpoint fused_sum (k : Z) (key : string) (results : list (list Document)) : Q :=
  match results with
  | [] => 0%Q
  | docs :: results' =>
      (list_contribution k 0 key docs + fused_sum k key results')%Q
  end.

(** The position of a document in a list, as [list.index] gives it: the
    place of its first occurrence. *)
Fixpoint position (rank : Z) (key : string) (docs : list Document) : option Z :=
  match docs with
  | [] => None
  | doc :: docs' =>
      if decide (dumps doc = key) then Some rank
      else position (rank + 1) key docs'
  end.

(** One term [1 / (r + k)] for each list that holds the document, [0] for
    a list that does not. *)
Definition one_position_contribution (k : Z) (key : string)
    (docs : list Document) : Q :=
  match position 0 key docs with
  | Some r => (/ inject_Z (r + k))%Q
  | None => 0%Q
  end.

Fixpoint one_position_sum (k : Z) (key : string)
    (results : list (list Document)) : Q :=
  match results with
  | [] => 0%Q
  | docs :: results' =>
      (one_position_contribution k key docs + one_position_sum k key results')%Q
  end.

(** *** The two loops as one fold *)

(** [enumerate(docs)], with the key of each document. *)
Fixpoint enumerate_keys (rank : Z) (docs : list Document) : list (Z * string) :=
  match docs with
  | [] => []
  | doc :: docs' => (rank, dumps doc) :: enumerate_keys (rank + 1) docs'
  end.

Definition events (results : list (list Document)) : list (Z * string) :=
  mjoin (enumerate_keys 0 <$> results).

End Combiners.

Arguments score_docs {Document} dumps k rank docs fused_scores.
Arguments score_results {Document} dumps k results fused_scores.
Arguments reciprocal_rank_fusion {Document} dumps loads results k.
Arguments get_unique_union {Document} dumps loads documents.
Arguments all_keys {Document} dumps results.
Arguments list_contribution {Document} dumps k rank key docs.
Arguments fused_sum {Document} dumps k key results.
Arguments position {Document} dumps rank key docs.
Arguments one_position_contribution {Document} dumps k key docs.
Arguments one_position_sum {Document} dumps k key results.
Arguments enumerate_keys {Document} dumps rank docs.
Arguments events {Document} dumps results.

(** The body of the inner loop once the division has succeeded. *)
Definition step (k : Z) (fused_scores : dict) (ev : Z * string) : dict :=
  let doc_str := ev.2 in
  dict_iadd doc_str (/ inject_Z (ev.1 + k))%Q
    (if dict_mem doc_str fused_scores then fused_scores
     else dict_new doc_str 0%Q fused_scores).

(** The dict the loops build when no division fails. *)
Definition final_scores {Document : Type} (dumps : Document → string)
    (k : Z) (results : list (list Document)) : dict :=
  foldl (step k) [] (events dumps results).

(** No division of the run is a division by zero. *)
Definition safe (k : Z) (evs : list (Z * string)) : Prop :=
  Forall (λ ev, ev.1 + k ≠ 0) evs.

(** What the events add to the score of [key]. *)
Fixpoint event_sum (k : Z) (key : string) (evs : list (Z * string)) : Q :=
  match evs with
  | [] => 0%Q
  | ev :: evs' =>
      ((if decide (ev.2 = key) then / inject_Z (ev.1 + k) else 0)
       + event_sum k key evs')%Q
  end.

(** The keys of a dict that starts with the keys [acc] and then meets [keys]:
    a key joins at the end the first time it is met. *)
Definition first_seen (acc : list string) (keys : list string) : list string :=
  foldl (λ acc key, if decide (key ∈ acc) then acc else acc ++ [key]) acc keys.

(** The place at which [key] is first met in [keys] ([length keys] if never). *)
Fixpoint first_index (key : string) (keys : list string) : nat :=
  match keys with
  | [] => 0
  | key' :: keys' => if decide (key' = key) then 0%nat else S (first_index key keys')
  end.

(** [a] stands somewhere before [b] in the list. *)
Inductive before {A : Type} (a b : A) : list A → Prop :=
| before_here l : b ∈ l → before a b (a :: l)
| before_later c l : before a b l → before a b (c :: l).

(** A variant is usable when it is not the empty string. *)
Definition usable (q : string) : bool := negb (String.eqb q EmptyString).

Definition usable_variants (qs : list string) : nat :=
  length (filter (λ q, usable q = true) qs).

(** [sep.join(pieces)] for [sep = "\n\n"]. *)
Definition blank : string := String newline (String newline EmptyString).

Fixpoint join_blank (pieces : list string) : string :=
  match pieces with
  | [] => EmptyString
  | [p] => p
  | p :: pieces' => p +:+ blank +:+ join_blank pieces'
  end.

(** The first character of a string, as a string. *)
Definition first_char (x : string) : string :=
  match x with
  | EmptyString => EmptyString
  | String c _ => String c EmptyString
  end.

(** No blank line inside the string. *)
Fixpoint no_blank (x : string) : bool :=
  match x with
  | EmptyString => true
  | String c x' =>
      match x' with
      | String c' _ =>
          if decide (c = newline ∧ c' = newline) then false else no_blank x'
      | EmptyString => true
      end
  end.

(** ** The engine in binary64

    The scores of the program are Python floats: every [1 / (rank + k)] is
    rounded to binary64, and so is every [+=].  [Binary64] is the engine
    with this arithmetic.  A float is a [spec_float], the standard library's
    model of IEEE 754 arithmetic, at precision 53 and [emax = 1024]: the
    format of a Python float.  The loops, the dict and the sort are those of
    the engine above. *)

Module Binary64.

Definition prec : Z := 53.
Definition emax : Z := 1024.

(** [0.0].  A new entry holds the int [0]; the [+=] that follows converts
    it to this float before it adds. *)
Definition zero : spec_float := S754_zero false.

(** A Python int as an operand of [/]: the int itself as the significand,
    not rounded to 53 bits. *)
Definition of_int (n : Z) : spec_float :=
  match n with
  | 0 => S754_zero false
  | Zpos p => S754_finite false p 0
  | Zneg p => S754_finite true p 0
  end.

(** [1 / n] for [n ≠ 0].  The true division of two ints rounds their
    quotient once, to the nearest float with ties to even; a quotient too
    small for a float becomes a zero. *)
Definition quotient (n : Z) : spec_float := SFdiv prec emax (of_int 1) (of_int n).

(** [1 / n] on a Python int [n]. *)
Definition true_div_one (n : Z) : result spec_float :=
  if decide (n = 0) then Raise ZeroDivisionError else Ok (quotient n).

(** [x + y], [x < y], [x <= y] and [x == y] on floats. *)
Definition add (x y : spec_float) : spec_float := SFadd prec emax x y.
Definition ltb (x y : spec_float) : bool := SFltb x y.
Definition leb (x y : spec_float) : bool := SFleb x y.
Definition eqb (x y : spec_float) : bool := SFeqb x y.

(** The rational a finite float stands for ([0] for the others). *)
Definition to_Q (x : spec_float) : Q :=
  match x with
  | S754_finite s m e =>
      ((if s then -1 else 1) * inject_Z (Zpos m) * Qpower 2 e)%Q
  | _ => 0%Q
  end.

(** *** The dict [fused_scores] *)

Definition dict : Type := list (string * spec_float).

(** [key in d] *)
Fixpoint dict_mem (key : string) (d : dict) : bool :=
  match d with
  | [] => false
  | (key', _) :: d' => if decide (key = key') then true else dict_mem key d'
  end.

(** [d[key] = v] for a key that is not in [d]: a new last entry. *)
Definition dict_new (key : string) (v : spec_float) (d : dict) : dict :=
  d ++ [(key, v)].

(** [d[key] += c] for a key that is in [d]: the entry keeps its place. *)
Fixpoint dict_iadd (key : string) (c : spec_float) (d : dict) : dict :=
  match d with
  | [] => []
  | (key', v) :: d' =>
      if decide (key = key') then (key', add v c) :: d'
      else (key', v) :: dict_iadd key c d'
  end.

(** [d[key]] *)
Fixpoint dict_get (key : string) (d : dict) : option spec_float :=
  match d with
  | [] => None
  | (key', v) :: d' => if decide (key = key') then Some v else dict_get key d'
  end.

(** *** [sorted(items, key=lambda x: x[1], reverse=True)]

    The sort compares scores with [<] only.  An entry goes before the first
    entry that its score is not less than: among entries none of which is
    less than the other, the order of the dict is kept. *)

Fixpoint insert_desc (x : string * spec_float) (l : list (string * spec_float))
    : list (string * spec_float) :=
  match l with
  | [] => [x]
  | y :: l' =>
      if ltb (snd x) (snd y) then y :: insert_desc x l' else x :: y :: l'
  end.

Definition sorted_desc (l : list (string * spec_float))
    : list (string * spec_float) :=
  foldr insert_desc [] l.

Section Engine.

Variable Document : Type.
Variable dumps : Document → string.
Variable loads : string → Document.

(** The inner loop, [for rank, doc in enumerate(docs)], from [rank] on. *)
Fixpoint score_docs (k : Z) (rank : Z) (docs : list Document)
    (fused_scores : dict) : result dict :=
  match docs with
  | [] => Ok fused_scores
  | doc :: docs' =>
      let doc_str := dumps doc in
      let fused_scores :=
        if dict_mem doc_str fused_scores then fused_scores
        else dict_new doc_str zero fused_scores in
      c ← true_div_one (rank + k) ;
      score_docs k (rank + 1) docs' (dict_iadd doc_str c fused_scores)
  end.

(** The outer loop, [for docs in results]. *)
Fixpoint score_results (k : Z) (results : list (list Document))
    (fused_scores : dict) : result dict :=
  match results with
  | [] => Ok fused_scores
  | docs :: results' =>
      fused_scores ← score_docs k 0 docs fused_scores ;
      score_results k results' fused_scores
  end.

Definition reciprocal_rank_fusion (results : list (list Document)) (k : Z)
    : result (list (Document * spec_float)) :=
  fused_scores ← score_results k results [] ;
  Ok ((λ item, (loads item.1, item.2)) <$> sorted_desc fused_scores).

(** The floats one list adds to the score of [key], in the order in which
    the loop adds them: [1 / (r + k)] for every position [r], counted from
    [rank], at which a document with that key stands. *)
Fixpoint list_terms (k : Z) (rank : Z) (key : string)
    (docs : list Document) : list spec_float :=
  match docs with
  | [] => []
  | doc :: docs' =>
      (if decide (dumps doc = key) then [quotient (rank + k)] else [])
      ++ list_terms k (rank + 1) key docs'
  end.

(** The floats all lists add to the score of [key], list after list. *)
Definition fused_terms (k : Z) (key : string)
    (results : list (list Document)) : list spec_float :=
  mjoin (list_terms k 0 key <$> results).

End Engine.

Arguments score_docs {Document} dumps k rank docs fused_scores.
Arguments score_results {Document} dumps k results fused_scores.
Arguments reciprocal_rank_fusion {Document} dumps loads results k.
Arguments list_terms {Document} dumps k rank key docs.
Arguments fused_terms {Document} dumps k key results.

(** The body of the inner loop once the division has succeeded. *)
Definition step (k : Z) (fused_scores : dict) (ev : Z * string) : dict :=
  let doc_str := ev.2 in
  dict_iadd doc_str (quotient (ev.1 + k))
    (if dict_mem doc_str fused_scores then fused_scores
     else dict_new doc_str zero fused_scores).

(** The dict the loops build when no division fails. *)
Definition final_scores {Document : Type} (dumps : Document → string)
    (k : Z) (results : list (list Document)) : dict :=
  foldl (step k) [] (events dumps results).

(** The floats the events add to the score of [key], in order. *)
Fixpoint event_terms (k : Z) (key : string) (evs : list (Z * string))
    : list spec_float :=
  match evs with
  | [] => []
  | ev :: evs' =>
      (if decide (ev.2 = key) then [quotient (ev.1 + k)] else [])
      ++ event_terms k key evs'
  end.

(** A float that is not a NaN and, unless it is a zero, has the sign [s]
    ([true] for negative). *)
Definition sign_ok (s : bool) (x : spec_float) : Prop :=
  match x with
  | S754_zero _ => True
  | S754_infinity s' | S754_finite s' _ _ => s' = s
  | S754_nan => False
  end.

(** A float greater than [0.0]: a positive float whose exponent is not below
    the least exponent of binary64, or the positive infinity. *)
Definition positive (x : spec_float) : Prop :=
  match x with
  | S754_finite false _ e => emin prec emax ≤ e
  | S754_infinity false => True
  | _ => False
  end.

(** [0.0] or a float greater than it. *)
Definition nonneg (x : spec_float) : Prop := x = zero ∨ positive x.

(** The place of a float in the order of [<]: the class (negative infinity,
    negative, zero, positive, positive infinity), then the exponent, then the
    significand; both count downwards for a negative float. *)
Definition order_key (x : spec_float) : Z * Z * Z :=
  match x with
  | S754_infinity true => (-2, 0, 0)
  | S754_finite true m e => (-1, - e, - Zpos m)
  | S754_zero _ => (0, 0, 0)
  | S754_finite false m e => (1, e, Zpos m)
  | S754_infinity false => (2, 0, 0)
  | S754_nan => (3, 0, 0)
  end.

Definition key_le (a b : Z * Z * Z) : Prop :=
  a.1.1 < b.1.1
  ∨ (a.1.1 = b.1.1 ∧ (a.1.2 < b.1.2 ∨ (a.1.2 = b.1.2 ∧ a.2 ≤ b.2))).

(** [x <= y] for floats that are not NaN. *)
Definition le (x y : spec_float) : Prop := key_le (order_key x) (order_key y).

End Binary64.

(** *** Rounding to the nearest float

    What the proofs about the order of the scores say of [SFdiv] and
    [SFadd]: both return the float nearest to the exact result, ties going
    to the even significand. *)

(** [2 ^ e] as a rational. *)
Definition bpow (e : Z) : Q := Qpower 2 e.

(** The place [l] of [x] in the interval from [m] to [m + 1]: on [m], below
    the middle, on the middle or above it. *)
Definition inbetween (x : Q) (m : Z) (l : location) : Prop :=
  match l with
  | loc_Exact => (x == inject_Z m)%Q
  | loc_Inexact Lt => (inject_Z m < x ∧ x < inject_Z m + (1#2))%Q
  | loc_Inexact Eq => (x == inject_Z m + (1#2))%Q
  | loc_Inexact Gt => (inject_Z m + (1#2) < x ∧ x < inject_Z m + 1)%Q
  end.

(** [z] is an integer nearest to [x], the even one of the two when [x] is
    halfway between them. *)
Definition nearest_even (x : Q) (z : Z) : Prop :=
  (inject_Z z - (1#2) <= x ∧ x <= inject_Z z + (1#2))%Q
  ∧ ((x == inject_Z z - (1#2) ∨ x == inject_Z z + (1#2))%Q → Z.even z = true).

(** The exponent [e] is the one the format gives a significand [m]: the
    significand has 53 bits, or fewer at the least exponent. *)
Definition canonical (m e : Z) : Prop :=
  e = fexp Binary64.prec Binary64.emax (Zdigits2 m + e).

(** The float of a positive significand and an exponent: infinite past the
    greatest exponent. *)
Definition pack (m e : Z) : spec_float :=
  if e <=? Binary64.emax - Binary64.prec then S754_finite false (Z.to_pos m) e
  else S754_infinity false.

(** The float of a significand [m ≤ 2 ^ 53] that a rounding at the exponent
    [e] has given: [0.0] for [0], and the next exponent for [2 ^ 53]. *)
Definition round_result (e m : Z) : spec_float :=
  if m =? 0 then S754_zero false
  else if m =? 2 ^ 53 then pack (2 ^ 52) (e + 1)
  else pack m e.

(** The value [v] lies from [m1] to [m1 + 1] at the exponent [e1] of the
    format, and [m2] is the significand nearest to it. *)
Definition rounded (v : Q) (e1 m1 m2 : Z) : Prop :=
  canonical m1 e1 ∧ 0 ≤ m1
  ∧ (inject_Z m1 <= v * bpow (- e1) ∧ v * bpow (- e1) < inject_Z m1 + 1)%Q
  ∧ nearest_even (v * bpow (- e1)) m2
  ∧ m1 ≤ m2 ≤ m1 + 1.

(** The significands and exponents a rounding can give. *)
Definition round_ok (e m : Z) : Prop :=
  0 ≤ m ≤ 2 ^ 53 ∧ emin Binary64.prec Binary64.emax ≤ e
  ∧ (e = emin Binary64.prec Binary64.emax ∨ 2 ^ 52 ≤ m).

(** The floats a score can be: [0.0], a positive float of the format, or
    the positive infinity. *)
Definition regular (x : spec_float) : Prop :=
  match x with
  | S754_zero s | S754_infinity s => s = false
  | S754_nan => False
  | S754_finite s m e =>
      s = false ∧ canonical (Z.pos m) e ∧ e ≤ Binary64.emax - Binary64.prec
  end.

(** ** More of the notebooks *)

(** *** Reading a score off a ranking *)

(** The score the ranking gives to the document with the key of [d]; [0.0]
    when the ranking does not hold it. *)
Definition score_of {Document : Type} (dumps : Document → string)
    (d : Document) (out : list (Document * spec_float)) : spec_float :=
  match list_find (λ p, dumps p.1 = dumps d) out with
  | Some (_, p) => p.2
  | None => Binary64.zero
  end.

(** The lists that hold a document with this key. *)
Definition votes {Document : Type} (dumps : Document → string)
    (key : string) (results : list (list Document)) : nat :=
  length (filter (λ docs, key ∈ dumps <$> docs) results).

(** *** The retrieval chains

    [chain_generate_queries | retriever.map() | combiner].  The text the
    model returns is the input; [retriever] is the vector store retriever,
    and [retriever.map()] runs it on every query, in order. *)

Module MultiQuery.

Definition chain_retrieval {Document : Type} (dumps : Document → string)
    (loads : string → Document) (retriever : string → list Document)
    (llm_output : string) : result (list Document) :=
  queries ← chain_generate_queries llm_output;
  Ok (get_unique_union dumps loads (retriever <$> queries)).

End MultiQuery.

Module RagFusion.

(** [reciprocal_rank_fusion] is called with its default [k=60]. *)
Definition chain_retrieval {Document : Type} (dumps : Document → string)
    (loads : string → Document) (retriever : string → list Document)
    (llm_output : string) : result (list (Document * spec_float)) :=
  queries ← chain_generate_queries llm_output;
  Binary64.reciprocal_rank_fusion dumps loads (retriever <$> queries) 60.

End RagFusion.

(** *** [x.split("\n")] and the chain of the re-ranking notebook *)

Fixpoint split_on_newline (x : string) (cur : string) : list string :=
  match x with
  | EmptyString => [cur]
  | String c x' =>
      if decide (c = newline) then cur :: split_on_newline x' EmptyString
      else split_on_newline x' (cur +:+ String c EmptyString)
  end.

Fixpoint count_newlines (x : string) : nat :=
  match x with
  | EmptyString => 0
  | String c x' => (if decide (c = newline) then 1 else 0) + count_newlines x'
  end.

(** ["\n".join(pieces)] *)
Fixpoint join_newline (pieces : list string) : string :=
  match pieces with
  | [] => EmptyString
  | [p] => p
  | p :: pieces' => p +:+ String newline (join_newline pieces')
  end.

Module ReRanking.

Definition chain_generate_queries (llm_output : string) : list string :=
  split_on_newline llm_output EmptyString.

Definition chain_retrieval {Document : Type} (retriever : string → list Document)
    (llm_output : string) : list (list Document) :=
  retriever <$> chain_generate_queries llm_output.

End ReRanking.

(** Pieces that [split("\n\n")] gives back from their join: no piece holds a
    blank line, and no piece but the last ends in a newline. *)
Fixpoint well_separated (pieces : list string) : bool :=
  match pieces with
  | [] => false
  | [p] => no_blank p
  | p :: pieces' =>
      no_blank (p +:+ String newline EmptyString) && well_separated pieces'
  end.

(** *** Logical routing *)

Record RouteQuery : Type := { datasource : string }.

(** [str.lower()] on a byte string: the letters [A] to [Z]. *)
Definition lower_ascii (c : ascii) : ascii :=
  let n := nat_of_ascii c in
  if decide (65 ≤ n ∧ n ≤ 90)%nat then ascii_of_nat (n + 32) else c.

Fixpoint lower (s : string) : string :=
  match s with
  | EmptyString => EmptyString
  | String c s' => String (lower_ascii c) (lower s')
  end.

(** [pat in s] *)
Fixpoint contains (pat s : string) : bool :=
  if String.prefix pat s then true
  else match s with
       | EmptyString => false
       | String _ s' => contains pat s'
       end.

Definition choose_route (result : RouteQuery) : string :=
  if contains "python_docs" (lower (datasource result)) then
    "chain for python_docs"
  else if contains "js_docs" (lower (datasource result)) then
    "chain for js_docs"
  else
    "golang_docs".

(** *** The setup notebook

    [os.environ] is a map from names to values.  [getpass] and [input] are
    the user: the text typed in reply to a prompt.  [prompted] records the
    prompts [getpass] has shown. *)

Record session : Type := {
  environ : gmap string string;
  prompted : list string
}.

Definition _set_env (getpass : string → string) (key : string)
    (s : session) : session :=
  match environ s !! key with
  | Some _ => s
  | None =>
      {| environ := <[key := getpass (key +:+ ":")]> (environ s);
         prompted := prompted s ++ [key +:+ ":"] |}
  end.

(** [os.environ[key] = value] *)
Definition setenv (key value : string) (s : session) : session :=
  {| environ := <[key := value]> (environ s); prompted := prompted s |}.

(** The cell under "AWS Credentials". *)
Definition aws_credentials_cell (getpass : string → string) (s : session) : session :=
  let s := _set_env getpass "AWS_ACCESS_KEY_ID" s in
  let s := _set_env getpass "AWS_SECRET_ACCESS_KEY" s in
  let s := _set_env getpass "AWS_SESSION_TOKEN" s in
  setenv "AWS_REGION" "us-west-2" s.

(** The four [os.environ[...]] of the cell under "LLMs", in the order of the
    keyword arguments; [None] is the [KeyError] of a missing name. *)
Definition llm_cell_environ (s : session) : option (string * string * string * string) :=
  access_key ← environ s !! "AWS_ACCESS_KEY_ID";
  secret_key ← environ s !! "AWS_SECRET_ACCESS_KEY";
  session_token ← environ s !! "AWS_SESSION_TOKEN";
  region ← environ s !! "AWS_REGION";
  Some (access_key, secret_key, session_token, region).

(** The values the variable [enable_langsmith] takes: the cell makes a
    [bool]; the cell compares with a [str]. *)
Inductive pyval : Type :=
| PyBool (b : bool)
| PyStr (s : string).

(** [v == s] for a string [s]: a [bool] is never equal to a [str]. *)
Definition py_eq_str (v : pyval) (s : string) : bool :=
  match v with
  | PyBool _ => false
  | PyStr s' => String.eqb s' s
  end.

(** White space of [str.strip()] among the bytes below 128. *)
Definition is_space (c : ascii) : bool :=
  let n := nat_of_ascii c in
  bool_decide ((9 ≤ n ∧ n ≤ 13) ∨ (28 ≤ n ∧ n ≤ 32))%nat.

Fixpoint lstrip (s : string) : string :=
  match s with
  | EmptyString => EmptyString
  | String c s' => if is_space c then lstrip s' else s
  end.

Fixpoint rstrip (s : string) : string :=
  match s with
  | EmptyString => EmptyString
  | String c s' =>
      match rstrip s' with
      | EmptyString => if is_space c then EmptyString else String c EmptyString
      | r => String c r
      end
  end.

Definition strip (s : string) : string := rstrip (lstrip s).

(** The cell under "LangSmith".  [enable_langsmith] is [None] when the name
    is not bound yet, which is the [NameError] branch. *)
Definition langsmith_cell (input getpass : string → string)
    (enable_langsmith : option pyval) (s : session) : pyval * session :=
  let enable_langsmith :=
    match enable_langsmith with
    | Some v => v
    | None =>
        PyBool (String.eqb
                  (strip (lower (input "Enabled Langsmith tracing? (y/n): ")))
                  "y")
    end in
  if py_eq_str enable_langsmith "y" then
    let s := setenv "LANGCHAIN_TRACING_V2" "true" s in
    let s := setenv "LANGCHAIN_ENDPOINT" "https://api.smith.langchain.com" s in
    (enable_langsmith, _set_env getpass "LANGCHAIN_API_KEY" s)
  else
    (enable_langsmith, setenv "LANGCHAIN_TRACING_V2" "false" s).

(** *** Multi-representation indexing

    [uuid4 i] is the text of the [i]-th identifier drawn. *)

Record SummaryDocument : Type := {
  page_content : string;
  doc_id : string
}.

(** [[str(uuid4()) for _ in docs]] *)
Definition make_doc_ids {Document : Type} (uuid4 : nat → string)
    (docs : list Document) : list string :=
  uuid4 <$> seq 0 (length docs).

(** The comprehension over [enumerate(summaries)], from index [i] on;
    [None] is the [IndexError] of [doc_ids[i]]. *)
Fixpoint summary_docs_from (i : nat) (doc_ids : list string)
    (summaries : list string) : option (list SummaryDocument) :=
  match summaries with
  | [] => Some []
  | s :: summaries' =>
      uid ← doc_ids !! i;
      rest ← summary_docs_from (S i) doc_ids summaries';
      Some ({| page_content := s; doc_id := uid |} :: rest)
  end.

Definition summary_docs (doc_ids : list string) (summaries : list string)
    : option (list SummaryDocument) :=
  summary_docs_from 0 doc_ids summaries.

(** [list(zip(doc_ids, docs))], what [docstore.mset] receives. *)
Definition docstore_pairs {Document : Type} (doc_ids : list string)
    (docs : list Document) : list (string * Document) :=
  zip doc_ids docs.

(** * Proofs *)

(** ** The functions on small inputs *)

Example split_reply :
  parse_queries
    ("Here are 2 queries:" +:+ blank +:+ "first query?" +:+ blank
     +:+ "second" +:+ String newline "query?")
  = ["Here are 2 queries:"; "first query?"; "second" +:+ String newline "query?"]%string.
Proof. reflexivity. Qed.

Example split_three_newlines :
  parse_queries (String newline (String newline (String newline "ab")))
  = [EmptyString; String newline "ab"].
Proof. reflexivity. Qed.

Example split_trailing_blank :
  parse_queries ("a" +:+ blank) = ["a"%string; EmptyString].
Proof. reflexivity. Qed.

Example rrf_two_lists :
  reciprocal_rank_fusion id id [["A"; "B"; "C"]; ["B"; "C"; "D"]]%string 60
  = Ok [("B"%string, 121 # 3660); ("C"%string, 123 # 3782);
        ("A"%string, 1 # 60); ("D"%string, 1 # 62)]%Q.
Proof. reflexivity. Qed.

Example rrf_tie_keeps_first_met :
  reciprocal_rank_fusion id id [["B"]; ["A"]; ["C"; "A"]]%string 1
  = Ok [("A"%string, 3 # 2); ("B"%string, 1 # 1); ("C"%string, 1 # 1)]%Q.
Proof. reflexivity. Qed.

Example rrf_zero_k :
  reciprocal_rank_fusion id id [["A"]]%string 0 = Raise ZeroDivisionError.
Proof. reflexivity. Qed.

(** The same inputs in binary64: [0.03306010928961749], [0.03252247488101534],
    [0.016666666666666666] and [0.016129032258064516]. *)
Example rrf_two_lists_binary64 :
  Binary64.reciprocal_rank_fusion id id [["A"; "B"; "C"]; ["B"; "C"; "D"]]%string 60
  = Ok [("B"%string, S754_finite false 4764463868081574 (-57));
        ("C"%string, S754_finite false 4686982584169824 (-57));
        ("A"%string, S754_finite false 4803839602528529 (-58));
        ("D"%string, S754_finite false 4648877034705028 (-58))].
Proof. vm_compute. reflexivity. Qed.

Example rrf_zero_k_binary64 :
  Binary64.reciprocal_rank_fusion id id [["A"]]%string 0 = Raise ZeroDivisionError.
Proof. reflexivity. Qed.

(** ** The loops run as a fold, or raise *)

Section Loops.

Context {Document : Type} (dumps : Document → string).

Lemma score_docs_safe k rank docs fs :
  safe k (enumerate_keys dumps rank docs) →
  score_docs dumps k rank docs fs
  = Ok (foldl (step k) fs (enumerate_keys dumps rank docs)).
Proof.
  revert rank fs. induction docs as [|doc docs IH]; intros rank fs Hs; [done|].
  apply Forall_cons in Hs as [Hnz Hs]. simpl in *.
  unfold true_div_one. destruct (decide (rank + k = 0)) as [|_]; [done|].
  simpl. by rewrite IH.
Qed.

Lemma score_docs_unsafe k rank docs fs :
  ¬ safe k (enumerate_keys dumps rank docs) →
  score_docs dumps k rank docs fs = Raise ZeroDivisionError.
Proof.
  revert rank fs. induction docs as [|doc docs IH]; intros rank fs Hs.
  - destruct Hs. constructor.
  - simpl. unfold true_div_one.
    destruct (decide (rank + k = 0)) as [|Hnz]; [done|]. simpl.
    apply IH. intros Hs'. apply Hs. by constructor.
Qed.

Lemma score_results_safe k results fs :
  safe k (events dumps results) →
  score_results dumps k results fs = Ok (foldl (step k) fs (events dumps results)).
Proof.
  revert fs. induction results as [|docs results IH]; intros fs Hs; [done|].
  unfold events in Hs. simpl in Hs. apply Forall_app in Hs as [Hd Hr].
  simpl. rewrite (score_docs_safe _ _ _ _ Hd). simpl.
  rewrite IH by done. unfold events. simpl. by rewrite foldl_app.
Qed.

Lemma score_results_unsafe k results fs :
  ¬ safe k (events dumps results) →
  score_results dumps k results fs = Raise ZeroDivisionError.
Proof.
  revert fs. induction results as [|docs results IH]; intros fs Hs.
  - destruct Hs. constructor.
  - simpl.
    destruct (decide (safe k (enumerate_keys dumps 0 docs))) as [Hd|Hd].
    + rewrite (score_docs_safe _ _ _ _ Hd). simpl. apply IH.
      intros Hr. apply Hs. unfold events. simpl. by apply Forall_app.
    + by rewrite (score_docs_unsafe _ _ _ _ Hd).
Qed.

End Loops.

(** ** When a division by zero occurs *)

Section Safety.

Context {Document : Type} (dumps : Document → string).

Lemma elem_of_enumerate_keys ev rank docs :
  ev ∈ enumerate_keys dumps rank docs
  ↔ ∃ i d, docs !! i = Some d ∧ ev = (rank + Z.of_nat i, dumps d).
Proof.
  revert rank. induction docs as [|doc docs IH]; intros rank; simpl.
  - split; [by intros ?%elem_of_nil|]. by intros (i & d & ? & _).
  - rewrite elem_of_cons, IH. split.
    + intros [->|(i & d & Hi & ->)].
      * exists 0%nat, doc. split; [done|]. f_equal. lia.
      * exists (S i), d. split; [done|]. f_equal. lia.
    + intros ([|i] & d & Hi & ->); simpl in Hi.
      * left. injection Hi as ->. f_equal. lia.
      * right. exists i, d. split; [done|]. f_equal. lia.
Qed.

Lemma elem_of_events ev results :
  ev ∈ events dumps results
  ↔ ∃ docs i d, docs ∈ results ∧ docs !! i = Some d ∧ ev = (Z.of_nat i, dumps d).
Proof.
  unfold events. rewrite list_elem_of_join. split.
  - intros (evs & Hev & (docs & -> & Hdocs)%list_elem_of_fmap).
    apply elem_of_enumerate_keys in Hev as (i & d & Hi & ->).
    by exists docs, i, d.
  - intros (docs & i & d & Hdocs & Hi & ->).
    exists (enumerate_keys dumps 0 docs). split.
    + apply elem_of_enumerate_keys. by exists i, d.
    + apply list_elem_of_fmap. by exists docs.
Qed.

Lemma safe_enumerate_keys k docs :
  safe k (enumerate_keys dumps 0 docs) ↔ ¬ (0 ≤ - k < Z.of_nat (length docs)).
Proof.
  unfold safe. rewrite Forall_forall. split.
  - intros Hs Hk.
    destruct (lookup_lt_is_Some_2 docs (Z.to_nat (- k))) as [d Hd]; [lia|].
    apply (Hs (0 + Z.of_nat (Z.to_nat (- k)), dumps d)); [|simpl; lia].
    apply elem_of_enumerate_keys. by exists (Z.to_nat (- k)), d.
  - intros Hk ev (i & d & Hi & ->)%elem_of_enumerate_keys. simpl.
    apply lookup_lt_Some in Hi. lia.
Qed.

Lemma safe_events k results :
  safe k (events dumps results)
  ↔ ∀ docs, docs ∈ results → ¬ (0 ≤ - k < Z.of_nat (length docs)).
Proof.
  unfold safe at 1. rewrite Forall_forall. split.
  - intros Hs docs Hdocs. apply safe_enumerate_keys, Forall_forall.
    intros ev (i & d & Hi & ->)%elem_of_enumerate_keys.
    apply Hs, elem_of_events. exists docs, i, d. by rewrite Z.add_0_l.
  - intros Hs ev (docs & i & d & Hdocs & Hi & ->)%elem_of_events.
    apply Hs, safe_enumerate_keys in Hdocs.
    eapply Forall_forall in Hdocs; [exact Hdocs|].
    apply elem_of_enumerate_keys. exists i, d. by rewrite Z.add_0_l.
Qed.

Lemma safe_positive k results : 0 < k → safe k (events dumps results).
Proof. intros Hk. apply safe_events. intros docs _. lia. Qed.

Lemma snd_enumerate_keys rank docs :
  (enumerate_keys dumps rank docs).*2 = dumps <$> docs.
Proof.
  revert rank. induction docs as [|doc docs IH]; intros rank; [done|].
  simpl. by rewrite IH.
Qed.

Lemma snd_events results : (events dumps results).*2 = all_keys dumps results.
Proof.
  unfold events, all_keys. induction results as [|docs results IH]; [done|].
  csimpl. rewrite fmap_app, snd_enumerate_keys. by f_equal.
Qed.

Lemma event_sum_app k key evs evs' :
  (event_sum k key (evs ++ evs') == event_sum k key evs + event_sum k key evs')%Q.
Proof.
  induction evs as [|ev evs IH]; simpl; [ring|]. rewrite IH. ring.
Qed.

Lemma event_sum_enumerate_keys k rank key docs :
  event_sum k key (enumerate_keys dumps rank docs)
  = list_contribution dumps k rank key docs.
Proof.
  revert rank. induction docs as [|doc docs IH]; intros rank; [done|].
  simpl. by rewrite IH.
Qed.

Lemma event_sum_events k key results :
  (event_sum k key (events dumps results) == fused_sum dumps k key results)%Q.
Proof.
  unfold events. induction results as [|docs results IH]; simpl; [done|].
  by rewrite event_sum_app, event_sum_enumerate_keys, IH.
Qed.

End Safety.

(** ** The dict after the loops *)

Lemma dict_mem_keys key (d : dict) : dict_mem key d = true ↔ key ∈ d.*1.
Proof.
  induction d as [|[key' v] d IH]; simpl.
  - split; [done|]. by intros ?%elem_of_nil.
  - rewrite elem_of_cons. destruct (decide (key = key')); [tauto|].
    rewrite IH. tauto.
Qed.

Lemma dict_iadd_keys key c (d : dict) : (dict_iadd key c d).*1 = d.*1.
Proof.
  induction d as [|[key' v] d IH]; [done|]. simpl.
  destruct (decide (key = key')); simpl; [done|]. f_equal. exact IH.
Qed.

Lemma step_keys k (d : dict) ev :
  (step k d ev).*1 = if decide (ev.2 ∈ d.*1) then d.*1 else d.*1 ++ [ev.2].
Proof.
  unfold step. rewrite dict_iadd_keys.
  destruct (dict_mem ev.2 d) eqn:Hm.
  - apply dict_mem_keys in Hm. by rewrite decide_True.
  - rewrite decide_False.
    + unfold dict_new. by rewrite fmap_app.
    + intros Hin%dict_mem_keys. congruence.
Qed.

Lemma foldl_step_keys k evs (d : dict) :
  (foldl (step k) d evs).*1 = first_seen d.*1 evs.*2.
Proof.
  revert d. induction evs as [|ev evs IH]; intros d; [done|].
  simpl. rewrite IH, step_keys. done.
Qed.

Lemma dict_get_None key (d : dict) : dict_get key d = None ↔ key ∉ d.*1.
Proof.
  induction d as [|[key' v] d IH]; simpl.
  - split; [|done]. intros _ ?%elem_of_nil. done.
  - rewrite not_elem_of_cons. destruct (decide (key = key')); [|rewrite IH; tauto].
    split; [done|]. by intros [? _].
Qed.

Lemma dict_get_iadd key key' c (d : dict) :
  dict_get key' (dict_iadd key c d)
  = if decide (key = key') then (λ v, v + c)%Q <$> dict_get key' d
    else dict_get key' d.
Proof.
  induction d as [|[key'' v] d IH]; simpl.
  - by destruct (decide (key = key')).
  - destruct (decide (key = key'')) as [->|Hne]; simpl.
    + destruct (decide (key' = key'')) as [->|Hne'].
      * by rewrite decide_True.
      * by rewrite decide_False.
    + destruct (decide (key' = key'')) as [->|Hne'].
      * by rewrite decide_False.
      * done.
Qed.

Lemma dict_get_new key key' v (d : dict) :
  key ∉ d.*1 →
  dict_get key' (dict_new key v d)
  = if decide (key = key') then Some v else dict_get key' d.
Proof.
  unfold dict_new. induction d as [|[key'' w] d IH]; simpl; intros Hnin.
  - destruct (decide (key' = key)) as [->|]; [by rewrite decide_True|].
    by rewrite decide_False.
  - apply not_elem_of_cons in Hnin as [Hne Hnin].
    destruct (decide (key' = key'')) as [->|]; [by rewrite decide_False|].
    by apply IH.
Qed.

Lemma dict_get_step k key (d : dict) ev :
  dict_get key (step k d ev)
  = if decide (ev.2 = key)
    then Some (default 0 (dict_get key d) + / inject_Z (ev.1 + k))%Q
    else dict_get key d.
Proof.
  unfold step. rewrite dict_get_iadd.
  destruct (dict_mem ev.2 d) eqn:Hm.
  - destruct (decide (ev.2 = key)) as [<-|]; [|done].
    apply dict_mem_keys in Hm.
    destruct (dict_get ev.2 d) eqn:Hg; [done|].
    by apply dict_get_None in Hg.
  - assert (ev.2 ∉ d.*1) as Hnin by (intros ?%dict_mem_keys; congruence).
    rewrite dict_get_new by done.
    destruct (decide (ev.2 = key)) as [<-|]; [|done].
    apply dict_get_None in Hnin. by rewrite Hnin.
Qed.

(** The score under [key] is what the dict held before plus what the events
    added. *)
Lemma dict_get_foldl_step k key evs (d : dict) v :
  dict_get key (foldl (step k) d evs) = Some v →
  (v == default 0 (dict_get key d) + event_sum k key evs)%Q.
Proof.
  revert d. induction evs as [|ev evs IH]; intros d Hg; simpl in *.
  - rewrite Hg. simpl. ring.
  - apply IH in Hg. rewrite Hg, dict_get_step.
    destruct (decide (ev.2 = key)); simpl; ring.
Qed.

Lemma dict_get_elem_of key v (d : dict) :
  NoDup d.*1 → (key, v) ∈ d → dict_get key d = Some v.
Proof.
  induction d as [|[key' w] d IH]; simpl; intros Hnd Hin.
  - by apply elem_of_nil in Hin.
  - apply NoDup_cons in Hnd as [Hnin Hnd].
    apply elem_of_cons in Hin as [[= <- <-]|Hin]; [by rewrite decide_True|].
    rewrite decide_False; [by apply IH|].
    intros <-. apply Hnin. apply list_elem_of_fmap. by exists (key, v).
Qed.

(** ** Keys in the order they are first met *)

Lemma elem_of_first_seen x acc keys :
  x ∈ first_seen acc keys ↔ x ∈ acc ∨ x ∈ keys.
Proof.
  revert acc. induction keys as [|key keys IH]; intros acc.
  - simpl. rewrite elem_of_nil. tauto.
  - change (first_seen acc (key :: keys))
      with (first_seen (if decide (key ∈ acc) then acc else acc ++ [key]) keys).
    rewrite IH, elem_of_cons. destruct (decide (key ∈ acc)).
    + split; [tauto|]. intros [?|[->|?]]; tauto.
    + rewrite elem_of_app, list_elem_of_singleton. tauto.
Qed.

Lemma NoDup_first_seen acc keys : NoDup acc → NoDup (first_seen acc keys).
Proof.
  revert acc. induction keys as [|key keys IH]; intros acc Hnd; [done|].
  apply IH. destruct (decide (key ∈ acc)); [done|].
  apply NoDup_app. split_and!; [done| |apply NoDup_singleton].
  intros x Hx ->%list_elem_of_singleton. done.
Qed.

Lemma first_seen_absorb acc keys :
  (∀ x, x ∈ keys → x ∈ acc) → first_seen acc keys = acc.
Proof.
  induction keys as [|key keys IH]; intros Hin; [done|].
  change (first_seen acc (key :: keys))
    with (first_seen (if decide (key ∈ acc) then acc else acc ++ [key]) keys).
  rewrite decide_True by (apply Hin; left).
  apply IH. intros x Hx. apply Hin. by right.
Qed.

Lemma first_seen_app acc keys keys' :
  first_seen acc (keys ++ keys') = first_seen (first_seen acc keys) keys'.
Proof. unfold first_seen. by rewrite foldl_app. Qed.

(** ** [before] and [first_index] *)

Lemma before_elem_of {A} (a b : A) l : before a b l → a ∈ l ∧ b ∈ l.
Proof.
  induction 1 as [l Hb|c l _ [Ha Hb]].
  - split; [left|by right].
  - split; by right.
Qed.

Lemma before_snoc {A} (a b x : A) l :
  before a b (l ++ [x]) → before a b l ∨ (a ∈ l ∧ b = x).
Proof.
  induction l as [|c l IH]; simpl; intros Hb.
  - inversion Hb as [? Hin|? ? Hb']; subst.
    + by apply elem_of_nil in Hin.
    + inversion Hb'.
  - inversion Hb as [? Hin|? ? Hb']; subst.
    + apply elem_of_app in Hin as [Hin| ->%list_elem_of_singleton].
      * left. by constructor.
      * right. split; [left|done].
    + destruct (IH Hb') as [?|[? ->]].
      * left. by constructor.
      * right. split; [by right|done].
Qed.

Lemma before_fmap {A B} (f : A → B) (a b : A) l :
  before a b l → before (f a) (f b) (f <$> l).
Proof.
  induction 1 as [l Hb|c l _ IH]; csimpl.
  - constructor. apply list_elem_of_fmap. by exists b.
  - by constructor.
Qed.

Lemma before_lookup {A} (l : list A) i j a b :
  (i < j)%nat → l !! i = Some a → l !! j = Some b → before a b l.
Proof.
  revert i j. induction l as [|c l IH]; intros i j Hij Hi Hj; [done|].
  destruct i as [|i], j as [|j]; simpl in *; try lia.
  - injection Hi as ->. constructor. by eapply list_elem_of_lookup_2.
  - constructor. apply (IH i j); [lia|done..].
Qed.

Lemma first_index_lt key keys :
  key ∈ keys → (first_index key keys < length keys)%nat.
Proof.
  induction keys as [|key' keys IH]; simpl; intros Hin.
  - by apply elem_of_nil in Hin.
  - destruct (decide (key' = key)) as [|Hne]; [lia|].
    apply elem_of_cons in Hin as [->|Hin]; [done|]. apply IH in Hin. lia.
Qed.

Lemma first_index_app_l key keys keys' :
  key ∈ keys → first_index key (keys ++ keys') = first_index key keys.
Proof.
  induction keys as [|key' keys IH]; simpl; intros Hin.
  - by apply elem_of_nil in Hin.
  - destruct (decide (key' = key)) as [|Hne]; [done|].
    apply elem_of_cons in Hin as [->|Hin]; [done|]. by rewrite IH.
Qed.

Lemma first_index_app_r key keys keys' :
  key ∉ keys →
  first_index key (keys ++ keys') = (length keys + first_index key keys')%nat.
Proof.
  induction keys as [|key' keys IH]; simpl; intros Hnin; [done|].
  apply not_elem_of_cons in Hnin as [Hne Hnin].
  rewrite decide_False by done. by rewrite IH.
Qed.

(** The keys of the dict stand in the order in which they were first met. *)
Lemma first_seen_before acc seen keys :
  (∀ x, x ∈ acc ↔ x ∈ seen) →
  (∀ a b, before a b acc → (first_index a seen < first_index b seen)%nat) →
  ∀ a b, before a b (first_seen acc keys) →
    (first_index a (seen ++ keys) < first_index b (seen ++ keys))%nat.
Proof.
  revert acc seen. induction keys as [|key keys IH]; intros acc seen Hmem Hord a b.
  - rewrite app_nil_r. apply Hord.
  - change (first_seen acc (key :: keys))
      with (first_seen (if decide (key ∈ acc) then acc else acc ++ [key]) keys).
    replace (seen ++ key :: keys) with ((seen ++ [key]) ++ keys)
      by (by rewrite <- app_assoc).
    apply IH; clear a b.
    + intros x. rewrite elem_of_app, list_elem_of_singleton, <- Hmem.
      destruct (decide (key ∈ acc)) as [Hk|Hk].
      * split; [tauto|]. by intros [?| ->].
      * by rewrite elem_of_app, list_elem_of_singleton.
    + assert (∀ a b, before a b acc →
        (first_index a (seen ++ [key]) < first_index b (seen ++ [key]))%nat) as Hold.
      { intros a b Hb. destruct (before_elem_of _ _ _ Hb) as [Ha Hb'].
        rewrite !first_index_app_l by by apply Hmem. by apply Hord. }
      destruct (decide (key ∈ acc)) as [Hk|Hk]; [done|].
      intros a b [Hb|[Ha ->]]%before_snoc; [by apply Hold|].
      rewrite first_index_app_l by by apply Hmem.
      rewrite first_index_app_r by by rewrite <- Hmem.
      apply Hmem, first_index_lt in Ha. lia.
Qed.

Lemma first_seen_before_nil keys a b :
  before a b (first_seen [] keys) →
  (first_index a keys < first_index b keys)%nat.
Proof.
  apply (first_seen_before [] [] keys); [done|]. intros ? ? Hb. inversion Hb.
Qed.

(** ** The stable sort *)

Lemma insert_desc_perm x l : insert_desc x l ≡ₚ x :: l.
Proof.
  induction l as [|y l IH]; simpl; [done|].
  destruct (Qle_bool y.2 x.2); [done|]. by rewrite IH, Permutation_swap.
Qed.

Lemma sorted_desc_perm l : sorted_desc l ≡ₚ l.
Proof.
  induction l as [|x l IH]; simpl; [done|]. by rewrite insert_desc_perm, IH.
Qed.

(** ** What [reciprocal_rank_fusion] returns *)

Section Fusion.

Context {Document : Type} (dumps : Document → string) (loads : string → Document).
Hypothesis loads_dumps : ∀ d, loads (dumps d) = d.

Lemma rrf_safe results k :
  safe k (events dumps results) →
  reciprocal_rank_fusion dumps loads results k
  = Ok ((λ item, (loads item.1, item.2)) <$> sorted_desc (final_scores dumps k results)).
Proof.
  intros Hs. unfold reciprocal_rank_fusion. by rewrite score_results_safe.
Qed.

Lemma rrf_unsafe results k :
  ¬ safe k (events dumps results) →
  reciprocal_rank_fusion dumps loads results k = Raise ZeroDivisionError.
Proof.
  intros Hs. unfold reciprocal_rank_fusion. by rewrite score_results_unsafe.
Qed.

Lemma rrf_Ok_inv results k out :
  reciprocal_rank_fusion dumps loads results k = Ok out →
  safe k (events dumps results)
  ∧ out = (λ item, (loads item.1, item.2)) <$> sorted_desc (final_scores dumps k results).
Proof.
  intros Hout. destruct (decide (safe k (events dumps results))) as [Hs|Hs].
  - split; [done|]. rewrite rrf_safe in Hout by done. by injection Hout.
  - by rewrite rrf_unsafe in Hout.
Qed.

Lemma final_scores_keys k results :
  (final_scores dumps k results).*1 = first_seen [] (all_keys dumps results).
Proof. unfold final_scores. by rewrite foldl_step_keys, snd_events. Qed.

Lemma final_scores_NoDup k results : NoDup (final_scores dumps k results).*1.
Proof. rewrite final_scores_keys. apply NoDup_first_seen, NoDup_nil_2. Qed.

Lemma final_scores_sum k results key v :
  (key, v) ∈ final_scores dumps k results →
  (v == fused_sum dumps k key results)%Q.
Proof.
  intros Hin. apply dict_get_elem_of in Hin; [|apply final_scores_NoDup].
  apply dict_get_foldl_step in Hin. rewrite Hin, event_sum_events. simpl. ring.
Qed.

Lemma elem_of_all_keys key results :
  key ∈ all_keys dumps results ↔ ∃ d, d ∈ mjoin results ∧ key = dumps d.
Proof.
  unfold all_keys. rewrite list_elem_of_join. split.
  - intros (keys & Hkey & (docs & -> & Hdocs)%list_elem_of_fmap).
    apply list_elem_of_fmap in Hkey as (d & -> & Hd).
    exists d. split; [|done]. apply list_elem_of_join. by exists docs.
  - intros (d & (docs & Hd & Hdocs)%list_elem_of_join & ->).
    exists (dumps <$> docs). split; apply list_elem_of_fmap; eauto.
Qed.

Lemma final_scores_key_inv k results item :
  item ∈ final_scores dumps k results →
  ∃ d, d ∈ mjoin results ∧ item.1 = dumps d.
Proof.
  intros Hin. apply elem_of_all_keys.
  assert (item.1 ∈ (final_scores dumps k results).*1) as Hk
    by (apply list_elem_of_fmap; eauto).
  rewrite final_scores_keys in Hk.
  apply elem_of_first_seen in Hk as [Hk|Hk]; [by apply elem_of_nil in Hk|done].
Qed.

(** The serialisation key of an output document is the key of its entry. *)
Lemma dumps_loads_key k results item :
  item ∈ final_scores dumps k results → dumps (loads item.1) = item.1.
Proof using loads_dumps.
  intros (d & _ & ->)%final_scores_key_inv. by rewrite loads_dumps.
Qed.

Lemma dumps_inj d d' : dumps d = dumps d' → d = d'.
Proof using loads_dumps.
  intros Heq. by rewrite <- (loads_dumps d), Heq, loads_dumps.
Qed.

Lemma rrf_elem_of_inv results k out d s :
  reciprocal_rank_fusion dumps loads results k = Ok out →
  (d, s) ∈ out →
  (dumps d, s) ∈ final_scores dumps k results.
Proof using loads_dumps.
  intros [_ ->]%rrf_Ok_inv ([key v] & [= -> ->] & Hin)%list_elem_of_fmap.
  rewrite sorted_desc_perm in Hin.
  pose proof (dumps_loads_key _ _ _ Hin) as Hkey. simpl in *. by rewrite Hkey.
Qed.

Lemma rrf_keys results k out :
  reciprocal_rank_fusion dumps loads results k = Ok out →
  dumps <$> out.*1 = (sorted_desc (final_scores dumps k results)).*1.
Proof using loads_dumps.
  intros [_ ->]%rrf_Ok_inv. rewrite <- !list_fmap_compose.
  apply Forall_fmap_ext_1, Forall_forall. intros item Hin. simpl.
  rewrite sorted_desc_perm in Hin. by eapply dumps_loads_key.
Qed.

End Fusion.

(** ** One list's share of a score *)

Section Contribution.

Context {Document : Type} (dumps : Document → string).

Lemma list_contribution_absent k rank key docs :
  key ∉ dumps <$> docs → (list_contribution dumps k rank key docs == 0)%Q.
Proof.
  revert rank. induction docs as [|doc docs IH]; intros rank Hnin; [done|].
  apply not_elem_of_cons in Hnin as [Hne Hnin]. simpl.
  rewrite decide_False by done. rewrite IH by done. ring.
Qed.

Lemma position_None rank key docs :
  position dumps rank key docs = None ↔ key ∉ dumps <$> docs.
Proof.
  revert rank. induction docs as [|doc docs IH]; intros rank; simpl.
  - split; [|done]. intros _ ?%elem_of_nil. done.
  - rewrite not_elem_of_cons. destruct (decide (dumps doc = key)) as [->|Hne].
    + split; [done|]. by intros [? _].
    + rewrite IH. split; [by split|by intros [_ ?]].
Qed.

Lemma list_contribution_once k rank key docs r :
  NoDup (dumps <$> docs) →
  position dumps rank key docs = Some r →
  (list_contribution dumps k rank key docs == / inject_Z (r + k))%Q.
Proof.
  revert rank. induction docs as [|doc docs IH]; intros rank Hnd Hpos; [done|].
  apply NoDup_cons in Hnd as [Hnin Hnd]. simpl in *.
  destruct (decide (dumps doc = key)) as [<-|Hne].
  - injection Hpos as <-. rewrite list_contribution_absent by done. ring.
  - rewrite IH by done. ring.
Qed.

Lemma list_contribution_one_position k key docs :
  NoDup (dumps <$> docs) →
  (list_contribution dumps k 0 key docs
   == one_position_contribution dumps k key docs)%Q.
Proof.
  intros Hnd. unfold one_position_contribution.
  destruct (position dumps 0 key docs) as [r|] eqn:Hpos.
  - by apply list_contribution_once.
  - apply position_None in Hpos. by apply list_contribution_absent.
Qed.

Lemma fused_sum_one_position k key results :
  (∀ docs, docs ∈ results → NoDup (dumps <$> docs)) →
  (fused_sum dumps k key results == one_position_sum dumps k key results)%Q.
Proof.
  induction results as [|docs results IH]; intros Hnd; simpl; [done|].
  rewrite list_contribution_one_position by (apply Hnd; left).
  rewrite IH; [done|]. intros docs' ?. apply Hnd. by right.
Qed.

End Contribution.

(** ** Facts shared by the main theorems *)

Section Shared.

Context {Document : Type} (dumps : Document → string) (loads : string → Document).
Hypothesis loads_dumps : ∀ d, loads (dumps d) = d.

Lemma rrf_returns_positive results k :
  0 < k → ∃ out, reciprocal_rank_fusion dumps loads results k = Ok out.
Proof. intros Hk. eexists. apply rrf_safe. by apply safe_positive. Qed.

Lemma rrf_has_score results k out d :
  reciprocal_rank_fusion dumps loads results k = Ok out →
  d ∈ mjoin results → ∃ s, (d, s) ∈ out.
Proof using loads_dumps.
  intros [_ ->]%rrf_Ok_inv Hd.
  assert (dumps d ∈ (final_scores dumps k results).*1) as Hkey.
  { rewrite final_scores_keys. apply elem_of_first_seen. right.
    apply elem_of_all_keys. by exists d. }
  apply list_elem_of_fmap in Hkey as ([key v] & Hkey & Hin).
  simpl in Hkey. subst key. exists v.
  apply list_elem_of_fmap. exists (dumps d, v). simpl.
  split; [by rewrite loads_dumps|]. by rewrite sorted_desc_perm.
Qed.

Lemma rrf_score results k out d s :
  reciprocal_rank_fusion dumps loads results k = Ok out →
  (d, s) ∈ out → (s == fused_sum dumps k (dumps d) results)%Q.
Proof using loads_dumps.
  intros Hout Hin. eapply final_scores_sum, rrf_elem_of_inv; eauto.
Qed.

Lemma rrf_elem_of_input results k out d s :
  reciprocal_rank_fusion dumps loads results k = Ok out →
  (d, s) ∈ out → d ∈ mjoin results.
Proof using loads_dumps.
  intros Hout Hin.
  apply (rrf_elem_of_inv _ _ loads_dumps _ _ _ _ _ Hout) in Hin.
  apply final_scores_key_inv in Hin as (d' & Hd' & Heq). simpl in Heq.
  by rewrite (dumps_inj _ _ loads_dumps _ _ Heq).
Qed.

Lemma fused_sum_singleton k key docs :
  (fused_sum dumps k key [docs] == list_contribution dumps k 0 key docs)%Q.
Proof. simpl. ring. Qed.

Lemma safe_replicate k docs N :
  (1 ≤ N)%nat →
  safe k (events dumps (replicate N docs)) ↔ safe k (events dumps [docs]).
Proof.
  intros HN. rewrite !safe_events. split; intros Hs docs' Hin.
  - apply list_elem_of_singleton in Hin as ->. apply Hs.
    destruct N; [lia|]. left.
  - apply elem_of_replicate_inv in Hin as ->. apply Hs. left.
Qed.

End Shared.

(** ** [get_unique_union] *)

Section Union.

Context {Document : Type} (dumps : Document → string) (loads : string → Document).
Hypothesis loads_dumps : ∀ d, loads (dumps d) = d.

Lemma unique_keys_elem_of key (documents : list (list Document)) :
  key ∈ elements (list_to_set (all_keys dumps documents) : gset string)
  ↔ key ∈ all_keys dumps documents.
Proof. by rewrite elem_of_elements, elem_of_list_to_set. Qed.

Lemma get_unique_union_keys documents :
  dumps <$> get_unique_union dumps loads documents
  = elements (list_to_set (all_keys dumps documents) : gset string).
Proof using loads_dumps.
  unfold get_unique_union. fold (all_keys dumps documents).
  rewrite <- list_fmap_compose. rewrite <- (list_fmap_id (elements _)) at 2.
  apply Forall_fmap_ext_1, Forall_forall.
  intros key (d & _ & ->)%unique_keys_elem_of%elem_of_all_keys. simpl.
  by rewrite loads_dumps.
Qed.

Lemma get_unique_union_elem_of documents d :
  d ∈ get_unique_union dumps loads documents ↔ d ∈ mjoin documents.
Proof using loads_dumps.
  unfold get_unique_union. fold (all_keys dumps documents).
  rewrite list_elem_of_fmap. split.
  - intros (key & -> & (d' & Hd' & ->)%unique_keys_elem_of%elem_of_all_keys).
    by rewrite loads_dumps.
  - intros Hd. exists (dumps d). split; [by rewrite loads_dumps|].
    apply unique_keys_elem_of, elem_of_all_keys. by exists d.
Qed.

Lemma unique_keys_perm (documents : list (list Document)) :
  elements (list_to_set (all_keys dumps documents) : gset string)
  ≡ₚ remove_dups (all_keys dumps documents).
Proof.
  apply NoDup_Permutation; [apply NoDup_elements|apply NoDup_remove_dups|].
  intros key. by rewrite unique_keys_elem_of, elem_of_remove_dups.
Qed.

Lemma length_all_keys (documents : list (list Document)) :
  length (all_keys dumps documents) = sum_list (length <$> documents).
Proof.
  unfold all_keys. rewrite length_join, <- list_fmap_compose. f_equal.
  apply Forall_fmap_ext_1, Forall_forall. intros docs _. simpl.
  by rewrite length_fmap.
Qed.

Lemma length_remove_dups_le (keys : list string) :
  (length (remove_dups keys) ≤ length keys)%nat.
Proof.
  apply submseteq_length, NoDup_submseteq; [apply NoDup_remove_dups|].
  intros key. by rewrite elem_of_remove_dups.
Qed.

End Union.

(** ** [split_on_blank] *)

Lemma append_nil_r (s : string) : s +:+ EmptyString = s.
Proof.
  induction s as [|c s IH]; [done|].
  change (String c (s +:+ EmptyString) = String c s). by rewrite IH.
Qed.

Lemma append_assoc (s1 s2 s3 : string) : (s1 +:+ s2) +:+ s3 = s1 +:+ s2 +:+ s3.
Proof.
  induction s1 as [|c s1 IH]; [done|].
  change (String c ((s1 +:+ s2) +:+ s3) = String c (s1 +:+ s2 +:+ s3)).
  by rewrite IH.
Qed.

Lemma split_on_blank_nonempty x cur : split_on_blank x cur ≠ [].
Proof.
  revert cur.
  enough ((∀ cur, split_on_blank x cur ≠ [])
          ∧ ∀ c cur, split_on_blank (String c x) cur ≠ []) as [H _] by done.
  induction x as [|c' x [IH1 IH2]]; (split; [intros cur|intros c cur]).
  - done.
  - done.
  - apply IH2.
  - change (split_on_blank (String c (String c' x)) cur)
      with (if decide (c = newline ∧ c' = newline)
            then cur :: split_on_blank x EmptyString
            else split_on_blank (String c' x) (cur +:+ String c EmptyString)).
    destruct (decide (c = newline ∧ c' = newline)); [done|]. apply IH2.
Qed.

Lemma join_blank_cons p pieces :
  pieces ≠ [] → join_blank (p :: pieces) = p +:+ blank +:+ join_blank pieces.
Proof. by destruct pieces. Qed.

(** Joining the pieces with blank lines gives the text back. *)
Lemma join_split_on_blank x cur :
  join_blank (split_on_blank x cur) = cur +:+ x.
Proof.
  revert cur.
  enough ((∀ cur, join_blank (split_on_blank x cur) = cur +:+ x)
          ∧ ∀ c cur, join_blank (split_on_blank (String c x) cur)
                     = cur +:+ String c x) as [H _] by done.
  induction x as [|c' x [IH1 IH2]]; (split; [intros cur|intros c cur]).
  - cbn [split_on_blank join_blank]. by rewrite append_nil_r.
  - done.
  - apply IH2.
  - change (split_on_blank (String c (String c' x)) cur)
      with (if decide (c = newline ∧ c' = newline)
            then cur :: split_on_blank x EmptyString
            else split_on_blank (String c' x) (cur +:+ String c EmptyString)).
    destruct (decide (c = newline ∧ c' = newline)) as [[-> ->]|_].
    + rewrite join_blank_cons by apply split_on_blank_nonempty.
      by rewrite IH1.
    + by rewrite IH2, append_assoc.
Qed.

Lemma no_blank_cons c x :
  no_blank (String c x)
  = match x with
    | String c' _ =>
        if decide (c = newline ∧ c' = newline) then false else no_blank x
    | EmptyString => true
    end.
Proof. done. Qed.

Lemma append_cons c (s t : string) : String c s +:+ t = String c (s +:+ t).
Proof. done. Qed.

Lemma no_blank_snoc s c c' :
  ¬ (c = newline ∧ c' = newline) →
  no_blank (s +:+ String c EmptyString) = true →
  no_blank (s +:+ String c (String c' EmptyString)) = true.
Proof.
  intros Hsep. induction s as [|a s IH].
  - intros _. change (no_blank (String c (String c' EmptyString)) = true).
    rewrite no_blank_cons. by rewrite decide_False.
  - destruct s as [|b s].
    + change (no_blank (String a (String c EmptyString)) = true →
              no_blank (String a (String c (String c' EmptyString))) = true).
      rewrite !(no_blank_cons a).
      destruct (decide (a = newline ∧ c = newline)); [done|]. intros _.
      rewrite no_blank_cons. by rewrite decide_False.
    + rewrite !append_cons in *. rewrite !(no_blank_cons a).
      destruct (decide (a = newline ∧ b = newline)); [done|]. apply IH.
Qed.

Lemma no_blank_prefix (s t : string) :
  no_blank (s +:+ t) = true → no_blank s = true.
Proof.
  induction s as [|a s IH]; [done|].
  destruct s as [|b s]; [done|].
  rewrite !append_cons in *. rewrite !(no_blank_cons a).
  destruct (decide (a = newline ∧ b = newline)); [done|]. apply IH.
Qed.

(** No piece of the split holds a blank line. *)
Lemma split_on_blank_no_blank x cur :
  no_blank (cur +:+ first_char x) = true →
  Forall (λ q, no_blank q = true) (split_on_blank x cur).
Proof.
  revert cur.
  enough ((∀ cur, no_blank (cur +:+ first_char x) = true →
             Forall (λ q, no_blank q = true) (split_on_blank x cur))
          ∧ ∀ c cur, no_blank (cur +:+ String c EmptyString) = true →
             Forall (λ q, no_blank q = true) (split_on_blank (String c x) cur))
    as [H _] by done.
  induction x as [|c' x [IH1 IH2]]; (split; [intros cur Hcur|intros c cur Hcur]).
  - constructor; [|done]. by apply no_blank_prefix in Hcur.
  - by constructor.
  - by apply IH2.
  - change (split_on_blank (String c (String c' x)) cur)
      with (if decide (c = newline ∧ c' = newline)
            then cur :: split_on_blank x EmptyString
            else split_on_blank (String c' x) (cur +:+ String c EmptyString)).
    destruct (decide (c = newline ∧ c' = newline)) as [_|Hsep].
    + constructor; [by apply no_blank_prefix in Hcur|].
      apply IH1. by destruct x.
    + apply IH2. rewrite append_assoc. by apply no_blank_snoc.
Qed.

(** ** Binary64: signs and the order of floats *)

Lemma shr_1_nonneg mrs : 0 ≤ shr_m mrs → 0 ≤ shr_m (shr_1 mrs).
Proof. destruct mrs as [[|[p|p|]|p] r s]; simpl; lia. Qed.

Lemma iter_pos_shr_1_nonneg p mrs :
  0 ≤ shr_m mrs → 0 ≤ shr_m (SpecFloat.iter_pos shr_1 p mrs).
Proof.
  revert mrs. induction p as [p IH|p IH|]; intros mrs Hm; simpl.
  - by apply IH, IH, shr_1_nonneg.
  - by apply IH, IH.
  - by apply shr_1_nonneg.
Qed.

Lemma shr_nonneg mrs e n : 0 ≤ shr_m mrs → 0 ≤ shr_m (shr mrs e n).1.
Proof.
  intros Hm. destruct n as [|p|p]; simpl; [done| |done].
  by apply iter_pos_shr_1_nonneg.
Qed.

Lemma shr_fexp_nonneg m e l :
  0 ≤ m → 0 ≤ shr_m (shr_fexp Binary64.prec Binary64.emax m e l).1.
Proof.
  intros Hm. unfold shr_fexp. apply shr_nonneg. by destruct l as [|[]].
Qed.

Lemma round_nearest_even_nonneg m l : 0 ≤ m → 0 ≤ round_nearest_even m l.
Proof.
  intros Hm. destruct l as [|[]]; simpl; try lia. destruct (Z.even m); lia.
Qed.

(** Rounding keeps the sign it is given and never makes a NaN. *)
Lemma binary_round_aux_sign sx mx ex lx :
  0 ≤ mx →
  Binary64.sign_ok sx (binary_round_aux Binary64.prec Binary64.emax sx mx ex lx).
Proof.
  intros Hm. unfold binary_round_aux.
  pose proof (shr_fexp_nonneg mx ex lx Hm) as H1.
  destruct (shr_fexp Binary64.prec Binary64.emax mx ex lx) as [mrs' e'].
  simpl in H1.
  pose proof (shr_fexp_nonneg _ e' loc_Exact
                (round_nearest_even_nonneg _ (loc_of_shr_record mrs') H1)) as H2.
  destruct (shr_fexp _ _ (round_nearest_even _ _) e' loc_Exact) as [mrs'' e''].
  simpl in H2. destruct (shr_m mrs'') as [|m|m]; [done| |lia].
  by destruct (e'' <=? _).
Qed.

Lemma binary_round_sign sx mx ex :
  Binary64.sign_ok sx (binary_round Binary64.prec Binary64.emax sx mx ex).
Proof.
  unfold binary_round. destruct (shl_align _ _ _) as [mz ez].
  by apply binary_round_aux_sign.
Qed.

(** [1 / n] has the sign of [n], or is a zero. *)
Lemma quotient_sign n :
  n ≠ 0 → Binary64.sign_ok (bool_decide (n < 0)) (Binary64.quotient n).
Proof.
  intros Hn. unfold Binary64.quotient.
  assert (∀ s p, Binary64.sign_ok s
            (SFdiv Binary64.prec Binary64.emax (Binary64.of_int 1)
               (S754_finite s p 0))) as Hdiv.
  { intros s p. unfold SFdiv, Binary64.of_int, SFdiv_core_binary.
    set (e' := Z.min _ _). set (m' := match _ - e' with 0 => _ | _ => _ end).
    assert (0 ≤ m') as Hm'.
    { unfold m'. destruct (_ - e'); [lia| |lia]. apply Z.shiftl_nonneg. lia. }
    pose proof (Z.div_pos m' (Z.pos p) Hm' ltac:(lia)) as Hq.
    unfold Z.div in Hq. destruct (Z.div_eucl m' (Z.pos p)) as [q r].
    simpl in Hq. by apply binary_round_aux_sign. }
  destruct n as [|p|p]; [done|..].
  - replace (bool_decide (Z.pos p < 0)) with false
      by (symmetry; apply bool_decide_eq_false_2; lia).
    apply Hdiv.
  - replace (bool_decide (Z.neg p < 0)) with true
      by (symmetry; apply bool_decide_eq_true_2; lia).
    apply Hdiv.
Qed.

(** Adding two floats of one sign gives a float of that sign. *)
Lemma add_sign s x y :
  Binary64.sign_ok s x → Binary64.sign_ok s y →
  Binary64.sign_ok s (Binary64.add x y).
Proof.
  destruct x as [sx|sx| |sx mx ex], y as [sy|sy| |sy my ey]; simpl; try done.
  - intros _ _. by destruct sx, sy.
  - intros -> ->. by destruct s.
  - intros -> ->. unfold Binary64.add, SFadd.
    set (ez := Z.min ex ey).
    destruct (shl_align mx ex ez) as [mx' ex'], (shl_align my ey ez) as [my' ey'].
    simpl fst. destruct s; simpl; apply binary_round_sign.
Qed.

Lemma sign_ok_not_nan s x : Binary64.sign_ok s x → x ≠ S754_nan.
Proof. by destruct x. Qed.

Ltac float_order :=
  rewrite ?Pos.compare_cont_spec; simpl;
  repeat match goal with
         | |- context [Z.compare ?a ?b] => destruct (Z.compare_spec a b)
         | |- context [Pos.compare ?a ?b] => destruct (Pos.compare_spec a b)
         end; simpl; split; try done; try lia; intros _; lia.

Lemma leb_le x y :
  x ≠ S754_nan → y ≠ S754_nan →
  Binary64.leb x y = true ↔ Binary64.le x y.
Proof.
  intros Hx Hy. unfold Binary64.leb, SFleb, Binary64.le, Binary64.key_le.
  destruct x as [sx|[]| |[] mx ex], y as [sy|[]| |[] my ey]; simpl; try done;
    float_order.
Qed.

Lemma ltb_not_le x y :
  x ≠ S754_nan → y ≠ S754_nan →
  Binary64.ltb x y = true ↔ ¬ Binary64.le y x.
Proof.
  intros Hx Hy. unfold Binary64.ltb, SFltb, Binary64.le, Binary64.key_le.
  destruct x as [sx|[]| |[] mx ex], y as [sy|[]| |[] my ey]; simpl; try done;
    float_order.
Qed.

Lemma eqb_le_le x y :
  x ≠ S754_nan → y ≠ S754_nan →
  Binary64.eqb x y = true ↔ Binary64.le x y ∧ Binary64.le y x.
Proof.
  intros Hx Hy. unfold Binary64.eqb, SFeqb, Binary64.le, Binary64.key_le.
  destruct x as [sx|[]| |[] mx ex], y as [sy|[]| |[] my ey]; simpl; try done;
    float_order.
Qed.

Lemma le_total x y : Binary64.le x y ∨ Binary64.le y x.
Proof. unfold Binary64.le, Binary64.key_le. lia. Qed.

Lemma le_trans x y z : Binary64.le x y → Binary64.le y z → Binary64.le x z.
Proof. unfold Binary64.le, Binary64.key_le. lia. Qed.

Lemma le_dec x y : Binary64.le x y ∨ ¬ Binary64.le x y.
Proof. unfold Binary64.le, Binary64.key_le. lia. Qed.

(** ** Binary64: terms and sums that are not zero *)

Lemma digits2_pos_lower p : 2 ^ (Z.pos (digits2_pos p) - 1) ≤ Z.pos p.
Proof.
  induction p as [p IH|p IH|]; simpl digits2_pos; [| |done];
    rewrite Pos2Z.inj_succ;
    replace (Z.succ (Z.pos (digits2_pos p)) - 1)
      with (Z.succ (Z.pos (digits2_pos p) - 1)) by lia;
    rewrite Z.pow_succ_r by lia; lia.
Qed.

Lemma digits2_pos_upper p : Z.pos p < 2 ^ Z.pos (digits2_pos p).
Proof.
  induction p as [p IH|p IH|]; simpl digits2_pos; [| |done];
    rewrite Pos2Z.inj_succ, Z.pow_succ_r by lia; lia.
Qed.

Lemma shr_1_half mrs : 0 ≤ shr_m mrs → shr_m (shr_1 mrs) = shr_m mrs / 2.
Proof.
  intros Hm. destruct mrs as [[|[p|p|]|p] r s]; cbn [shr_1 shr_m] in *;
    [done| | |done|lia].
  - apply (Z.div_unique _ _ _ 1); lia.
  - apply (Z.div_unique _ _ _ 0); lia.
Qed.

Lemma iter_pos_shr_1_div p mrs :
  0 ≤ shr_m mrs →
  shr_m (SpecFloat.iter_pos shr_1 p mrs) = shr_m mrs / 2 ^ Z.pos p.
Proof.
  revert mrs. induction p as [p IH|p IH|]; intros mrs Hm; simpl;
    try assert (0 < 2 ^ Z.pos p) as Hpow by (apply Z.pow_pos_nonneg; lia).
  - pose proof (shr_1_nonneg mrs Hm) as H1.
    pose proof (iter_pos_shr_1_nonneg p _ H1) as H2.
    rewrite (IH _ H2), (IH _ H1), shr_1_half by done.
    rewrite !Z.div_div by nia. f_equal.
    rewrite (Pos2Z.inj_xI p), Z.pow_add_r, Z.pow_mul_r by lia.
    change (2 ^ 2) with (2 * 2). change (2 ^ 1) with 2.
    rewrite Z.pow_mul_l. lia.
  - pose proof (iter_pos_shr_1_nonneg p _ Hm) as H2.
    rewrite (IH _ H2), (IH _ Hm).
    rewrite !Z.div_div by nia. f_equal.
    rewrite (Pos2Z.inj_xO p), Z.pow_mul_r by lia.
    change (2 ^ 2) with (2 * 2). by rewrite Z.pow_mul_l.
  - by rewrite shr_1_half.
Qed.

(** The shift of the rounding keeps an exponent that is not below the least
    one, and does not make a significand zero. *)
Lemma shr_fexp_keeps_positive m e l :
  0 ≤ m → emin Binary64.prec Binary64.emax ≤ e →
  0 ≤ shr_m (shr_fexp Binary64.prec Binary64.emax m e l).1
  ∧ emin Binary64.prec Binary64.emax ≤ (shr_fexp Binary64.prec Binary64.emax m e l).2
  ∧ (0 < m → 0 < shr_m (shr_fexp Binary64.prec Binary64.emax m e l).1).
Proof.
  intros Hm He. split; [by apply shr_fexp_nonneg|].
  unfold shr_fexp, shr.
  assert (shr_m (shr_record_of_loc m l) = m) as Hrec by (by destruct l as [|[]]).
  destruct (fexp _ _ (Zdigits2 m + e) - e) as [|p|p] eqn:Hn; simpl;
    [by rewrite Hrec| |by rewrite Hrec].
  unfold fexp, emin, Binary64.prec, Binary64.emax in *. split; [lia|].
  intros Hpos. rewrite iter_pos_shr_1_div, Hrec by lia.
  destruct m as [|q|q]; [lia| |lia]. simpl Zdigits2 in Hn.
  apply Z.div_str_pos. split; [lia|].
  pose proof (digits2_pos_lower q) as Hlow.
  assert (2 ^ Z.pos p ≤ 2 ^ (Z.pos (digits2_pos q) - 1)); [|lia].
  apply Z.pow_le_mono_r; lia.
Qed.

Lemma round_nearest_even_ge m l : m ≤ round_nearest_even m l.
Proof. destruct l as [|[]]; simpl; try lia. destruct (Z.even m); lia. Qed.

Lemma binary_round_aux_nonneg mx ex lx :
  0 ≤ mx → emin Binary64.prec Binary64.emax ≤ ex →
  Binary64.nonneg (binary_round_aux Binary64.prec Binary64.emax false mx ex lx)
  ∧ (0 < mx →
     Binary64.positive
       (binary_round_aux Binary64.prec Binary64.emax false mx ex lx)).
Proof.
  intros Hm He. unfold binary_round_aux.
  destruct (shr_fexp_keeps_positive mx ex lx Hm He) as (H1 & He1 & Hp1).
  destruct (shr_fexp Binary64.prec Binary64.emax mx ex lx) as [mrs' e'].
  simpl in H1, He1, Hp1.
  pose proof (round_nearest_even_ge (shr_m mrs') (loc_of_shr_record mrs')) as Hr.
  set (m2 := round_nearest_even _ _) in *.
  destruct (shr_fexp_keeps_positive m2 e' loc_Exact ltac:(lia) He1)
    as (H2 & He2 & Hp2).
  destruct (shr_fexp _ _ m2 e' loc_Exact) as [mrs'' e''].
  simpl in H2, He2, Hp2.
  destruct (shr_m mrs'') as [|m|m] eqn:Hm''; [| |lia].
  - split; [by left|]. intros Hpos. specialize (Hp1 Hpos). lia.
  - assert (Binary64.positive
              (if e'' <=? Binary64.emax - Binary64.prec
               then S754_finite false m e'' else S754_infinity false)) as Hres
      by (by destruct (e'' <=? _)).
    split; [by right|done].
Qed.

Lemma binary_round_positive mx ex :
  emin Binary64.prec Binary64.emax ≤ ex →
  Binary64.positive (binary_round Binary64.prec Binary64.emax false mx ex).
Proof.
  intros He. unfold binary_round.
  destruct (shl_align mx ex _) as [mz ez] eqn:Hal.
  apply binary_round_aux_nonneg; [lia| |lia].
  unfold shl_align in Hal.
  destruct (fexp _ _ _ - ex) as [|d|d] eqn:Hd; injection Hal as <- <-; [done..|].
  unfold fexp. lia.
Qed.

(** [1 / n] for [n > 0] is [0.0] or greater, and greater when
    [n ≤ 2 ^ 1074]. *)
Lemma quotient_nonneg n :
  0 < n →
  Binary64.nonneg (Binary64.quotient n)
  ∧ (n ≤ 2 ^ 1074 → Binary64.positive (Binary64.quotient n)).
Proof.
  intros Hn. destruct n as [|p|p]; [lia| |lia].
  unfold Binary64.quotient, Binary64.of_int, SFdiv, SFdiv_core_binary.
  simpl Zdigits2. simpl xorb.
  set (d2 := Z.pos (digits2_pos p)).
  set (e' := Z.min _ _).
  assert (e' = Z.min (Z.max (1 - d2 - 53) (-1074)) 0) as He'.
  { unfold e', fexp, emin, Binary64.prec, Binary64.emax. lia. }
  assert (0 < d2) as Hd2 by (unfold d2; lia).
  replace (0 - 0 - e') with (- e') by lia.
  destruct (- e') as [|s|s] eqn:Hs; [lia| |lia].
  rewrite Z.shiftl_1_l.
  pose proof (Z.div_pos (2 ^ Z.pos s) (Z.pos p)
                ltac:(apply Z.pow_nonneg; lia) ltac:(lia)) as Hq.
  assert (Z.pos p ≤ 2 ^ 1074 → 0 < 2 ^ Z.pos s / Z.pos p) as Hq'.
  { intros Hle. apply Z.div_str_pos. split; [lia|].
    pose proof (digits2_pos_upper p) as Hup. fold d2 in Hup.
    destruct (Z.le_gt_cases (d2 + 52) 1074).
    - replace (Z.pos s) with (d2 + 52) by lia.
      assert (2 ^ d2 ≤ 2 ^ (d2 + 52)) by (apply Z.pow_le_mono_r; lia). lia.
    - by replace (Z.pos s) with 1074 by lia. }
  unfold Z.div in Hq, Hq'.
  destruct (Z.div_eucl (2 ^ Z.pos s) (Z.pos p)) as [q r]. simpl in Hq, Hq'.
  assert (emin Binary64.prec Binary64.emax ≤ e') as Hmin
    by (unfold emin, Binary64.prec, Binary64.emax; lia).
  destruct (binary_round_aux_nonneg q e' (new_location (Z.pos p) r) Hq Hmin)
    as [Hnn Hpos].
  split; [done|]. intros Hle. by apply Hpos, Hq'.
Qed.

(** A sum of floats that are [0.0] or greater is [0.0] or greater, and
    greater when one of the two is. *)
Lemma add_nonneg x y :
  Binary64.nonneg x → Binary64.nonneg y →
  Binary64.nonneg (Binary64.add x y)
  ∧ (Binary64.positive x ∨ Binary64.positive y →
     Binary64.positive (Binary64.add x y)).
Proof.
  assert (∀ z, Binary64.positive z → Binary64.nonneg z) as Hweak by (by right).
  intros [->|Hx] [->|Hy].
  - split; [by left|]. by intros [[]|[]].
  - destruct y as [?|[]| |[] my ey]; try done; (split; [by right|done]).
  - destruct x as [?|[]| |[] mx ex]; try done; (split; [by right|done]).
  - enough (Binary64.positive (Binary64.add x y)) by (split; [by right|done]).
    destruct x as [?|[]| |[] mx ex], y as [?|[]| |[] my ey]; try done.
    unfold Binary64.add, SFadd. simpl in Hx, Hy.
    set (ez := Z.min ex ey).
    destruct (shl_align mx ex ez) as [mx' ex'], (shl_align my ey ez) as [my' ey'].
    simpl. apply binary_round_positive. lia.
Qed.

Lemma foldl_add_nonneg acc terms :
  Binary64.nonneg acc → Forall Binary64.nonneg terms →
  Binary64.nonneg (foldl Binary64.add acc terms)
  ∧ (Binary64.positive acc ∨ Exists Binary64.positive terms →
     Binary64.positive (foldl Binary64.add acc terms)).
Proof.
  intros Hacc Hterms. revert acc Hacc.
  induction Hterms as [|t terms Ht Hterms IH]; intros acc Hacc; simpl.
  - split; [done|]. intros [?|?%Exists_nil]; done.
  - destruct (add_nonneg acc t Hacc Ht) as [Hnn Hpos].
    destruct (IH _ Hnn) as [IHnn IHpos]. split; [done|].
    intros [?|[?|?]%Exists_cons]; apply IHpos; auto.
Qed.

Lemma nonneg_leb x : Binary64.nonneg x → Binary64.leb Binary64.zero x = true.
Proof. intros [->|Hx]; [done|]. by destruct x as [?|[]| |[] ? ?]. Qed.

Lemma positive_ltb x : Binary64.positive x → Binary64.ltb Binary64.zero x = true.
Proof. by destruct x as [?|[]| |[] ? ?]. Qed.

(** ** Binary64: the loops run as a fold, or raise *)

Section Binary64_loops.

Context {Document : Type} (dumps : Document → string).

Lemma b64_score_docs_safe k rank docs fs :
  safe k (enumerate_keys dumps rank docs) →
  Binary64.score_docs dumps k rank docs fs
  = Ok (foldl (Binary64.step k) fs (enumerate_keys dumps rank docs)).
Proof.
  revert rank fs. induction docs as [|doc docs IH]; intros rank fs Hs; [done|].
  apply Forall_cons in Hs as [Hnz Hs]. simpl in *.
  unfold Binary64.true_div_one. destruct (decide (rank + k = 0)) as [|_]; [done|].
  simpl. by rewrite IH.
Qed.

Lemma b64_score_docs_unsafe k rank docs fs :
  ¬ safe k (enumerate_keys dumps rank docs) →
  Binary64.score_docs dumps k rank docs fs = Raise ZeroDivisionError.
Proof.
  revert rank fs. induction docs as [|doc docs IH]; intros rank fs Hs.
  - destruct Hs. constructor.
  - simpl. unfold Binary64.true_div_one.
    destruct (decide (rank + k = 0)) as [|Hnz]; [done|]. simpl.
    apply IH. intros Hs'. apply Hs. by constructor.
Qed.

Lemma b64_score_results_safe k results fs :
  safe k (events dumps results) →
  Binary64.score_results dumps k results fs
  = Ok (foldl (Binary64.step k) fs (events dumps results)).
Proof.
  revert fs. induction results as [|docs results IH]; intros fs Hs; [done|].
  unfold events in Hs. simpl in Hs. apply Forall_app in Hs as [Hd Hr].
  simpl. rewrite (b64_score_docs_safe _ _ _ _ Hd). simpl.
  rewrite IH by done. unfold events. simpl. by rewrite foldl_app.
Qed.

Lemma b64_score_results_unsafe k results fs :
  ¬ safe k (events dumps results) →
  Binary64.score_results dumps k results fs = Raise ZeroDivisionError.
Proof.
  revert fs. induction results as [|docs results IH]; intros fs Hs.
  - destruct Hs. constructor.
  - simpl.
    destruct (decide (safe k (enumerate_keys dumps 0 docs))) as [Hd|Hd].
    + rewrite (b64_score_docs_safe _ _ _ _ Hd). simpl. apply IH.
      intros Hr. apply Hs. unfold events. simpl. by apply Forall_app.
    + by rewrite (b64_score_docs_unsafe _ _ _ _ Hd).
Qed.

(** In a run without a division by zero all denominators have one sign:
    they are positive for [k > 0] and negative otherwise. *)
Lemma safe_sign k results ev :
  safe k (events dumps results) → ev ∈ events dumps results →
  ev.1 + k ≠ 0 ∧ bool_decide (ev.1 + k < 0) = bool_decide (k ≤ 0).
Proof.
  intros Hs Hev. pose proof Hev as (docs & i & d & Hdocs & Hi & ->)%elem_of_events.
  apply (proj1 (safe_events dumps k results) Hs) in Hdocs.
  apply lookup_lt_Some in Hi. simpl. split; [lia|].
  apply bool_decide_ext. lia.
Qed.

Lemma event_terms_app k key evs evs' :
  Binary64.event_terms k key (evs ++ evs')
  = Binary64.event_terms k key evs ++ Binary64.event_terms k key evs'.
Proof.
  induction evs as [|ev evs IH]; simpl; [done|]. by rewrite IH, app_assoc.
Qed.

Lemma event_terms_enumerate_keys k rank key docs :
  Binary64.event_terms k key (enumerate_keys dumps rank docs)
  = Binary64.list_terms dumps k rank key docs.
Proof.
  revert rank. induction docs as [|doc docs IH]; intros rank; [done|].
  simpl. by rewrite IH.
Qed.

Lemma event_terms_events k key results :
  Binary64.event_terms k key (events dumps results)
  = Binary64.fused_terms dumps k key results.
Proof.
  unfold events, Binary64.fused_terms.
  induction results as [|docs results IH]; csimpl; [done|].
  by rewrite event_terms_app, event_terms_enumerate_keys, IH.
Qed.

End Binary64_loops.

(** ** Binary64: the dict after the loops *)

Lemma b64_dict_mem_keys key (d : Binary64.dict) :
  Binary64.dict_mem key d = true ↔ key ∈ d.*1.
Proof.
  induction d as [|[key' v] d IH]; simpl.
  - split; [done|]. by intros ?%elem_of_nil.
  - rewrite elem_of_cons. destruct (decide (key = key')); [tauto|].
    rewrite IH. tauto.
Qed.

Lemma b64_dict_iadd_keys key c (d : Binary64.dict) :
  (Binary64.dict_iadd key c d).*1 = d.*1.
Proof.
  induction d as [|[key' v] d IH]; [done|]. simpl.
  destruct (decide (key = key')); simpl; [done|]. f_equal. exact IH.
Qed.

Lemma b64_step_keys k (d : Binary64.dict) ev :
  (Binary64.step k d ev).*1
  = if decide (ev.2 ∈ d.*1) then d.*1 else d.*1 ++ [ev.2].
Proof.
  unfold Binary64.step. rewrite b64_dict_iadd_keys.
  destruct (Binary64.dict_mem ev.2 d) eqn:Hm.
  - apply b64_dict_mem_keys in Hm. by rewrite decide_True.
  - rewrite decide_False.
    + unfold Binary64.dict_new. by rewrite fmap_app.
    + intros Hin%b64_dict_mem_keys. congruence.
Qed.

Lemma b64_foldl_step_keys k evs (d : Binary64.dict) :
  (foldl (Binary64.step k) d evs).*1 = first_seen d.*1 evs.*2.
Proof.
  revert d. induction evs as [|ev evs IH]; intros d; [done|].
  simpl. rewrite IH, b64_step_keys. done.
Qed.

Lemma b64_dict_get_None key (d : Binary64.dict) :
  Binary64.dict_get key d = None ↔ key ∉ d.*1.
Proof.
  induction d as [|[key' v] d IH]; simpl.
  - split; [|done]. intros _ ?%elem_of_nil. done.
  - rewrite not_elem_of_cons. destruct (decide (key = key')); [|rewrite IH; tauto].
    split; [done|]. by intros [? _].
Qed.

Lemma b64_dict_get_iadd key key' c (d : Binary64.dict) :
  Binary64.dict_get key' (Binary64.dict_iadd key c d)
  = if decide (key = key')
    then (λ v, Binary64.add v c) <$> Binary64.dict_get key' d
    else Binary64.dict_get key' d.
Proof.
  induction d as [|[key'' v] d IH]; simpl.
  - by destruct (decide (key = key')).
  - destruct (decide (key = key'')) as [->|Hne]; simpl.
    + destruct (decide (key' = key'')) as [->|Hne'].
      * by rewrite decide_True.
      * by rewrite decide_False.
    + destruct (decide (key' = key'')) as [->|Hne'].
      * by rewrite decide_False.
      * done.
Qed.

Lemma b64_dict_get_new key key' v (d : Binary64.dict) :
  key ∉ d.*1 →
  Binary64.dict_get key' (Binary64.dict_new key v d)
  = if decide (key = key') then Some v else Binary64.dict_get key' d.
Proof.
  unfold Binary64.dict_new. induction d as [|[key'' w] d IH]; simpl; intros Hnin.
  - destruct (decide (key' = key)) as [->|]; [by rewrite decide_True|].
    by rewrite decide_False.
  - apply not_elem_of_cons in Hnin as [Hne Hnin].
    destruct (decide (key' = key'')) as [->|]; [by rewrite decide_False|].
    by apply IH.
Qed.

Lemma b64_dict_get_step k key (d : Binary64.dict) ev :
  Binary64.dict_get key (Binary64.step k d ev)
  = if decide (ev.2 = key)
    then Some (Binary64.add (default Binary64.zero (Binary64.dict_get key d))
                 (Binary64.quotient (ev.1 + k)))
    else Binary64.dict_get key d.
Proof.
  unfold Binary64.step. rewrite b64_dict_get_iadd.
  destruct (Binary64.dict_mem ev.2 d) eqn:Hm.
  - destruct (decide (ev.2 = key)) as [<-|]; [|done].
    apply b64_dict_mem_keys in Hm.
    destruct (Binary64.dict_get ev.2 d) eqn:Hg; [done|].
    by apply b64_dict_get_None in Hg.
  - assert (ev.2 ∉ d.*1) as Hnin by (intros ?%b64_dict_mem_keys; congruence).
    rewrite b64_dict_get_new by done.
    destruct (decide (ev.2 = key)) as [<-|]; [|done].
    apply b64_dict_get_None in Hnin. by rewrite Hnin.
Qed.

(** The score under [key] is what the dict held before with the terms of the
    events added to it one after the other, each addition rounded. *)
Lemma b64_dict_get_foldl_step k key evs (d : Binary64.dict) v :
  Binary64.dict_get key (foldl (Binary64.step k) d evs) = Some v →
  v = foldl Binary64.add (default Binary64.zero (Binary64.dict_get key d))
        (Binary64.event_terms k key evs).
Proof.
  revert d. induction evs as [|ev evs IH]; intros d Hg; simpl in *.
  - by rewrite Hg.
  - apply IH in Hg. rewrite Hg, b64_dict_get_step.
    by destruct (decide (ev.2 = key)).
Qed.

Lemma b64_dict_get_elem_of key v (d : Binary64.dict) :
  NoDup d.*1 → (key, v) ∈ d → Binary64.dict_get key d = Some v.
Proof.
  induction d as [|[key' w] d IH]; simpl; intros Hnd Hin.
  - by apply elem_of_nil in Hin.
  - apply NoDup_cons in Hnd as [Hnin Hnd].
    apply elem_of_cons in Hin as [[= <- <-]|Hin]; [by rewrite decide_True|].
    rewrite decide_False; [by apply IH|].
    intros <-. apply Hnin. apply list_elem_of_fmap. by exists (key, v).
Qed.

(** Every score of the dict has the sign of the terms. *)
Lemma b64_step_sign s k (d : Binary64.dict) ev :
  Binary64.sign_ok s (Binary64.quotient (ev.1 + k)) →
  Forall (λ e, Binary64.sign_ok s e.2) d →
  Forall (λ e, Binary64.sign_ok s e.2) (Binary64.step k d ev).
Proof.
  intros Hc Hd. unfold Binary64.step.
  set (d' := if Binary64.dict_mem ev.2 d then d else _).
  assert (Forall (λ e, Binary64.sign_ok s e.2) d') as Hd'.
  { unfold d'. destruct (Binary64.dict_mem ev.2 d); [done|].
    apply Forall_app. split; [done|]. by repeat constructor. }
  clearbody d'. induction Hd' as [|[key v] d' Hv Hd' IH]; simpl; [done|].
  destruct (decide (ev.2 = key)).
  - constructor; [|done]. by apply add_sign.
  - by constructor.
Qed.

Lemma b64_foldl_step_sign s k evs (d : Binary64.dict) :
  Forall (λ ev, Binary64.sign_ok s (Binary64.quotient (ev.1 + k))) evs →
  Forall (λ e, Binary64.sign_ok s e.2) d →
  Forall (λ e, Binary64.sign_ok s e.2) (foldl (Binary64.step k) d evs).
Proof.
  revert d. induction evs as [|ev evs IH]; intros d Hevs Hd; [done|].
  apply Forall_cons in Hevs as [Hev Hevs]. simpl.
  apply IH; [done|]. by apply b64_step_sign.
Qed.

(** ** Binary64: the stable sort *)

Lemma b64_insert_desc_perm x l : Binary64.insert_desc x l ≡ₚ x :: l.
Proof.
  induction l as [|y l IH]; simpl; [done|].
  destruct (Binary64.ltb x.2 y.2); [|done]. by rewrite IH, Permutation_swap.
Qed.

Lemma b64_sorted_desc_perm l : Binary64.sorted_desc l ≡ₚ l.
Proof.
  induction l as [|x l IH]; simpl; [done|]. by rewrite b64_insert_desc_perm, IH.
Qed.

Lemma b64_insert_desc_before x s a b :
  x.2 ≠ S754_nan → Forall (λ e, e.2 ≠ S754_nan) s →
  (∀ a b, before a b s → Binary64.le b.2 a.2) →
  before a b (Binary64.insert_desc x s) →
  (a = x ∧ b ∈ s ∧ Binary64.le b.2 x.2)
  ∨ (b = x ∧ a ∈ s ∧ ¬ Binary64.le a.2 x.2)
  ∨ before a b s.
Proof.
  intros Hx Hnan. induction Hnan as [|y s Hy Hnan IH]; simpl; intros Hs.
  - intros Hb.
    inversion Hb as [? Hin|? ? Hb']; subst; [by apply elem_of_nil in Hin|inversion Hb'].
  - destruct (Binary64.ltb x.2 y.2) eqn:Hlt; intros Hb.
    + apply ltb_not_le in Hlt; [|done..].
      inversion Hb as [? Hin|? ? Hb']; subst.
      * rewrite b64_insert_desc_perm in Hin.
        apply elem_of_cons in Hin as [->|Hin].
        -- right; left. split_and!; [done|left|done].
        -- right; right. by constructor.
      * destruct IH as [(-> & Hin & ?)|[(-> & Hin & ?)|?]]; [|done|..].
        -- intros a' b' ?. apply Hs. by constructor.
        -- left. split_and!; [done|by right|done].
        -- right; left. split_and!; [done|by right|done].
        -- right; right. by constructor.
    + assert (Binary64.le y.2 x.2) as Hle.
      { destruct (le_dec y.2 x.2) as [|Hn]; [done|].
        apply ltb_not_le in Hn; [congruence|done..]. }
      inversion Hb as [? Hin|? ? Hb']; subst; [|by right; right].
      left. split_and!; [done..|].
      apply elem_of_cons in Hin as [->|Hin]; [done|].
      apply le_trans with y.2; [|done]. apply Hs. by constructor.
Qed.

(** The sort is descending and stable: an entry that comes out before
    another has a larger score, or a score that is neither less nor larger
    and an earlier place in the input. *)
Lemma b64_sorted_desc_before l a b :
  Forall (λ e, e.2 ≠ S754_nan) l →
  before a b (Binary64.sorted_desc l) →
  ¬ Binary64.le a.2 b.2
  ∨ (Binary64.le a.2 b.2 ∧ Binary64.le b.2 a.2 ∧ before a b l).
Proof.
  intros Hnan. revert a b.
  induction Hnan as [|x l Hx Hnan IH]; simpl; intros a b Hb; [inversion Hb|].
  apply b64_insert_desc_before in Hb as [(-> & Hin & Hle)|[(-> & Hin & Hlt)|Hb]].
  - rewrite b64_sorted_desc_perm in Hin.
    destruct (le_dec x.2 b.2) as [Hle'|?]; [|by left].
    right. split_and!; [done..|by constructor].
  - by left.
  - apply IH in Hb as [?|(? & ? & ?)]; [by left|].
    right. split_and!; [done..|by constructor].
  - done.
  - eapply Forall_forall. intros e He. rewrite b64_sorted_desc_perm in He.
    by eapply Forall_forall in Hnan.
  - intros a' b' [Hn|(_ & ? & _)]%IH; [|done].
    destruct (le_total a'.2 b'.2); done.
Qed.

(** ** Binary64: what [reciprocal_rank_fusion] returns *)

Section Binary64_fusion.

Context {Document : Type} (dumps : Document → string) (loads : string → Document).
Hypothesis loads_dumps : ∀ d, loads (dumps d) = d.

Lemma b64_rrf_safe results k :
  safe k (events dumps results) →
  Binary64.reciprocal_rank_fusion dumps loads results k
  = Ok ((λ item, (loads item.1, item.2))
          <$> Binary64.sorted_desc (Binary64.final_scores dumps k results)).
Proof.
  intros Hs. unfold Binary64.reciprocal_rank_fusion.
  by rewrite b64_score_results_safe.
Qed.

Lemma b64_rrf_unsafe results k :
  ¬ safe k (events dumps results) →
  Binary64.reciprocal_rank_fusion dumps loads results k = Raise ZeroDivisionError.
Proof.
  intros Hs. unfold Binary64.reciprocal_rank_fusion.
  by rewrite b64_score_results_unsafe.
Qed.

Lemma b64_rrf_Ok_inv results k out :
  Binary64.reciprocal_rank_fusion dumps loads results k = Ok out →
  safe k (events dumps results)
  ∧ out = (λ item, (loads item.1, item.2))
            <$> Binary64.sorted_desc (Binary64.final_scores dumps k results).
Proof.
  intros Hout. destruct (decide (safe k (events dumps results))) as [Hs|Hs].
  - split; [done|]. rewrite b64_rrf_safe in Hout by done. by injection Hout.
  - by rewrite b64_rrf_unsafe in Hout.
Qed.

Lemma b64_rrf_returns_positive results k :
  0 < k → ∃ out, Binary64.reciprocal_rank_fusion dumps loads results k = Ok out.
Proof. intros Hk. eexists. apply b64_rrf_safe. by apply safe_positive. Qed.

Lemma b64_final_scores_keys k results :
  (Binary64.final_scores dumps k results).*1 = first_seen [] (all_keys dumps results).
Proof.
  unfold Binary64.final_scores. by rewrite b64_foldl_step_keys, snd_events.
Qed.

Lemma b64_final_scores_NoDup k results :
  NoDup (Binary64.final_scores dumps k results).*1.
Proof. rewrite b64_final_scores_keys. apply NoDup_first_seen, NoDup_nil_2. Qed.

(** The score of a key is the rounded sum of its terms, added in the order
    of the loops. *)
Lemma b64_final_scores_sum k results key v :
  (key, v) ∈ Binary64.final_scores dumps k results →
  v = foldl Binary64.add Binary64.zero (Binary64.fused_terms dumps k key results).
Proof.
  intros Hin. apply b64_dict_get_elem_of in Hin; [|apply b64_final_scores_NoDup].
  apply b64_dict_get_foldl_step in Hin. by rewrite event_terms_events in Hin.
Qed.

Lemma b64_final_scores_sign k results :
  safe k (events dumps results) →
  Forall (λ e, Binary64.sign_ok (bool_decide (k ≤ 0)) e.2)
    (Binary64.final_scores dumps k results).
Proof.
  intros Hs. apply b64_foldl_step_sign; [|done].
  apply Forall_forall. intros ev Hev.
  destruct (safe_sign dumps k results ev Hs Hev) as [Hnz <-].
  by apply quotient_sign.
Qed.

Lemma b64_final_scores_not_nan k results :
  safe k (events dumps results) →
  Forall (λ e, e.2 ≠ S754_nan) (Binary64.final_scores dumps k results).
Proof.
  intros Hs. eapply Forall_impl; [by apply b64_final_scores_sign|].
  intros e. apply sign_ok_not_nan.
Qed.

Lemma b64_final_scores_key_inv k results item :
  item ∈ Binary64.final_scores dumps k results →
  ∃ d, d ∈ mjoin results ∧ item.1 = dumps d.
Proof.
  intros Hin. apply elem_of_all_keys.
  assert (item.1 ∈ (Binary64.final_scores dumps k results).*1) as Hk
    by (apply list_elem_of_fmap; eauto).
  rewrite b64_final_scores_keys in Hk.
  apply elem_of_first_seen in Hk as [Hk|Hk]; [by apply elem_of_nil in Hk|done].
Qed.

Lemma b64_dumps_loads_key k results item :
  item ∈ Binary64.final_scores dumps k results → dumps (loads item.1) = item.1.
Proof using loads_dumps.
  intros (d & _ & ->)%b64_final_scores_key_inv. by rewrite loads_dumps.
Qed.

Lemma b64_rrf_elem_of_inv results k out d s :
  Binary64.reciprocal_rank_fusion dumps loads results k = Ok out →
  (d, s) ∈ out →
  (dumps d, s) ∈ Binary64.final_scores dumps k results.
Proof using loads_dumps.
  intros [_ ->]%b64_rrf_Ok_inv ([key v] & [= -> ->] & Hin)%list_elem_of_fmap.
  rewrite b64_sorted_desc_perm in Hin.
  pose proof (b64_dumps_loads_key _ _ _ Hin) as Hkey. simpl in *. by rewrite Hkey.
Qed.

Lemma b64_rrf_keys results k out :
  Binary64.reciprocal_rank_fusion dumps loads results k = Ok out →
  dumps <$> out.*1
  = (Binary64.sorted_desc (Binary64.final_scores dumps k results)).*1.
Proof using loads_dumps.
  intros [_ ->]%b64_rrf_Ok_inv. rewrite <- !list_fmap_compose.
  apply Forall_fmap_ext_1, Forall_forall. intros item Hin. simpl.
  rewrite b64_sorted_desc_perm in Hin. by eapply b64_dumps_loads_key.
Qed.

Lemma b64_rrf_NoDup results k out :
  Binary64.reciprocal_rank_fusion dumps loads results k = Ok out →
  NoDup (dumps <$> out.*1).
Proof using loads_dumps.
  intros Hout. rewrite (b64_rrf_keys _ _ _ Hout), b64_sorted_desc_perm.
  apply b64_final_scores_NoDup.
Qed.

Lemma b64_rrf_has_score results k out d :
  Binary64.reciprocal_rank_fusion dumps loads results k = Ok out →
  d ∈ mjoin results → ∃ s, (d, s) ∈ out.
Proof using loads_dumps.
  intros [_ ->]%b64_rrf_Ok_inv Hd.
  assert (dumps d ∈ (Binary64.final_scores dumps k results).*1) as Hkey.
  { rewrite b64_final_scores_keys. apply elem_of_first_seen. right.
    apply elem_of_all_keys. by exists d. }
  apply list_elem_of_fmap in Hkey as ([key v] & Hkey & Hin).
  simpl in Hkey. subst key. exists v.
  apply list_elem_of_fmap. exists (dumps d, v). simpl.
  split; [by rewrite loads_dumps|]. by rewrite b64_sorted_desc_perm.
Qed.

Lemma b64_rrf_elem_of_input results k out d s :
  Binary64.reciprocal_rank_fusion dumps loads results k = Ok out →
  (d, s) ∈ out → d ∈ mjoin results.
Proof using loads_dumps.
  intros Hout Hin. apply (b64_rrf_elem_of_inv _ _ _ _ _ Hout) in Hin.
  apply b64_final_scores_key_inv in Hin as (d' & Hd' & Heq). simpl in Heq.
  by rewrite (dumps_inj _ _ loads_dumps _ _ Heq).
Qed.

Lemma b64_rrf_elem_of results k out d :
  Binary64.reciprocal_rank_fusion dumps loads results k = Ok out →
  d ∈ out.*1 ↔ d ∈ mjoin results.
Proof using loads_dumps.
  intros Hout. split.
  - intros ([d' s] & -> & Hin)%list_elem_of_fmap. by eapply b64_rrf_elem_of_input.
  - intros Hd. destruct (b64_rrf_has_score _ _ _ _ Hout Hd) as [s Hs].
    apply list_elem_of_fmap. by exists (d, s).
Qed.

Lemma b64_rrf_score results k out d s :
  Binary64.reciprocal_rank_fusion dumps loads results k = Ok out →
  (d, s) ∈ out →
  s = foldl Binary64.add Binary64.zero
        (Binary64.fused_terms dumps k (dumps d) results).
Proof using loads_dumps.
  intros Hout Hin. eapply b64_final_scores_sum, b64_rrf_elem_of_inv; eauto.
Qed.

Lemma elem_of_event_terms k key evs t :
  t ∈ Binary64.event_terms k key evs
  ↔ ∃ ev, ev ∈ evs ∧ ev.2 = key ∧ t = Binary64.quotient (ev.1 + k).
Proof.
  induction evs as [|ev evs IH]; simpl.
  - split; [by intros ?%elem_of_nil|]. by intros (ev & ?%elem_of_nil & _).
  - rewrite elem_of_app, IH. split.
    + intros [Ht|(ev' & Hin & Hkey & ->)].
      * destruct (decide (ev.2 = key)) as [Hkey|]; [|by apply elem_of_nil in Ht].
        apply list_elem_of_singleton in Ht as ->. exists ev. split; [left|done].
      * exists ev'. split; [by right|done].
    + intros (ev' & [->|Hin]%elem_of_cons & Hkey & ->).
      * left. rewrite decide_True by done. left.
      * right. by exists ev'.
Qed.

(** For [k > 0] a score is [0.0] or greater, and greater when one of its
    denominators is at most [2 ^ 1074]. *)
Lemma b64_rrf_nonneg results k out d s :
  0 < k →
  Binary64.reciprocal_rank_fusion dumps loads results k = Ok out →
  (d, s) ∈ out →
  Binary64.nonneg s
  ∧ ((∃ docs i d', docs ∈ results ∧ docs !! i = Some d'
                   ∧ dumps d' = dumps d ∧ Z.of_nat i + k ≤ 2 ^ 1074) →
     Binary64.positive s).
Proof using loads_dumps.
  intros Hk Hout Hin. rewrite (b64_rrf_score _ _ _ _ _ Hout Hin).
  rewrite <- event_terms_events.
  destruct (foldl_add_nonneg Binary64.zero
              (Binary64.event_terms k (dumps d) (events dumps results)))
    as [Hnn Hpos]; [by left| |].
  - apply Forall_forall.
    intros t (ev & (docs & i & d' & _ & _ & ->)%elem_of_events & _ & ->)%elem_of_event_terms.
    apply quotient_nonneg. simpl. lia.
  - split; [done|]. intros (docs & i & d' & Hdocs & Hi & Hkey & Hle).
    apply Hpos. right. apply Exists_exists.
    exists (Binary64.quotient (Z.of_nat i + k)). split.
    + apply elem_of_event_terms. exists (Z.of_nat i, dumps d'). split; [|done].
      apply elem_of_events. by exists docs, i, d'.
    + apply quotient_nonneg; [lia|done].
Qed.

(** Entries of the output, by place, come from entries of the sorted dict. *)
Lemma b64_rrf_before results k out i j p q :
  Binary64.reciprocal_rank_fusion dumps loads results k = Ok out →
  (i < j)%nat → out !! i = Some p → out !! j = Some q →
  ∃ a b, before a b (Binary64.sorted_desc (Binary64.final_scores dumps k results))
         ∧ p = (loads a.1, a.2) ∧ q = (loads b.1, b.2)
         ∧ dumps p.1 = a.1 ∧ dumps q.1 = b.1.
Proof using loads_dumps.
  intros [_ ->]%b64_rrf_Ok_inv Hij Hi Hj.
  apply list_lookup_fmap_Some in Hi as (a & -> & Hi).
  apply list_lookup_fmap_Some in Hj as (b & -> & Hj).
  exists a, b. pose proof (before_lookup _ _ _ _ _ Hij Hi Hj) as Hb.
  destruct (before_elem_of _ _ _ Hb) as [Ha Hb'].
  rewrite b64_sorted_desc_perm in Ha, Hb'.
  split_and!; [done..| |]; simpl; by eapply b64_dumps_loads_key.
Qed.

(** Of two entries of the output, the later one has no larger a score, and
    when neither score is larger the earlier one was met first. *)
Lemma b64_rrf_ranked results k out i j p q :
  Binary64.reciprocal_rank_fusion dumps loads results k = Ok out →
  (i < j)%nat → out !! i = Some p → out !! j = Some q →
  p.2 ≠ S754_nan ∧ q.2 ≠ S754_nan
  ∧ Binary64.le q.2 p.2
  ∧ (Binary64.le p.2 q.2 →
     (first_index (dumps p.1) (all_keys dumps results)
      < first_index (dumps q.1) (all_keys dumps results))%nat).
Proof using loads_dumps.
  intros Hout Hij Hi Hj.
  destruct (b64_rrf_Ok_inv _ _ _ Hout) as [Hs _].
  pose proof (b64_final_scores_not_nan k results Hs) as Hnan.
  destruct (b64_rrf_before _ _ _ _ _ _ _ Hout Hij Hi Hj)
    as (a & b & Hb & -> & -> & -> & ->). simpl.
  destruct (before_elem_of _ _ _ Hb) as [Ha Hb'].
  rewrite b64_sorted_desc_perm in Ha, Hb'.
  rewrite Forall_forall in Hnan.
  split; [by apply Hnan|]. split; [by apply Hnan|].
  apply b64_sorted_desc_before in Hb as [Hn|(Hab & Hba & Hb)];
    [|split; [done|]|by apply Forall_forall].
  - split; [destruct (le_total a.2 b.2); done|done].
  - intros _. apply (before_fmap fst) in Hb. rewrite b64_final_scores_keys in Hb.
    by apply first_seen_before_nil.
Qed.

End Binary64_fusion.

(** ** Binary64: what a rounding returns

    [SFdiv] and [SFadd] cut the exact result down to the exponent of the
    format and round the significand to the nearest integer.  The lemmas
    follow the value through [shr_fexp] and [round_nearest_even]. *)

Lemma bpow_pos e : (0 < bpow e)%Q.
Proof. apply Qpower_0_lt. done. Qed.

Lemma bpow_plus a b : (bpow (a + b) == bpow a * bpow b)%Q.
Proof. apply Qpower_plus. done. Qed.

Lemma bpow_succ e : (bpow (e + 1) == 2 * bpow e)%Q.
Proof. rewrite bpow_plus. change (bpow 1) with (2%Q). ring. Qed.

Lemma bpow_opp_l e : (bpow (- e) * bpow e == 1)%Q.
Proof. rewrite <- bpow_plus. replace (- e + e) with 0 by lia. reflexivity. Qed.

Lemma bpow_le a b : a ≤ b → (bpow a <= bpow b)%Q.
Proof. intros H. apply Qpower_le_compat_l; [done|]. done. Qed.

Lemma bpow_Z n : 0 ≤ n → (bpow n == inject_Z (2 ^ n))%Q.
Proof. intros H. unfold bpow. by rewrite Zpower_Qpower. Qed.

Lemma inject_Z_xO p : (inject_Z (Z.pos p~0) == 2 * inject_Z (Z.pos p))%Q.
Proof. rewrite (Pos2Z.inj_xO p), inject_Z_mult. reflexivity. Qed.

Lemma inject_Z_xI p : (inject_Z (Z.pos p~1) == 2 * inject_Z (Z.pos p) + 1)%Q.
Proof. rewrite (Pos2Z.inj_xI p), inject_Z_plus, inject_Z_mult. reflexivity. Qed.

Lemma inbetween_proper x y m l : (x == y)%Q → inbetween x m l → inbetween y m l.
Proof. intros E. destruct l as [|[]]; simpl; rewrite E; done. Qed.

Lemma shr_1_inbetween mrs x :
  0 ≤ shr_m mrs →
  inbetween x (shr_m mrs) (loc_of_shr_record mrs) →
  inbetween (x * (1#2)) (shr_m (shr_1 mrs)) (loc_of_shr_record (shr_1 mrs)).
Proof.
  intros Hm. destruct mrs as [m r s]. cbn [shr_m] in Hm.
  destruct m as [|[p|p|]|p]; [| | | |lia];
    try pose proof (inject_Z_xO p) as E0; try pose proof (inject_Z_xI p) as E1;
    destruct r, s; cbn [shr_1 shr_m shr_r shr_s loc_of_shr_record inbetween orb];
    change (inject_Z 0) with 0%Q; change (inject_Z 1) with 1%Q; lra.
Qed.

Lemma bpow_opp_1 : (bpow (- 1) == 1 # 2)%Q.
Proof. reflexivity. Qed.

Lemma iter_pos_shr_1_inbetween p mrs x :
  0 ≤ shr_m mrs →
  inbetween x (shr_m mrs) (loc_of_shr_record mrs) →
  inbetween (x * bpow (- Z.pos p))
    (shr_m (SpecFloat.iter_pos shr_1 p mrs))
    (loc_of_shr_record (SpecFloat.iter_pos shr_1 p mrs)).
Proof.
  revert mrs x. induction p as [p IH|p IH|]; intros mrs x Hm Hx;
    cbn [SpecFloat.iter_pos].
  - pose proof (shr_1_nonneg mrs Hm) as H1.
    pose proof (iter_pos_shr_1_nonneg p _ H1) as H2.
    eapply inbetween_proper;
      [|apply IH, IH, shr_1_inbetween; [done|done|done|exact Hx]].
    replace (- Z.pos p~1) with (- 1 + (- Z.pos p + - Z.pos p)) by lia.
    rewrite !bpow_plus, bpow_opp_1. ring.
  - pose proof (iter_pos_shr_1_nonneg p _ Hm) as H2.
    eapply inbetween_proper; [|apply IH, IH; [done|done|exact Hx]].
    replace (- Z.pos p~0) with (- Z.pos p + - Z.pos p) by lia.
    rewrite !bpow_plus. ring.
  - eapply inbetween_proper; [|by apply shr_1_inbetween].
    change (bpow (- Z.pos 1)) with (1 # 2)%Q. reflexivity.
Qed.

Lemma shr_record_of_loc_m m l : shr_m (shr_record_of_loc m l) = m.
Proof. by destruct l as [|[]]. Qed.

Lemma loc_of_shr_record_of_loc m l :
  loc_of_shr_record (shr_record_of_loc m l) = l.
Proof. by destruct l as [|[]]. Qed.

(** What [shr_fexp] returns: the exponent of the format, the significand
    cut down to it, and the place of the value between two significands. *)
Lemma shr_fexp_spec m e l v :
  0 ≤ m → inbetween (v * bpow (- e)) m l →
  ∃ mrs e1,
    shr_fexp Binary64.prec Binary64.emax m e l = (mrs, e1)
    ∧ e1 = Z.max e (fexp Binary64.prec Binary64.emax (Zdigits2 m + e))
    ∧ shr_m mrs = m / 2 ^ (e1 - e)
    ∧ inbetween (v * bpow (- e1)) (shr_m mrs) (loc_of_shr_record mrs).
Proof.
  intros Hm Hx. unfold shr_fexp, shr.
  set (f := fexp Binary64.prec Binary64.emax (Zdigits2 m + e)).
  destruct (f - e) as [|p|p] eqn:Hn.
  - eexists _, _. split; [done|]. split; [lia|].
    rewrite shr_record_of_loc_m, loc_of_shr_record_of_loc.
    replace (e - e) with 0 by lia. rewrite Z.div_1_r. done.
  - eexists _, _. split; [done|]. split; [lia|].
    split.
    { rewrite iter_pos_shr_1_div by (rewrite shr_record_of_loc_m; done).
      rewrite shr_record_of_loc_m. f_equal; f_equal; lia. }
    eapply inbetween_proper;
      [|apply iter_pos_shr_1_inbetween;
        [by rewrite shr_record_of_loc_m
        |rewrite shr_record_of_loc_m, loc_of_shr_record_of_loc; exact Hx]].
    replace (- (e + Z.pos p)) with (- e + - Z.pos p) by lia.
    rewrite bpow_plus. ring.
  - eexists _, _. split; [done|]. split; [lia|].
    rewrite shr_record_of_loc_m, loc_of_shr_record_of_loc.
    replace (e - e) with 0 by lia. rewrite Z.div_1_r. done.
Qed.

Lemma inject_Z_succ m : (inject_Z (m + 1) == inject_Z m + 1)%Q.
Proof. rewrite inject_Z_plus. reflexivity. Qed.

Lemma round_nearest_even_spec x m l :
  inbetween x m l →
  nearest_even x (round_nearest_even m l)
  ∧ m ≤ round_nearest_even m l ≤ m + 1
  ∧ (inject_Z m <= x ∧ x < inject_Z m + 1)%Q.
Proof.
  pose proof (inject_Z_succ m) as E. unfold nearest_even.
  destruct l as [|[]]; simpl; intros Hx.
  - split; [split; [lra|]|split; [lia|lra]]. intros [H|H]; lra.
  - destruct (Z.even m) eqn:Hev.
    + split; [split; [lra|]|split; [lia|lra]]. done.
    + split; [split; [lra|]|split; [lia|lra]]. intros _.
      rewrite Z.even_add, Hev. done.
  - split; [split; [lra|]|split; [lia|lra]]. intros [H|H]; lra.
  - split; [split; [lra|]|split; [lia|lra]]. intros [H|H]; lra.
Qed.

Lemma nearest_even_mono x x' z z' :
  (x <= x')%Q → nearest_even x z → nearest_even x' z' → z ≤ z'.
Proof.
  intros Hxx [[H1 H2] H3] [[H1' H2'] H3'].
  destruct (decide (z ≤ z')) as [|Hn]; [done|exfalso].
  assert (inject_Z (z' + 1) <= inject_Z z)%Q as Hle
    by (rewrite <- Zle_Qle; lia).
  rewrite inject_Z_succ in Hle.
  assert (x == inject_Z z - (1#2))%Q as E by lra.
  assert (x' == inject_Z z' + (1#2))%Q as E' by lra.
  assert (z = z' + 1) as ->
    by (apply inject_Z_injective; rewrite inject_Z_succ; lra).
  specialize (H3 (or_introl E)). specialize (H3' (or_intror E')).
  rewrite Z.even_add, H3' in H3. done.
Qed.

(** *** The number of bits of a significand *)

Lemma Zdigits2_bounds m :
  0 < m → 2 ^ (Zdigits2 m - 1) ≤ m < 2 ^ Zdigits2 m.
Proof.
  destruct m as [|p|p]; [lia| |lia]. intros _. simpl.
  split; [apply digits2_pos_lower|apply digits2_pos_upper].
Qed.

Lemma Zdigits2_pos m : 0 < m → 0 < Zdigits2 m.
Proof. destruct m; simpl; lia. Qed.

Lemma Zdigits2_unique m d :
  0 < m → 2 ^ (d - 1) ≤ m < 2 ^ d → Zdigits2 m = d.
Proof.
  intros Hm [H1 H2]. pose proof (Zdigits2_bounds m Hm) as [H3 H4].
  pose proof (Zdigits2_pos m Hm) as HD.
  destruct (Z.lt_trichotomy (Zdigits2 m) d) as [Hlt|[->|Hgt]]; [|done|].
  - assert (2 ^ Zdigits2 m ≤ 2 ^ (d - 1)) by (apply Z.pow_le_mono_r; lia).
    lia.
  - destruct (decide (d < 0)) as [Hd|Hd].
    { rewrite Z.pow_neg_r in H2 by done. lia. }
    assert (2 ^ d ≤ 2 ^ (Zdigits2 m - 1)) by (apply Z.pow_le_mono_r; lia).
    lia.
Qed.

Lemma Zdigits2_le_pow m d : 0 ≤ d → 0 < m → m < 2 ^ d → Zdigits2 m ≤ d.
Proof.
  intros Hd Hm H. pose proof (Zdigits2_bounds m Hm) as [H3 H4].
  destruct (decide (Zdigits2 m ≤ d)) as [|Hn]; [done|exfalso].
  assert (2 ^ d ≤ 2 ^ (Zdigits2 m - 1)) by (apply Z.pow_le_mono_r; lia).
  lia.
Qed.

Lemma Zdigits2_div_pow m n :
  0 < m → 0 ≤ n < Zdigits2 m → Zdigits2 (m / 2 ^ n) = Zdigits2 m - n.
Proof.
  intros Hm Hn. pose proof (Zdigits2_bounds m Hm) as [H3 H4].
  assert (0 < 2 ^ n) as Hp by (apply Z.pow_pos_nonneg; lia).
  assert (2 ^ (Zdigits2 m - 1) = 2 ^ (Zdigits2 m - n - 1) * 2 ^ n) as E1
    by (rewrite <- Z.pow_add_r by lia; f_equal; lia).
  assert (2 ^ Zdigits2 m = 2 ^ (Zdigits2 m - n) * 2 ^ n) as E2
    by (rewrite <- Z.pow_add_r by lia; f_equal; lia).
  assert (0 < 2 ^ (Zdigits2 m - n - 1)) as Hq
    by (apply Z.pow_pos_nonneg; lia).
  assert (2 ^ (Zdigits2 m - n - 1) ≤ m / 2 ^ n) as Hlow
    by (apply Z.div_le_lower_bound; lia).
  apply Zdigits2_unique; [lia|]. split; [done|].
  apply Z.div_lt_upper_bound; lia.
Qed.

Lemma canonical_bounds m e :
  0 ≤ m → canonical m e →
  emin Binary64.prec Binary64.emax ≤ e ∧ m < 2 ^ 53
  ∧ (e = emin Binary64.prec Binary64.emax ∨ 2 ^ 52 ≤ m).
Proof.
  unfold canonical, fexp, emin, Binary64.prec, Binary64.emax. intros Hm Hc.
  destruct (decide (m = 0)) as [->|Hm0]; [simpl in *; lia|].
  pose proof (Zdigits2_bounds m ltac:(lia)) as [H1 H2].
  split; [lia|]. split.
  - assert (2 ^ Zdigits2 m ≤ 2 ^ 53) by (apply Z.pow_le_mono_r; lia). lia.
  - destruct (decide (e = 3 - 1024 - 53)) as [|He]; [by left|right].
    replace (Zdigits2 m) with 53 in H1 by lia. done.
Qed.

(** The first shift of [binary_round_aux] leaves a significand that fits
    the format. *)
Lemma shr_fexp_canonical m e mrs e1 :
  0 ≤ m → e ≤ fexp Binary64.prec Binary64.emax (Zdigits2 m + e) →
  e1 = Z.max e (fexp Binary64.prec Binary64.emax (Zdigits2 m + e)) →
  shr_m mrs = m / 2 ^ (e1 - e) →
  canonical (shr_m mrs) e1 ∧ 0 ≤ shr_m mrs.
Proof.
  intros Hm Hwf He1 Hmrs. rewrite Hmrs.
  assert (0 < 2 ^ (e1 - e)) as Hp by (apply Z.pow_pos_nonneg; lia).
  split; [|apply Z.div_pos; lia].
  unfold canonical. revert Hwf He1.
  unfold fexp, emin, Binary64.prec, Binary64.emax. intros Hwf He1.
  destruct (decide (m = 0)) as [->|Hm0].
  { rewrite Z.div_0_l by lia. simpl in *. lia. }
  pose proof (Zdigits2_bounds m ltac:(lia)) as [H1 H2].
  destruct (decide (e1 - e < Zdigits2 m)) as [Hlt|Hge].
  - rewrite Zdigits2_div_pow by lia. lia.
  - assert (2 ^ Zdigits2 m ≤ 2 ^ (e1 - e)) by (apply Z.pow_le_mono_r; lia).
    rewrite Z.div_small by lia. simpl. lia.
Qed.

Lemma round_result_eq mrs e1 e2 m2 :
  0 ≤ m2 ≤ 2 ^ 53 → emin Binary64.prec Binary64.emax ≤ e1 →
  (e1 = emin Binary64.prec Binary64.emax ∨ 2 ^ 52 ≤ m2) →
  shr_fexp Binary64.prec Binary64.emax m2 e1 loc_Exact = (mrs, e2) →
  match shr_m mrs with
  | 0 => S754_zero false
  | Z.pos m =>
      if e2 <=? Binary64.emax - Binary64.prec then S754_finite false m e2
      else S754_infinity false
  | Z.neg _ => S754_nan
  end = round_result e1 m2.
Proof.
  intros Hm2 He1 Hn Hshr.
  destruct (shr_fexp_spec m2 e1 loc_Exact (inject_Z m2 * bpow e1))
    as (mrs' & e2' & Hshr' & He2 & Hm & _); [lia| |].
  { simpl. rewrite <- Qmult_assoc, (Qmult_comm (bpow e1)), bpow_opp_l. ring. }
  rewrite Hshr in Hshr'. injection Hshr' as <- <-.
  revert He1 Hn He2. unfold round_result, pack, fexp, emin.
  unfold Binary64.prec, Binary64.emax. intros He1 Hn He2.
  destruct (Z.eqb_spec m2 0) as [->|Hm0].
  { rewrite Hm, Z.div_0_l; [done|]. apply Z.pow_nonzero; simpl in *; lia. }
  destruct (Z.eqb_spec m2 (2 ^ 53)) as [->|Hm53].
  - assert (Zdigits2 (2 ^ 53) = 54) as HD by done.
    rewrite HD in He2. replace e2 with (e1 + 1) in * by lia.
    rewrite Hm. replace (e1 + 1 - e1) with 1 by lia. done.
  - assert (Zdigits2 m2 ≤ 53) as HD by (apply Zdigits2_le_pow; lia).
    replace e2 with e1 in * by lia. rewrite Hm.
    replace (e1 - e1) with 0 by lia. rewrite Z.div_1_r.
    destruct m2 as [|p|p]; [done| |lia]. done.
Qed.

(** [binary_round_aux] on a positive value [v] that lies at [lx] between
    [mx] and [mx + 1] at the exponent [ex]: the float of the significand
    nearest to [v] at the exponent of the format. *)
Lemma binary_round_aux_spec v mx ex lx :
  0 ≤ mx → ex ≤ fexp Binary64.prec Binary64.emax (Zdigits2 mx + ex) →
  inbetween (v * bpow (- ex)) mx lx →
  ∃ e1 m1 m2,
    binary_round_aux Binary64.prec Binary64.emax false mx ex lx
      = round_result e1 m2
    ∧ rounded v e1 m1 m2.
Proof.
  intros Hmx Hwf Hx.
  destruct (shr_fexp_spec mx ex lx v Hmx Hx)
    as (mrs & e1 & Hshr & He1 & Hm & Hin).
  destruct (shr_fexp_canonical mx ex mrs e1 Hmx Hwf He1 Hm) as [Hc Hm1].
  destruct (round_nearest_even_spec _ _ _ Hin) as (Hne & Hm2 & Hfl).
  destruct (canonical_bounds _ _ Hm1 Hc) as (Hemin & Hlt & Hnorm).
  exists e1, (shr_m mrs),
    (round_nearest_even (shr_m mrs) (loc_of_shr_record mrs)).
  split; [|done].
  unfold binary_round_aux. rewrite Hshr.
  destruct (shr_fexp _ _ (round_nearest_even _ _) e1 loc_Exact)
    as [mrs2 e2] eqn:Hshr2.
  eapply round_result_eq; [| | |exact Hshr2]; [lia|done|].
  destruct Hnorm as [|Hnorm]; [by left|right; lia].
Qed.

(** ** Binary64: rounding keeps the order *)

Lemma rounded_ok v e1 m1 m2 : rounded v e1 m1 m2 → round_ok e1 m2.
Proof.
  intros (Hc & Hm1 & _ & _ & Hm2).
  destruct (canonical_bounds _ _ Hm1 Hc) as (Hemin & Hlt & Hnorm).
  split; [lia|]. split; [done|]. destruct Hnorm; [by left|right; lia].
Qed.

Lemma round_result_mono e m e' m' :
  round_ok e m → round_ok e' m' → e < e' ∨ (e = e' ∧ m ≤ m') →
  Binary64.le (round_result e m) (round_result e' m').
Proof.
  unfold round_ok, round_result, pack, emin, Binary64.prec, Binary64.emax.
  change (2 ^ 53) with 9007199254740992.
  change (2 ^ 52) with 4503599627370496.
  intros (Hm & He & Hn) (Hm' & He' & Hn') Hle.
  unfold Binary64.le, Binary64.key_le.
  destruct (Z.eqb_spec m 0), (Z.eqb_spec m' 0),
    (Z.eqb_spec m 9007199254740992), (Z.eqb_spec m' 9007199254740992),
    (Z.leb_spec e (1024 - 53)), (Z.leb_spec e' (1024 - 53)),
    (Z.leb_spec (e + 1) (1024 - 53)), (Z.leb_spec (e' + 1) (1024 - 53));
    cbn [Binary64.order_key fst snd]; rewrite ?Z2Pos.id by lia; lia.
Qed.

Lemma round_result_regular e m : round_ok e m → regular (round_result e m).
Proof.
  unfold round_ok, round_result, pack. intros (Hm & He & Hn).
  destruct (Z.eqb_spec m 0); [done|].
  destruct (Z.eqb_spec m (2 ^ 53)) as [->|Hm53].
  - destruct (Z.leb_spec (e + 1) (Binary64.emax - Binary64.prec));
      [|done].
    split; [done|]. split; [|done]. revert He. unfold canonical.
    change (Zdigits2 (Z.pos (Z.to_pos (2 ^ 52)))) with 53.
    unfold fexp, emin, Binary64.prec, Binary64.emax. lia.
  - destruct (Z.leb_spec e (Binary64.emax - Binary64.prec)); [|done].
    split; [done|]. split; [|done]. rewrite Z2Pos.id by lia.
    assert (Zdigits2 m ≤ 53) as HD by (apply Zdigits2_le_pow; lia).
    assert (2 ^ 52 ≤ m → Zdigits2 m = 53) as HD'
      by (intros ?; apply Zdigits2_unique; [lia|]; simpl; lia).
    pose proof (Zdigits2_pos m ltac:(lia)).
    revert He Hn. unfold canonical, fexp, emin, Binary64.prec, Binary64.emax.
    lia.
Qed.

Lemma bpow_split e : ∀ x : Q, (x == x * bpow (- e) * bpow e)%Q.
Proof.
  intros x. rewrite <- Qmult_assoc, bpow_opp_l. ring.
Qed.

(** The nearer to zero of two values is rounded to the lower exponent, or
    to the same exponent and a significand that is not greater. *)
Lemma rounded_mono v v' e1 m1 m2 e1' m1' m2' :
  (v <= v')%Q → rounded v e1 m1 m2 → rounded v' e1' m1' m2' →
  e1 < e1' ∨ (e1 = e1' ∧ m2 ≤ m2').
Proof.
  intros Hv (Hc & Hm1 & [Hlo Hhi] & Hne & Hm2)
    (Hc' & Hm1' & [Hlo' Hhi'] & Hne' & Hm2').
  destruct (canonical_bounds _ _ Hm1 Hc) as (Hemin & Hlt & Hnorm).
  destruct (canonical_bounds _ _ Hm1' Hc') as (Hemin' & Hlt' & Hnorm').
  destruct (Z.lt_trichotomy e1 e1') as [|[<-|Hgt]]; [by left| |exfalso].
  - right. split; [done|]. eapply nearest_even_mono; [|exact Hne|exact Hne'].
    apply Qmult_le_compat_r; [done|]. apply Qlt_le_weak, bpow_pos.
  - destruct Hnorm as [|Hnorm]; [lia|].
    assert (inject_Z (2 ^ 52) <= v * bpow (- e1))%Q as H52
      by (eapply Qle_trans; [|exact Hlo]; rewrite <- Zle_Qle; done).
    assert (v' * bpow (- e1') < inject_Z (2 ^ 53))%Q as H53.
    { eapply Qlt_le_trans; [exact Hhi'|].
      rewrite <- inject_Z_succ, <- Zle_Qle. lia. }
    pose proof (bpow_pos e1) as Hp. pose proof (bpow_pos e1') as Hp'.
    pose proof (bpow_le (e1' + 1) e1 ltac:(lia)) as Hb.
    rewrite bpow_succ in Hb.
    assert (inject_Z (2 ^ 52) * bpow e1 <= v)%Q as Hv1.
    { rewrite (bpow_split e1 v) at 1. apply Qmult_le_compat_r; [done|].
      by apply Qlt_le_weak. }
    assert (v' < inject_Z (2 ^ 53) * bpow e1')%Q as Hv2.
    { rewrite (bpow_split e1' v') at 1. by apply Qmult_lt_compat_r. }
    assert (inject_Z (2 ^ 53) * bpow e1' <= inject_Z (2 ^ 52) * bpow e1)%Q.
    { change (inject_Z (2 ^ 53)) with (inject_Z (2 ^ 52 * 2)).
      rewrite inject_Z_mult, <- Qmult_assoc.
      apply Qmult_le_l; [done|]. done. }
    lra.
Qed.

Lemma round_mono v v' e1 m1 m2 e1' m1' m2' :
  (v <= v')%Q → rounded v e1 m1 m2 → rounded v' e1' m1' m2' →
  Binary64.le (round_result e1 m2) (round_result e1' m2').
Proof.
  intros Hv H H'. apply round_result_mono; [by eapply rounded_ok..|].
  by eapply rounded_mono.
Qed.

(** ** Binary64: [1 / n] falls as [n] grows *)

Lemma new_location_inbetween p q r N :
  N = Z.pos p * q + r → 0 ≤ r < Z.pos p →
  inbetween (N # p) q (new_location (Z.pos p) r).
Proof.
  intros -> Hr. unfold new_location, new_location_even, new_location_odd.
  destruct (Z.even (Z.pos p)) eqn:Hev; destruct (Z.eqb_spec r 0) as [->|Hr0].
  - cbn [inbetween]. unfold Qeq. simpl. lia.
  - destruct (Z.compare_spec (2 * r) (Z.pos p)); cbn [inbetween];
      unfold Qlt, Qeq; simpl; rewrite ?Pos2Z.inj_mul; nia.
  - cbn [inbetween]. unfold Qeq. simpl. lia.
  - assert (Z.pos p ≠ 2 * r) as Hodd
      by (intros E; rewrite E, Z.even_mul in Hev; done).
    destruct (Z.compare_spec (2 * r + 1) (Z.pos p)); cbn [inbetween];
      unfold Qlt, Qeq; simpl; rewrite ?Pos2Z.inj_mul; nia.
Qed.

(** [1 / n] is the float nearest to the rational [1 / n]. *)
Lemma quotient_rounds p :
  ∃ e1 m1 m2,
    Binary64.quotient (Z.pos p) = round_result e1 m2
    ∧ rounded (1 # p) e1 m1 m2.
Proof.
  unfold Binary64.quotient, Binary64.of_int, SFdiv, SFdiv_core_binary.
  simpl Zdigits2. simpl xorb.
  set (d2 := Z.pos (digits2_pos p)).
  set (e' := Z.min _ _).
  assert (e' = Z.min (Z.max (1 - d2 - 53) (-1074)) 0) as He'.
  { unfold e', fexp, emin, Binary64.prec, Binary64.emax. lia. }
  assert (0 < d2) as Hd2 by (unfold d2; lia).
  replace (0 - 0 - e') with (- e') by lia.
  destruct (- e') as [|s|s] eqn:Hs; [lia| |lia].
  rewrite Z.shiftl_1_l.
  pose proof (Z_div_mod (2 ^ Z.pos s) (Z.pos p) ltac:(lia)) as Hdiv.
  assert (Z.pos s = d2 + 52 → 2 ^ 52 ≤ 2 ^ Z.pos s / Z.pos p) as Hq52.
  { intros ->. apply Z.div_le_lower_bound; [lia|].
    pose proof (digits2_pos_upper p) as Hup. fold d2 in Hup.
    rewrite Z.pow_add_r by lia. nia. }
  pose proof (Z.div_pos (2 ^ Z.pos s) (Z.pos p)
                ltac:(apply Z.pow_nonneg; lia) ltac:(lia)) as Hq.
  unfold Z.div in Hq, Hq52.
  destruct (Z.div_eucl (2 ^ Z.pos s) (Z.pos p)) as [q r].
  simpl in Hq, Hq52. destruct Hdiv as [Hdiv Hr].
  apply binary_round_aux_spec; [done| |].
  - destruct (decide (e' = -1074)) as [E|E].
    + rewrite E. unfold fexp, emin, Binary64.prec, Binary64.emax. lia.
    + specialize (Hq52 ltac:(lia)).
      pose proof (Zdigits2_bounds q ltac:(lia)) as [_ Hup].
      assert (52 < Zdigits2 q)
        by (apply (Z.pow_lt_mono_r_iff 2); [lia| |lia];
            pose proof (Zdigits2_pos q ltac:(lia)); lia).
      unfold fexp, emin, Binary64.prec, Binary64.emax. lia.
  - eapply inbetween_proper;
      [|exact (new_location_inbetween p q r _ Hdiv Hr)].
    rewrite Hs, bpow_Z by lia. unfold Qeq. simpl. lia.
Qed.

Lemma quotient_regular n : 0 < n → regular (Binary64.quotient n).
Proof.
  intros Hn. destruct n as [|p|p]; [lia| |lia].
  destruct (quotient_rounds p) as (e1 & m1 & m2 & -> & Hr).
  by eapply round_result_regular, rounded_ok.
Qed.

(** The greater the denominator, the smaller the float of [1 / n]. *)
Lemma quotient_antitone n n' :
  0 < n → n ≤ n' → Binary64.le (Binary64.quotient n') (Binary64.quotient n).
Proof.
  intros Hn Hle. destruct n as [|p|p]; [lia| |lia].
  destruct n' as [|p'|p']; [lia| |lia].
  destruct (quotient_rounds p) as (e1 & m1 & m2 & -> & Hr).
  destruct (quotient_rounds p') as (e1' & m1' & m2' & -> & Hr').
  eapply round_mono; [|exact Hr'|exact Hr].
  unfold Qle. simpl. lia.
Qed.

(** ** Binary64: [+] is monotone *)

Lemma rounded_proper v v' e1 m1 m2 :
  (v == v')%Q → rounded v e1 m1 m2 → rounded v' e1 m1 m2.
Proof.
  intros E (Hc & Hm1 & Hfl & [Hne1 Hne2] & Hm2).
  unfold rounded, nearest_even. by rewrite <- E.
Qed.

Lemma rounded_exact m e :
  0 ≤ m → canonical m e → rounded (inject_Z m * bpow e) e m m.
Proof.
  intros Hm Hc.
  assert (inject_Z m * bpow e * bpow (- e) == inject_Z m)%Q as E.
  { rewrite <- Qmult_assoc, (Qmult_comm (bpow e)), bpow_opp_l. ring. }
  split; [done|]. split; [done|]. unfold nearest_even. rewrite E.
  split; [lra|]. split; [|lia]. split; [lra|]. intros [H|H]; lra.
Qed.

(** A float of the format is the rounding of its own value. *)
Lemma regular_rounded x :
  regular x → x ≠ S754_infinity false →
  ∃ e1 m1 m2, x = round_result e1 m2 ∧ rounded (Binary64.to_Q x) e1 m1 m2.
Proof.
  destruct x as [s|s| |s m e]; simpl; [intros -> _|by intros ->|done|].
  - exists (emin Binary64.prec Binary64.emax), 0, 0. split; [done|].
    eapply rounded_proper; [|apply (rounded_exact 0); done].
    change (inject_Z 0) with 0%Q. ring.
  - intros (-> & Hc & He) _. exists e, (Z.pos m), (Z.pos m).
    destruct (canonical_bounds (Z.pos m) e ltac:(lia) Hc)
      as (Hemin & Hlt & Hnorm).
    split.
    + unfold round_result, pack.
      destruct (Z.eqb_spec (Z.pos m) 0); [lia|].
      destruct (Z.eqb_spec (Z.pos m) (2 ^ 53)); [lia|].
      destruct (Z.leb_spec e (Binary64.emax - Binary64.prec)); [done|lia].
    + eapply rounded_proper; [|apply (rounded_exact (Z.pos m)); [lia|done]].
      fold (bpow e). ring.
Qed.

Lemma iter_xO_value m d : Z.pos (Pos.iter xO m d) = Z.pos m * 2 ^ Z.pos d.
Proof.
  induction d as [|d IH] using Pos.peano_ind.
  - simpl. lia.
  - rewrite Pos.iter_succ, Pos2Z.inj_xO, IH, Pos2Z.inj_succ.
    rewrite Z.pow_succ_r by lia. lia.
Qed.

Lemma iter_xO_digits m d :
  Z.pos (digits2_pos (Pos.iter xO m d)) = Z.pos (digits2_pos m) + Z.pos d.
Proof.
  induction d as [|d IH] using Pos.peano_ind.
  - simpl. lia.
  - rewrite Pos.iter_succ. cbn [digits2_pos].
    rewrite Pos2Z.inj_succ, IH, Pos2Z.inj_succ. lia.
Qed.

Lemma shl_align_spec m e e' :
  let r := shl_align m e e' in
  (inject_Z (Z.pos r.1) * bpow r.2 == inject_Z (Z.pos m) * bpow e)%Q
  ∧ r.2 = Z.min e e'
  ∧ Z.pos (digits2_pos r.1) + r.2 = Z.pos (digits2_pos m) + e.
Proof.
  unfold shl_align. destruct (e' - e) as [|d|d] eqn:Hd; cbn [fst snd].
  - split; [reflexivity|lia].
  - split; [reflexivity|lia].
  - rewrite iter_xO_value, iter_xO_digits. split; [|lia].
    rewrite inject_Z_mult, <- bpow_Z by lia.
    rewrite <- Qmult_assoc, <- bpow_plus.
    replace (Z.pos d + e') with e by lia. reflexivity.
Qed.

(** The sum of two positive floats is the float nearest to the sum of their
    values. *)
Lemma add_finite_rounds mx ex my ey :
  ∃ e1 m1 m2,
    Binary64.add (S754_finite false mx ex) (S754_finite false my ey)
      = round_result e1 m2
    ∧ rounded (Binary64.to_Q (S754_finite false mx ex)
               + Binary64.to_Q (S754_finite false my ey)) e1 m1 m2.
Proof.
  unfold Binary64.add, SFadd, Binary64.to_Q. fold (bpow ex) (bpow ey).
  set (ez := Z.min ex ey).
  destruct (shl_align_spec mx ex ez) as (Vx & Ex & _).
  destruct (shl_align_spec my ey ez) as (Vy & Ey & _).
  replace (shl_align mx ex ez).2 with ez in Vx by lia.
  replace (shl_align my ey ez).2 with ez in Vy by lia.
  unfold cond_Zopp.
  change (Z.pos (shl_align mx ex ez).1 + Z.pos (shl_align my ey ez).1)
    with (Z.pos ((shl_align mx ex ez).1 + (shl_align my ey ez).1)).
  set (m := ((shl_align mx ex ez).1 + (shl_align my ey ez).1)%positive).
  unfold binary_normalize, binary_round.
  set (f := fexp Binary64.prec Binary64.emax (Z.pos (digits2_pos m) + ez)).
  destruct (shl_align_spec m ez f) as (Vz & Ez & Dz).
  destruct (shl_align m ez f) as [mz ez'] eqn:Hal. cbn [fst snd] in *.
  apply binary_round_aux_spec; [lia| |].
  - cbn [Zdigits2]. rewrite Dz. fold f. lia.
  - cbn [inbetween].
    assert (inject_Z (Z.pos m)
            == inject_Z (Z.pos (shl_align mx ex ez).1)
               + inject_Z (Z.pos (shl_align my ey ez).1))%Q as Em
      by (unfold m; rewrite Pos2Z.inj_add, inject_Z_plus; reflexivity).
    match goal with
    | |- (?V * _ == _)%Q =>
        assert (V == inject_Z (Z.pos mz) * bpow ez')%Q as EV
          by (rewrite Vz, Em, <- Vx, <- Vy; ring)
    end.
    rewrite EV, <- Qmult_assoc, (Qmult_comm (bpow ez')), bpow_opp_l. ring.
Qed.

Lemma regular_le_infinity x : regular x → Binary64.le x (S754_infinity false).
Proof.
  unfold Binary64.le, Binary64.key_le.
  destruct x as [s|s| |s m e]; simpl; [lia|intros ->; simpl; lia|done|].
  intros (-> & _). simpl. lia.
Qed.

Lemma le_not_infinity x x' :
  regular x → Binary64.le x x' → x' ≠ S754_infinity false → regular x' →
  x ≠ S754_infinity false.
Proof.
  unfold Binary64.le, Binary64.key_le. intros Hx Hle Hx' Hr ->.
  destruct x' as [s|[]| |[] m e]; simpl in *; try done; lia.
Qed.

(** Among the floats of the format the order of [<=] is the order of the
    values. *)
Lemma to_Q_mono x y :
  regular x → regular y →
  x ≠ S754_infinity false → y ≠ S754_infinity false →
  Binary64.le x y → (Binary64.to_Q x <= Binary64.to_Q y)%Q.
Proof.
  unfold Binary64.le, Binary64.key_le.
  destruct x as [sx|sx| |sx mx ex], y as [sy|sy| |sy my ey]; simpl;
    try done; try (by intros -> ->); try (by intros ? ->);
    try (by intros -> ?).
  - intros _ (-> & Hc & He) _ _ _. fold (bpow ey).
    pose proof (bpow_pos ey).
    assert (0 < inject_Z (Z.pos my))%Q by (rewrite <- (Zlt_Qlt 0); lia).
    rewrite Qmult_1_l. apply Qlt_le_weak, Qmult_lt_0_compat; done.
  - intros (-> & _) _ _ _. simpl. lia.
  - intros (-> & Hc & He) (-> & Hc' & He') _ _. simpl.
    fold (bpow ex) (bpow ey). rewrite !Qmult_1_l.
    destruct (canonical_bounds (Z.pos mx) ex ltac:(lia) Hc)
      as (Hemin & Hlt & Hnorm).
    destruct (canonical_bounds (Z.pos my) ey ltac:(lia) Hc')
      as (Hemin' & Hlt' & Hnorm').
    pose proof (bpow_pos ex) as Hp. pose proof (bpow_pos ey) as Hp'.
    intros [?|[_ [Hlte|[-> Hm]]]]; [lia| |].
    + destruct Hnorm' as [|Hnorm']; [lia|].
      pose proof (bpow_le (ex + 1) ey ltac:(lia)) as Hb.
      rewrite bpow_succ in Hb.
      assert (inject_Z (Z.pos mx) <= inject_Z (2 ^ 53))%Q as H53
        by (rewrite <- Zle_Qle; lia).
      assert (inject_Z (2 ^ 52) <= inject_Z (Z.pos my))%Q as H52
        by (rewrite <- Zle_Qle; lia).
      change (inject_Z (2 ^ 53)) with (inject_Z (2 ^ 52 * 2)) in H53.
      rewrite inject_Z_mult in H53.
      assert (0 < inject_Z (2 ^ 52))%Q as Hc52 by done.
      eapply Qle_trans;
        [apply Qmult_le_compat_r; [exact H53|by apply Qlt_le_weak]|].
      eapply Qle_trans;
        [|apply Qmult_le_compat_r; [exact H52|by apply Qlt_le_weak]].
      rewrite <- Qmult_assoc. apply Qmult_le_l; [done|]. done.
    + apply Qmult_le_compat_r; [|by apply Qlt_le_weak].
      rewrite <- Zle_Qle. done.
Qed.

(** The sum of two floats of the format that are not infinite is the float
    nearest to the sum of their values. *)
Lemma add_rounds x y :
  regular x → regular y →
  x ≠ S754_infinity false → y ≠ S754_infinity false →
  ∃ e1 m1 m2,
    Binary64.add x y = round_result e1 m2
    ∧ rounded (Binary64.to_Q x + Binary64.to_Q y) e1 m1 m2.
Proof.
  intros Hx Hy Hxi Hyi.
  destruct x as [sx|sx| |sx mx ex] eqn:Ex; [|by simpl in Hx; subst|done|].
  - simpl in Hx. subst sx.
    destruct (regular_rounded y Hy Hyi) as (e1 & m1 & m2 & E & Hr).
    exists e1, m1, m2. split.
    + rewrite <- E. by destruct y as [[]|[]| |[] my ey].
    + eapply rounded_proper; [|exact Hr]. simpl. ring.
  - destruct y as [sy|sy| |sy my ey] eqn:Ey; [|by simpl in Hy; subst|done|].
    + simpl in Hy. subst sy. rewrite <- Ex in Hx, Hxi.
      destruct (regular_rounded x Hx Hxi) as (e1 & m1 & m2 & E & Hr).
      exists e1, m1, m2. rewrite <- Ex. split.
      * rewrite <- E. by rewrite Ex.
      * eapply rounded_proper; [|exact Hr]. simpl. ring.
    + destruct Hx as (-> & _), Hy as (-> & _). apply add_finite_rounds.
Qed.

Lemma infinity_dec x : x = S754_infinity false ∨ x ≠ S754_infinity false.
Proof. destruct x as [?|[]| |? ? ?]; (by left) || (by right). Qed.

Lemma add_regular x y : regular x → regular y → regular (Binary64.add x y).
Proof.
  intros Hx Hy.
  destruct (infinity_dec x) as [->|Hxi].
  { by destruct y as [[]|[]| |[] my ey]. }
  destruct (infinity_dec y) as [->|Hyi].
  { by destruct x as [[]|[]| |[] mx ex]. }
  destruct (add_rounds x y Hx Hy Hxi Hyi) as (e1 & m1 & m2 & -> & Hr).
  by eapply round_result_regular, rounded_ok.
Qed.

(** [+] on the floats of the format is monotone in both operands. *)
Lemma add_mono x x' y y' :
  regular x → regular x' → regular y → regular y' →
  Binary64.le x x' → Binary64.le y y' →
  Binary64.le (Binary64.add x y) (Binary64.add x' y').
Proof.
  intros Hx Hx' Hy Hy' Hlx Hly.
  pose proof (add_regular x y Hx Hy) as Hr.
  destruct (infinity_dec x') as [->|Hxi'].
  { replace (Binary64.add (S754_infinity false) y')
      with (S754_infinity false) by (by destruct y' as [[]|[]| |[] my ey]).
    by apply regular_le_infinity. }
  destruct (infinity_dec y') as [->|Hyi'].
  { replace (Binary64.add x' (S754_infinity false))
      with (S754_infinity false) by (by destruct x' as [[]|[]| |[] mx ex]).
    by apply regular_le_infinity. }
  pose proof (le_not_infinity x x' Hx Hlx Hxi' Hx') as Hxi.
  pose proof (le_not_infinity y y' Hy Hly Hyi' Hy') as Hyi.
  destruct (add_rounds x y Hx Hy Hxi Hyi) as (e1 & m1 & m2 & -> & H1).
  destruct (add_rounds x' y' Hx' Hy' Hxi' Hyi') as (e1' & m1' & m2' & -> & H2).
  eapply round_mono; [|exact H1|exact H2].
  apply Qplus_le_compat; by apply to_Q_mono.
Qed.

Lemma add_zero_l x : regular x → Binary64.add Binary64.zero x = x.
Proof. by destruct x as [[]|[]| |[] m e]. Qed.

Lemma foldl_add_regular acc terms :
  regular acc → Forall regular terms →
  regular (foldl Binary64.add acc terms).
Proof.
  intros Hacc Hterms. revert acc Hacc.
  induction Hterms as [|t terms Ht Hterms IH]; intros acc Hacc; [done|].
  simpl. by apply IH, add_regular.
Qed.

(** The more every copy adds, the greater the sum of the copies. *)
Lemma foldl_add_replicate_mono N acc acc' t t' :
  regular acc → regular acc' → regular t → regular t' →
  Binary64.le acc acc' → Binary64.le t t' →
  Binary64.le (foldl Binary64.add acc (replicate N t))
              (foldl Binary64.add acc' (replicate N t')).
Proof.
  intros Hacc Hacc' Ht Ht' Hle Hlt. revert acc acc' Hacc Hacc' Hle.
  induction N as [|N IH]; intros acc acc' Hacc Hacc' Hle; [done|].
  simpl. apply IH; [by apply add_regular..|]. by apply add_mono.
Qed.

(** ** Binary64: copies of a list without repeated documents *)

Lemma regular_not_nan x : regular x → x ≠ S754_nan.
Proof. by destruct x. Qed.

Lemma join_replicate_singleton {A} N (t : A) :
  mjoin (replicate N [t]) = replicate N t.
Proof. induction N as [|N IH]; csimpl; [done|]. by rewrite IH. Qed.

(** A list whose scores never rise is left as it is by the sort. *)
Lemma b64_sorted_desc_id l :
  (∀ i j a b, (i < j)%nat → l !! i = Some a → l !! j = Some b →
     Binary64.ltb a.2 b.2 = false) →
  Binary64.sorted_desc l = l.
Proof.
  induction l as [|x l IH]; intros H; [done|].
  simpl. rewrite IH
    by (intros i j a b Hij Hi Hj; apply (H (S i) (S j)); [lia|done..]).
  destruct l as [|y l']; [done|]. simpl.
  rewrite (H 0%nat 1%nat x y); [done|lia|done|done].
Qed.

Lemma first_seen_NoDup acc keys :
  NoDup (acc ++ keys) → first_seen acc keys = acc ++ keys.
Proof.
  revert acc. induction keys as [|key keys IH]; intros acc Hnd.
  - by rewrite app_nil_r.
  - change (first_seen acc (key :: keys))
      with (first_seen (if decide (key ∈ acc) then acc else acc ++ [key]) keys).
    rewrite cons_middle, app_assoc in Hnd.
    rewrite decide_False.
    + rewrite IH by done. by rewrite <- app_assoc.
    + intros Hin. apply NoDup_app in Hnd as [Hnd _].
      apply NoDup_app in Hnd as (_ & Hdisj & _). apply (Hdisj key Hin). left.
Qed.

Section Binary64_order.

Context {Document : Type} (dumps : Document → string) (loads : string → Document).
Hypothesis loads_dumps : ∀ d, loads (dumps d) = d.

Lemma list_terms_absent k rank key docs :
  key ∉ dumps <$> docs → Binary64.list_terms dumps k rank key docs = [].
Proof.
  revert rank. induction docs as [|doc docs IH]; intros rank Hnin; [done|].
  apply not_elem_of_cons in Hnin as [Hne Hnin]. simpl.
  rewrite decide_False by done. by apply IH.
Qed.

(** In a list without repeated documents a document has one term. *)
Lemma list_terms_once k rank docs i d :
  NoDup (dumps <$> docs) → docs !! i = Some d →
  Binary64.list_terms dumps k rank (dumps d) docs
  = [Binary64.quotient (rank + Z.of_nat i + k)].
Proof.
  revert rank i. induction docs as [|d0 docs IH]; intros rank i Hnd Hi; [done|].
  rewrite fmap_cons in Hnd. apply NoDup_cons in Hnd as [Hnin Hnd].
  destruct i as [|i]; simpl in Hi.
  - injection Hi as ->. simpl. rewrite decide_True by done.
    rewrite list_terms_absent by done. simpl.
    by replace (rank + Z.of_nat 0 + k) with (rank + k) by lia.
  - simpl. rewrite decide_False.
    + rewrite (IH (rank + 1) i) by done.
      by replace (rank + 1 + Z.of_nat i + k)
        with (rank + Z.of_nat (S i) + k) by lia.
    + intros E. apply Hnin. rewrite E. apply list_elem_of_fmap. exists d.
      split; [done|]. by eapply list_elem_of_lookup_2.
Qed.

Lemma b64_final_scores_replicate_keys k docs N :
  (1 ≤ N)%nat → NoDup (dumps <$> docs) →
  (Binary64.final_scores dumps k (replicate N docs)).*1 = dumps <$> docs.
Proof using Type.
  intros HN Hnd. rewrite b64_final_scores_keys.
  destruct N as [|N]; [lia|]. unfold all_keys. csimpl.
  rewrite first_seen_app, first_seen_absorb.
  - by apply (first_seen_NoDup []).
  - intros x (keys & Hx & Hkeys)%list_elem_of_join.
    apply list_elem_of_fmap in Hkeys as (docs' & -> & ->%elem_of_replicate_inv).
    apply elem_of_first_seen. by right.
Qed.

(** The entry of the dict at the place [i] of a list without repeated
    documents, fused [N] times over. *)
Lemma b64_final_scores_replicate_lookup k docs N i a :
  (1 ≤ N)%nat → NoDup (dumps <$> docs) →
  Binary64.final_scores dumps k (replicate N docs) !! i = Some a →
  ∃ d, docs !! i = Some d ∧ a.1 = dumps d
       ∧ a.2 = foldl Binary64.add Binary64.zero
                 (replicate N (Binary64.quotient (Z.of_nat i + k))).
Proof using Type.
  intros HN Hnd Hi.
  assert ((dumps <$> docs) !! i = Some a.1) as Hkey.
  { rewrite <- (b64_final_scores_replicate_keys k docs N) by done.
    apply list_lookup_fmap_Some. by exists a. }
  apply list_lookup_fmap_Some in Hkey as (d & Hkey & Hd).
  exists d. split; [done|]. split; [done|].
  rewrite (b64_final_scores_sum dumps k (replicate N docs) a.1 a.2)
    by (destruct a; by eapply list_elem_of_lookup_2).
  unfold Binary64.fused_terms. rewrite fmap_replicate, Hkey.
  rewrite (list_terms_once k 0 docs i d) by done.
  rewrite join_replicate_singleton.
  by replace (0 + Z.of_nat i + k) with (Z.of_nat i + k) by lia.
Qed.

(** For [k > 0], fusing copies of a list without repeated documents gives
    its documents in their order. *)
Lemma b64_rrf_replicate_order docs N k out :
  0 < k → (1 ≤ N)%nat → NoDup (dumps <$> docs) →
  Binary64.reciprocal_rank_fusion dumps loads (replicate N docs) k = Ok out →
  out.*1 = docs.
Proof using loads_dumps.
  intros Hk HN Hnd [_ ->]%b64_rrf_Ok_inv.
  rewrite b64_sorted_desc_id.
  - transitivity
      (loads <$> (Binary64.final_scores dumps k (replicate N docs)).*1).
    { by rewrite <- !list_fmap_compose. }
    rewrite b64_final_scores_replicate_keys, <- list_fmap_compose by done.
    rewrite <- (list_fmap_id docs) at 2.
    apply list_fmap_ext. intros i d _. apply loads_dumps.
  - intros i j a b Hij Hi Hj.
    apply b64_final_scores_replicate_lookup in Hi as (da & _ & _ & Ha);
      [|done..].
    apply b64_final_scores_replicate_lookup in Hj as (db & _ & _ & Hb);
      [|done..].
    assert (∀ n, regular (Binary64.quotient (Z.of_nat n + k))) as Hq
      by (intros n; apply quotient_regular; lia).
    assert (∀ n, regular (foldl Binary64.add Binary64.zero
                            (replicate N (Binary64.quotient (Z.of_nat n + k)))))
      as Hs by (intros n; apply foldl_add_regular;
                [done|apply Forall_replicate, Hq]).
    assert (Binary64.le b.2 a.2) as Hle.
    { rewrite Ha, Hb. apply foldl_add_replicate_mono; try done.
      - unfold Binary64.le, Binary64.key_le. simpl. lia.
      - apply quotient_antitone; lia. }
    destruct (Binary64.ltb a.2 b.2) eqn:Hlt; [|done].
    apply ltb_not_le in Hlt; [done|rewrite ?Ha, ?Hb; apply regular_not_nan, Hs..].
Qed.

End Binary64_order.

(** * The properties of the specification *)

Section Claims.

Context {Document : Type} (dumps : Document → string) (loads : string → Document).
Hypothesis loads_dumps : ∀ d, loads (dumps d) = d.


(** C2.  Whenever the fusion engine returns, and it does for every
    [k > 0], its output holds every distinct document of the input exactly
    once (no serialisation key twice, and a document is in the output iff it
    is in one of the lists), the fused scores, which are the floats the
    program compares, do not increase along the output, and of two documents
    with equal scores the one that was met first, going through the lists in
    order, comes first. *)
Theorem rrf_output_is_ranked_permutation results k :
  (0 < k → ∃ out, Binary64.reciprocal_rank_fusion dumps loads results k = Ok out)
  ∧ ∀ out, Binary64.reciprocal_rank_fusion dumps loads results k = Ok out →
      NoDup (dumps <$> out.*1)
      ∧ (∀ d, d ∈ out.*1 ↔ d ∈ mjoin results)
      ∧ (∀ i j p q, (i < j)%nat → out !! i = Some p → out !! j = Some q →
           Binary64.leb q.2 p.2 = true)
      ∧ (∀ i j p q, (i < j)%nat → out !! i = Some p → out !! j = Some q →
           Binary64.eqb p.2 q.2 = true →
           (first_index (dumps p.1) (all_keys dumps results)
            < first_index (dumps q.1) (all_keys dumps results))%nat).
Proof using loads_dumps.
  split; [apply b64_rrf_returns_positive|].
  intros out Hout. split_and!.
  - by eapply b64_rrf_NoDup.
  - intros d. by eapply b64_rrf_elem_of.
  - intros i j p q Hij Hi Hj.
    destruct (b64_rrf_ranked _ _ loads_dumps _ _ _ _ _ _ _ Hout Hij Hi Hj)
      as (Hp & Hq & Hle & _).
    by apply leb_le.
  - intros i j p q Hij Hi Hj Htie.
    destruct (b64_rrf_ranked _ _ loads_dumps _ _ _ _ _ _ _ Hout Hij Hi Hj)
      as (Hp & Hq & _ & Hfirst).
    apply eqb_le_le in Htie as [Hle _]; [|done..]. by apply Hfirst.
Qed.

(** C10 (amended).  For [k > 0] every denominator [rank + k] of the scoring
    loop is strictly positive, so every division succeeds and the engine
    returns.  Every contribution and every fused score of the output is a
    float that is not NaN and not less than [0.0].  A contribution is
    greater than [0.0] when its denominator is at most [2 ^ 1074], and a
    score is when the document stands at some place with such a
    denominator; beyond that a contribution can underflow to [0.0]. *)
Theorem rrf_positive_k_is_safe results k :
  0 < k →
  (∀ docs i d, docs ∈ results → docs !! i = Some d → 0 < Z.of_nat i + k)
  ∧ (∀ ev, ev ∈ events dumps results →
       0 < ev.1 + k
       ∧ Binary64.true_div_one (ev.1 + k) = Ok (Binary64.quotient (ev.1 + k))
       ∧ Binary64.leb Binary64.zero (Binary64.quotient (ev.1 + k)) = true
       ∧ (ev.1 + k ≤ 2 ^ 1074 →
          Binary64.ltb Binary64.zero (Binary64.quotient (ev.1 + k)) = true))
  ∧ ∃ out,
      Binary64.reciprocal_rank_fusion dumps loads results k = Ok out
      ∧ ∀ d s, (d, s) ∈ out →
          Binary64.leb Binary64.zero s = true
          ∧ ((∃ docs i d', docs ∈ results ∧ docs !! i = Some d'
                           ∧ dumps d' = dumps d ∧ Z.of_nat i + k ≤ 2 ^ 1074) →
             Binary64.ltb Binary64.zero s = true).
Proof using loads_dumps.
  intros Hk. split_and!.
  - intros docs i d _ _. lia.
  - intros ev (docs & i & d & _ & _ & ->)%elem_of_events. simpl.
    destruct (quotient_nonneg (Z.of_nat i + k) ltac:(lia)) as [Hnn Hpos].
    split_and!; [lia| |by apply nonneg_leb|].
    + unfold Binary64.true_div_one. by rewrite decide_False by lia.
    + intros Hle. by apply positive_ltb, Hpos.
  - destruct (b64_rrf_returns_positive dumps loads results k Hk) as [out Hout].
    exists out. split; [done|]. intros d s Hin.
    destruct (b64_rrf_nonneg _ _ loads_dumps _ _ _ _ _ Hk Hout Hin) as [Hnn Hpos].
    split; [by apply nonneg_leb|]. intros Hsmall. by apply positive_ltb, Hpos.
Qed.

(** C7 (amended).  Fusing [N ≥ 1] copies of one list raises exactly when
    fusing the list once raises.  Otherwise the copies give the same
    documents as the list, each once, and the fused score of a document is
    the sum of its terms [1 / (r + k)], one for every place [r] it has in
    the list, taken [N] times over and added one after the other, each
    addition rounded.  For [k > 0] and a list without repeated documents
    the ranking is the list itself, for one copy as for [N]: the relative
    order is the same. *)
Theorem rrf_repeated_list_sums_copies docs N k :
  (1 ≤ N)%nat →
  match Binary64.reciprocal_rank_fusion dumps loads [docs] k,
        Binary64.reciprocal_rank_fusion dumps loads (replicate N docs) k with
  | Ok out1, Ok outN =>
      NoDup (dumps <$> outN.*1)
      ∧ outN.*1 ≡ₚ out1.*1
      ∧ (∀ d s, (d, s) ∈ out1 →
           s = foldl Binary64.add Binary64.zero
                 (Binary64.list_terms dumps k 0 (dumps d) docs))
      ∧ (∀ d s, (d, s) ∈ outN →
           s = foldl Binary64.add Binary64.zero
                 (mjoin (replicate N (Binary64.list_terms dumps k 0 (dumps d) docs))))
      ∧ (0 < k → NoDup (dumps <$> docs) → out1.*1 = docs ∧ outN.*1 = docs)
  | Raise e1, Raise eN => e1 = eN
  | _, _ => False
  end.
Proof using loads_dumps.
  intros HN.
  destruct (Binary64.reciprocal_rank_fusion dumps loads [docs] k)
    as [out1|e1] eqn:H1;
    destruct (Binary64.reciprocal_rank_fusion dumps loads (replicate N docs) k)
      as [outN|eN] eqn:H2.
  - split_and!.
    + by eapply b64_rrf_NoDup.
    + apply NoDup_Permutation.
      * eapply (NoDup_fmap_1 dumps). by eapply b64_rrf_NoDup.
      * eapply (NoDup_fmap_1 dumps). by eapply b64_rrf_NoDup.
      * intros d. rewrite (b64_rrf_elem_of _ _ loads_dumps _ _ _ d H1).
        rewrite (b64_rrf_elem_of _ _ loads_dumps _ _ _ d H2).
        rewrite !list_elem_of_join. split.
        -- intros (docs' & Hd & ->%elem_of_replicate_inv). exists docs.
           split; [done|left].
        -- intros (docs' & Hd & ->%list_elem_of_singleton). exists docs.
           split; [done|]. destruct N; [lia|]. left.
    + intros d s Hin. rewrite (b64_rrf_score _ _ loads_dumps _ _ _ _ _ H1 Hin).
      unfold Binary64.fused_terms. csimpl. by rewrite app_nil_r.
    + intros d s Hin. rewrite (b64_rrf_score _ _ loads_dumps _ _ _ _ _ H2 Hin).
      unfold Binary64.fused_terms. by rewrite fmap_replicate.
    + intros Hk Hnd. split.
      * by apply (b64_rrf_replicate_order dumps loads loads_dumps docs 1 k).
      * by apply (b64_rrf_replicate_order dumps loads loads_dumps docs N k).
  - apply b64_rrf_Ok_inv in H1 as [Hs _].
    apply (safe_replicate dumps k docs N HN) in Hs.
    by rewrite b64_rrf_safe in H2.
  - apply b64_rrf_Ok_inv in H2 as [Hs _].
    apply (safe_replicate dumps k docs N HN) in Hs.
    by rewrite b64_rrf_safe in H1.
  - by destruct e1, eN.
Qed.

(** C4 (amended).  The engine does not check [k].  It raises, and then
    [ZeroDivisionError], exactly when [k ≤ 0] and some list has an item at
    the zero-based position [- k]; for every other input it returns. *)
Theorem rrf_raises_iff_zero_denominator results k :
  (reciprocal_rank_fusion dumps loads results k = Raise ZeroDivisionError
   ↔ k ≤ 0 ∧ ∃ docs, docs ∈ results ∧ - k < Z.of_nat (length docs))
  ∧ ((∀ docs, docs ∈ results → Z.of_nat (length docs) ≤ - k) →
     ∃ out, reciprocal_rank_fusion dumps loads results k = Ok out).
Proof.
  split; [split|].
  - intros Hraise.
    destruct (decide (safe k (events dumps results))) as [Hs|Hs].
    { by rewrite rrf_safe in Hraise. }
    apply not_Forall_Exists, Exists_exists in Hs; [|apply _].
    destruct Hs as (ev & (docs & i & d & Hdocs & Hi & ->)%elem_of_events & Hz).
    simpl in Hz. apply lookup_lt_Some in Hi.
    split; [lia|]. exists docs. split; [done|lia].
  - intros (Hk & docs & Hdocs & Hlt). apply rrf_unsafe.
    intros Hs. eapply safe_events in Hs; [|done]. lia.
  - intros Hshort. eexists. apply rrf_safe, safe_events.
    intros docs Hdocs%Hshort. lia.
Qed.


(** C6.  The output of the unique-union combiner is no longer than the
    input lists together, has as many entries as there are distinct keys in
    the input, and holds one document for each of them: no key twice, every
    input document present, each output document equal to the first input
    document with its key.  Its order carries nothing of the input order:
    inputs with the same keys in any arrangement give outputs that are
    permutations of each other. *)
Theorem get_unique_union_one_per_key documents :
  (length (get_unique_union dumps loads documents)
   ≤ sum_list (length <$> documents))%nat
  ∧ length (get_unique_union dumps loads documents)
    = length (remove_dups (all_keys dumps documents))
  ∧ NoDup (dumps <$> get_unique_union dumps loads documents)
  ∧ (∀ d, d ∈ get_unique_union dumps loads documents ↔ d ∈ mjoin documents)
  ∧ (∀ d, d ∈ get_unique_union dumps loads documents →
       ∃ i, list_find (λ d', dumps d' = dumps d) (mjoin documents) = Some (i, d))
  ∧ (∀ documents', all_keys dumps documents' ≡ₚ all_keys dumps documents →
       get_unique_union dumps loads documents'
       ≡ₚ get_unique_union dumps loads documents).
Proof using loads_dumps.
  assert (length (get_unique_union dumps loads documents)
          = length (remove_dups (all_keys dumps documents))) as Hlen.
  { rewrite <- (length_fmap dumps), (get_unique_union_keys _ _ loads_dumps).
    by rewrite unique_keys_perm. }
  split_and!.
  - rewrite Hlen, <- (length_all_keys dumps). apply length_remove_dups_le.
  - done.
  - rewrite (get_unique_union_keys _ _ loads_dumps). apply NoDup_elements.
  - intros d. by apply get_unique_union_elem_of.
  - intros d Hd%(get_unique_union_elem_of _ _ loads_dumps).
    destruct (list_find_elem_of (λ d', dumps d' = dumps d) _ d Hd eq_refl)
      as [[i d'] Hfind].
    exists i. rewrite Hfind. do 2 f_equal.
    apply list_find_Some in Hfind as (_ & Heq & _).
    by apply (dumps_inj dumps loads loads_dumps).
  - intros documents' Hperm. unfold get_unique_union.
    fold (all_keys dumps documents') (all_keys dumps documents).
    by rewrite Hperm.
Qed.

End Claims.



(** In exact arithmetic ["A"] and ["B"] tie at [1/61 + 1/62 + 1/67] and
    ["A"], met first, comes first; the floats of the program do not tie. *)
Example rrf_rounding_breaks_a_tie :
  ∃ out out',
    Binary64.reciprocal_rank_fusion id id
      [["P"; "A"; "B"]; ["P"; "B"; "Q"; "R"; "S"; "T"; "U"; "A"];
       ["P"; "Q"; "A"; "R"; "S"; "T"; "U"; "B"]]%string 60 = Ok out
    ∧ out.*1 = ["P"; "B"; "A"; "Q"; "R"; "S"; "T"; "U"]%string
    ∧ reciprocal_rank_fusion id id
        [["P"; "A"; "B"]; ["P"; "B"; "Q"; "R"; "S"; "T"; "U"; "A"];
         ["P"; "Q"; "A"; "R"; "S"; "T"; "U"; "B"]]%string 60 = Ok out'
    ∧ out'.*1 = ["P"; "A"; "B"; "Q"; "R"; "S"; "T"; "U"]%string.
Proof. do 2 eexists. split_and!; vm_compute; reflexivity. Qed.

(** Two documents with the same score [1/60]: the one met first is first. *)
Lemma rrf_output_is_ranked_permutation_witness :
  (first_index "A" (all_keys id [["A"]; ["B"]]%string)
   < first_index "B" (all_keys id [["A"]; ["B"]]%string))%nat
  ∧ NoDup (id <$> [("A"%string, S754_finite false 4803839602528529 (-58));
                   ("B"%string, S754_finite false 4803839602528529 (-58))].*1).
Proof.
  destruct (rrf_output_is_ranked_permutation (Document:=string) id id
              (λ d, eq_refl) [["A"]; ["B"]]%string 60) as [_ Hout].
  destruct (Hout [("A"%string, S754_finite false 4803839602528529 (-58));
                  ("B"%string, S754_finite false 4803839602528529 (-58))])
    as (Hnd & _ & _ & Htie).
  { vm_compute. reflexivity. }
  split; [|exact Hnd].
  apply (Htie 0%nat 1%nat ("A"%string, S754_finite false 4803839602528529 (-58))
           ("B"%string, S754_finite false 4803839602528529 (-58)));
    [lia|reflexivity|reflexivity|reflexivity].
Defined.

(** With [k = 1] every score of the run is greater than [0.0]. *)
Lemma rrf_positive_k_is_safe_witness :
  ∃ out,
    Binary64.reciprocal_rank_fusion id id [["A"; "B"]; ["B"]]%string 1 = Ok out
    ∧ ∀ d s, (d, s) ∈ out →
        Binary64.leb Binary64.zero s = true
        ∧ ((∃ docs i d', docs ∈ [["A"; "B"]; ["B"]]%string ∧ docs !! i = Some d'
                         ∧ id d' = id d ∧ Z.of_nat i + 1 ≤ 2 ^ 1074) →
           Binary64.ltb Binary64.zero s = true).
Proof.
  destruct (rrf_positive_k_is_safe (Document:=string) id id (λ d, eq_refl)
              [["A"; "B"]; ["B"]]%string 1 ltac:(lia)) as (_ & _ & Hout).
  exact Hout.
Defined.

(** C10 (as stated) fails: [1 / 10**400] is [0.0], so with [k = 10**400]
    the one document of [[["A"]]] gets the score [0.0], which is not
    greater than [0.0]. *)
Lemma rrf_score_underflows_to_zero :
  0 < 10 ^ 400
  ∧ Binary64.reciprocal_rank_fusion id id [["A"]]%string (10 ^ 400)
    = Ok [("A"%string, Binary64.zero)]
  ∧ Binary64.ltb Binary64.zero Binary64.zero = false.
Proof. split_and!; [lia|vm_compute; reflexivity|reflexivity]. Qed.

(** Three copies of a list of three documents. *)
Lemma rrf_repeated_list_sums_copies_witness :
  match Binary64.reciprocal_rank_fusion id id [["A"; "B"; "C"]]%string 60,
        Binary64.reciprocal_rank_fusion id id
          (replicate 3 ["A"; "B"; "C"]%string) 60 with
  | Ok out1, Ok outN =>
      NoDup (id <$> outN.*1)
      ∧ outN.*1 ≡ₚ out1.*1
      ∧ (∀ d s, (d, s) ∈ out1 →
           s = foldl Binary64.add Binary64.zero
                 (Binary64.list_terms id 60 0 (id d) ["A"; "B"; "C"]%string))
      ∧ (∀ d s, (d, s) ∈ outN →
           s = foldl Binary64.add Binary64.zero
                 (mjoin (replicate 3
                    (Binary64.list_terms id 60 0 (id d) ["A"; "B"; "C"]%string))))
      ∧ (0 < 60 → NoDup (id <$> ["A"; "B"; "C"]%string) →
         out1.*1 = ["A"; "B"; "C"]%string ∧ outN.*1 = ["A"; "B"; "C"]%string)
  | Raise e1, Raise eN => e1 = eN
  | _, _ => False
  end.
Proof.
  apply (rrf_repeated_list_sums_copies (Document:=string) id id (λ d, eq_refl)
           ["A"; "B"; "C"]%string 3 60).
  lia.
Defined.

(** C7 (as stated) fails twice.  Six copies of [[["A"]]] with [k = 60] give
    ["A"] the score [0.09999999999999999], which is not six times its score
    [1/60] from one copy, neither exactly nor as the float product [0.1].
    And with [k = 3] the list that holds ["A"] at place 0 and ["B"] at
    places 1 and 9 ranks ["A"] before ["B"], while seven copies of it rank
    ["B"] before ["A"]. *)
Lemma rrf_copies_do_not_scale :
  (∃ s1 s6,
     Binary64.reciprocal_rank_fusion id id [["A"]]%string 60
     = Ok [("A"%string, s1)]
     ∧ Binary64.reciprocal_rank_fusion id id (replicate 6 ["A"]%string) 60
       = Ok [("A"%string, s6)]
     ∧ ¬ (Binary64.to_Q s6 == 6 * Binary64.to_Q s1)%Q
     ∧ s6 ≠ SFmul Binary64.prec Binary64.emax (Binary64.of_int 6) s1)
  ∧ (∃ out1 out7,
       Binary64.reciprocal_rank_fusion id id
         [["A"; "B"; "c2"; "c3"; "c4"; "c5"; "c6"; "c7"; "c8"; "B"]]%string 3
       = Ok out1
       ∧ Binary64.reciprocal_rank_fusion id id
           (replicate 7
              ["A"; "B"; "c2"; "c3"; "c4"; "c5"; "c6"; "c7"; "c8"; "B"]%string) 3
         = Ok out7
       ∧ take 2 out1.*1 = ["A"; "B"]%string
       ∧ take 2 out7.*1 = ["B"; "A"]%string).
Proof.
  split.
  - do 2 eexists. split_and!; [vm_compute; reflexivity..| |]; by vm_compute.
  - do 2 eexists. split_and!; vm_compute; reflexivity.
Qed.

(** A list of two items: [k = -1] meets the denominator [1 - 1], [k = -2]
    meets none that is zero. *)
Lemma rrf_raises_iff_zero_denominator_witness :
  reciprocal_rank_fusion id id [["A"; "B"]]%string (-1) = Raise ZeroDivisionError
  ∧ ∃ out, reciprocal_rank_fusion id id [["A"; "B"]]%string (-2) = Ok out.
Proof.
  split.
  - apply (rrf_raises_iff_zero_denominator (Document:=string) id id
             [["A"; "B"]]%string (-1)).
    split; [lia|]. exists ["A"; "B"]%string. split; [left|simpl; lia].
  - apply (rrf_raises_iff_zero_denominator (Document:=string) id id
             [["A"; "B"]]%string (-2)).
    intros docs Hin. apply list_elem_of_singleton in Hin. rewrite Hin.
    simpl. lia.
Defined.

(** C4 (as stated) fails: with [k = -1] the engine scores the one document
    of [[["A"]]] with [1 / (0 - 1) = -1] and returns; with [k = 0] and no
    list it returns the empty ranking.  Nothing is raised. *)
Lemma rrf_accepts_nonpositive_k :
  -1 ≤ 0
  ∧ (∃ s, reciprocal_rank_fusion id id [["A"]]%string (-1) = Ok [("A"%string, s)]
          ∧ (s == -1)%Q)
  ∧ reciprocal_rank_fusion (Document:=string) id id [] 0 = Ok [].
Proof.
  split_and!; [lia| |reflexivity].
  eexists. split; [vm_compute; reflexivity|by vm_compute].
Qed.


(** The scenario of the specification: [[doc1; doc2]; [doc2; doc3]]. *)
Lemma get_unique_union_one_per_key_witness :
  length (get_unique_union id id [["doc1"; "doc2"]; ["doc2"; "doc3"]]%string) = 3%nat
  ∧ ∃ i, list_find (λ d', id d' = id "doc2"%string)
           (mjoin [["doc1"; "doc2"]; ["doc2"; "doc3"]]%string)
         = Some (i, "doc2"%string).
Proof.
  destruct (get_unique_union_one_per_key (Document:=string) id id (λ d, eq_refl)
              [["doc1"; "doc2"]; ["doc2"; "doc3"]]%string)
    as (_ & Hlen & _ & Hin & Hfirst & _).
  split.
  - rewrite Hlen. reflexivity.
  - apply Hfirst, Hin. vm_compute. right. left.
Defined.

(** C9 (as stated) fails: on the empty reply the parse yields no usable
    variant, and the chain returns the one empty variant instead of
    failing. *)
Lemma chain_generate_queries_empty_reply :
  chain_generate_queries EmptyString = Ok [EmptyString]
  ∧ (usable_variants [EmptyString] < 1)%nat.
Proof. split; [reflexivity|vm_compute; lia]. Qed.

(** C9 (amended).  The parse step of variant generation never fails and
    never returns an empty variant set: whatever text the collaborator
    returns, the result is the list of its pieces between blank lines, at
    least one string, which joined with blank lines give the text back.
    This holds also when no piece is usable: the empty text gives the
    single, empty variant. *)
Theorem chain_generate_queries_never_fails x :
  (∃ qs, chain_generate_queries x = Ok qs
         ∧ (1 ≤ length qs)%nat
         ∧ join_blank qs = x
         ∧ Forall (λ q, no_blank q = true) qs)
  ∧ chain_generate_queries EmptyString = Ok [EmptyString]
  ∧ usable_variants [EmptyString] = 0%nat.
Proof.
  split_and!; [|done..].
  exists (parse_queries x). split_and!; [done| | |].
  - pose proof (split_on_blank_nonempty x EmptyString) as Hne.
    unfold parse_queries. destruct (split_on_blank x EmptyString); [done|simpl; lia].
  - apply (join_split_on_blank x EmptyString).
  - apply split_on_blank_no_blank. by destruct x.
Qed.

(** * Further properties of the notebooks *)

(** ** Rankings of special inputs *)

Lemma inv_Z_le (a b : Z) :
  a ≤ b → 0 < a ∨ b < 0 → (/ inject_Z b <= / inject_Z a)%Q.
Proof.
  intros Hab Hsign.
  destruct a as [|a|a], b as [|b|b]; try lia; unfold Qle; simpl; lia.
Qed.

Lemma sorted_desc_id (l : list (string * Q)) :
  (∀ a b, before a b l → (b.2 <= a.2)%Q) → sorted_desc l = l.
Proof.
  induction l as [|x l IH]; intros Hdesc; [done|].
  simpl. rewrite IH by (intros a b ?; apply Hdesc; by constructor).
  destruct l as [|y l]; [done|]. simpl.
  assert (y.2 <= x.2)%Q as Hle by (apply Hdesc; constructor; left).
  apply Qle_bool_iff in Hle. by rewrite Hle.
Qed.

Lemma before_lookup_inv {A} (a b : A) l :
  before a b l → ∃ i j, (i < j)%nat ∧ l !! i = Some a ∧ l !! j = Some b.
Proof.
  induction 1 as [l Hb|c l _ (i & j & Hij & Hi & Hj)].
  - apply list_elem_of_lookup in Hb as [j Hj]. exists 0%nat, (S j).
    split_and!; [lia|done..].
  - exists (S i), (S j). split_and!; [lia|done..].
Qed.

Section Special.

Context {Document : Type} (dumps : Document → string) (loads : string → Document).
Hypothesis loads_dumps : ∀ d, loads (dumps d) = d.

Lemma all_keys_nil results :
  all_keys dumps results = [] ↔ ∀ docs, docs ∈ results → docs = [].
Proof.
  unfold all_keys. induction results as [|docs results IH]; csimpl.
  - split; [|done]. intros _ docs Hin. by apply elem_of_nil in Hin.
  - split.
    + intros [Hd Hr]%app_eq_nil docs' [->|Hin]%elem_of_cons.
      * by apply fmap_nil_inv in Hd.
      * by apply IH.
    + intros Hall. rewrite (Hall docs) by left. csimpl. apply IH.
      intros docs' Hin. apply Hall. by right.
Qed.

Lemma events_nil results :
  (∀ docs, docs ∈ results → docs = []) → events dumps results = [].
Proof.
  intros Hall. apply all_keys_nil in Hall. rewrite <- snd_events in Hall.
  by apply fmap_nil_inv in Hall.
Qed.

Lemma rrf_nil_inv results k :
  reciprocal_rank_fusion dumps loads results k = Ok [] →
  ∀ docs, docs ∈ results → docs = [].
Proof.
  intros [_ Hout]%rrf_Ok_inv. symmetry in Hout. apply fmap_nil_inv in Hout.
  apply all_keys_nil.
  assert (final_scores dumps k results = []) as Hfs.
  { apply Permutation_nil_r. by rewrite <- Hout, sorted_desc_perm. }
  pose proof (final_scores_keys dumps k results) as Hkeys.
  rewrite Hfs in Hkeys. destruct (all_keys dumps results) as [|key keys]; [done|].
  assert (key ∈ first_seen [] (key :: keys)) as Hin
    by (apply elem_of_first_seen; right; left).
  rewrite <- Hkeys in Hin. by apply elem_of_nil in Hin.
Qed.

Lemma position_lookup rank docs i d :
  NoDup (dumps <$> docs) → docs !! i = Some d →
  position dumps rank (dumps d) docs = Some (rank + Z.of_nat i).
Proof.
  revert rank i. induction docs as [|doc docs IH]; intros rank i Hnd Hi; [done|].
  csimpl in Hnd. apply NoDup_cons in Hnd as [Hnin Hnd]. simpl.
  destruct i as [|i]; simpl in Hi.
  - injection Hi as ->. rewrite decide_True by done. f_equal. lia.
  - rewrite decide_False.
    + rewrite (IH (rank + 1) i) by done. f_equal. lia.
    + intros Heq. apply Hnin. rewrite Heq. apply list_elem_of_fmap.
      exists d. split; [done|]. by eapply list_elem_of_lookup_2.
Qed.

(** The dict of one list of different documents: the documents in order,
    the [i]-th with the score [1 / (i + k)]. *)
Lemma final_scores_single docs k :
  NoDup (dumps <$> docs) →
  (final_scores dumps k [docs]).*1 = dumps <$> docs
  ∧ ∀ i e, final_scores dumps k [docs] !! i = Some e →
      (e.2 == / inject_Z (Z.of_nat i + k))%Q.
Proof.
  intros Hnd.
  assert ((final_scores dumps k [docs]).*1 = dumps <$> docs) as Hkeys.
  { rewrite final_scores_keys. unfold all_keys. csimpl. rewrite app_nil_r.
    by apply (first_seen_NoDup []). }
  split; [done|]. intros i [key v] Hi. simpl.
  assert ((dumps <$> docs) !! i = Some key) as Hkey.
  { rewrite <- Hkeys. apply list_lookup_fmap_Some. by exists (key, v). }
  apply list_lookup_fmap_Some in Hkey as (d & -> & Hd).
  rewrite (final_scores_sum dumps k [docs] (dumps d) v)
    by (by eapply list_elem_of_lookup_2).
  rewrite fused_sum_singleton.
  rewrite (list_contribution_once dumps k 0 (dumps d) docs (0 + Z.of_nat i))
    by (done || by apply position_lookup).
  by rewrite Z.add_0_l.
Qed.


Lemma rrf_NoDup results k out :
  reciprocal_rank_fusion dumps loads results k = Ok out → NoDup out.*1.
Proof using loads_dumps.
  intros Hout. apply (NoDup_fmap_1 dumps).
  rewrite (rrf_keys _ _ loads_dumps _ _ _ Hout), sorted_desc_perm.
  apply final_scores_NoDup.
Qed.

Lemma rrf_elem_of results k out d :
  reciprocal_rank_fusion dumps loads results k = Ok out →
  d ∈ out.*1 ↔ d ∈ mjoin results.
Proof using loads_dumps.
  intros Hout. split.
  - intros ([d' s] & -> & Hin)%list_elem_of_fmap. by eapply rrf_elem_of_input.
  - intros Hd. destruct (rrf_has_score _ _ loads_dumps _ _ _ _ Hout Hd) as [s Hs].
    apply list_elem_of_fmap. by exists (d, s).
Qed.

Lemma fused_terms_app k key results1 results2 :
  Binary64.fused_terms dumps k key (results1 ++ results2)
  = Binary64.fused_terms dumps k key results1
    ++ Binary64.fused_terms dumps k key results2.
Proof. unfold Binary64.fused_terms. by rewrite fmap_app, join_app. Qed.

Lemma fused_terms_absent k key results :
  key ∉ all_keys dumps results → Binary64.fused_terms dumps k key results = [].
Proof.
  unfold all_keys, Binary64.fused_terms.
  induction results as [|docs results IH]; csimpl; [done|].
  intros [Hd Hr]%not_elem_of_app. by rewrite list_terms_absent, IH.
Qed.

Lemma fused_terms_perm k key results results' :
  results ≡ₚ results' →
  Binary64.fused_terms dumps k key results
  ≡ₚ Binary64.fused_terms dumps k key results'.
Proof. intros Hperm. unfold Binary64.fused_terms. by rewrite Hperm. Qed.

(** One term [1 / k] for every list of at most one document that holds the
    key. *)
Lemma fused_terms_votes k key results :
  (∀ docs, docs ∈ results → (length docs ≤ 1)%nat) →
  Binary64.fused_terms dumps k key results
  = replicate (votes dumps key results) (Binary64.quotient k).
Proof.
  unfold votes, Binary64.fused_terms.
  induction results as [|docs results IH]; intros Hlen; [done|].
  csimpl. rewrite IH by (intros ? ?; apply Hlen; by right).
  specialize (Hlen docs ltac:(left)). rewrite filter_cons.
  destruct docs as [|d [|d' docs]]; [| |simpl in Hlen; lia].
  - by rewrite decide_False by (csimpl; apply not_elem_of_nil).
  - csimpl. rewrite Z.add_0_l. destruct (decide (dumps d = key)) as [<-|Hne].
    + by rewrite decide_True by left.
    + by rewrite decide_False by (by intros ->%list_elem_of_singleton).
Qed.

Lemma b64_score_of_sum results k out d :
  Binary64.reciprocal_rank_fusion dumps loads results k = Ok out →
  score_of dumps d out
  = foldl Binary64.add Binary64.zero
      (Binary64.fused_terms dumps k (dumps d) results).
Proof using loads_dumps.
  intros Hout. unfold score_of.
  destruct (list_find _ out) as [[i [d' s]]|] eqn:Hfind.
  - apply list_find_Some in Hfind as (Hi & Hkey & _). simpl in *.
    rewrite <- Hkey. eapply b64_rrf_score; [done..|].
    by eapply list_elem_of_lookup_2.
  - rewrite fused_terms_absent; [done|].
    intros (d' & Hd' & Hkey)%elem_of_all_keys.
    apply (dumps_inj _ _ loads_dumps) in Hkey as <-.
    destruct (b64_rrf_has_score _ _ loads_dumps _ _ _ _ Hout Hd') as [s Hs].
    apply list_find_None in Hfind. rewrite Forall_forall in Hfind.
    by apply (Hfind _ Hs).
Qed.


(** Rounding bears on the scores and, through them, on the order; it bears
    neither on whether the engine raises nor on which documents it ranks. *)
Lemma b64_rrf_raises_alike results k e :
  Binary64.reciprocal_rank_fusion dumps loads results k = Raise e
  ↔ reciprocal_rank_fusion dumps loads results k = Raise e.
Proof.
  destruct (decide (safe k (events dumps results))) as [Hs|Hs].
  - rewrite b64_rrf_safe, rrf_safe by done. split; intros [=].
  - rewrite b64_rrf_unsafe, rrf_unsafe by done. split; by intros [= <-].
Qed.

Lemma b64_rrf_same_documents results k out out' :
  reciprocal_rank_fusion dumps loads results k = Ok out →
  Binary64.reciprocal_rank_fusion dumps loads results k = Ok out' →
  out'.*1 ≡ₚ out.*1.
Proof using loads_dumps.
  intros Hout Hout'. apply NoDup_Permutation.
  - eapply (NoDup_fmap_1 dumps). by eapply b64_rrf_NoDup.
  - by eapply rrf_NoDup.
  - intros d. rewrite (b64_rrf_elem_of _ _ loads_dumps _ _ _ d Hout').
    by rewrite (rrf_elem_of _ _ _ d Hout).
Qed.

(** X1.  The ranking is empty exactly when every list of the input is
    empty (no list at all included), whatever [k] is: an input without
    documents never raises, not even for [k ≤ 0]. *)
Theorem rrf_empty_iff results k :
  reciprocal_rank_fusion dumps loads results k = Ok []
  ↔ ∀ docs, docs ∈ results → docs = [].
Proof.
  split; [apply rrf_nil_inv|].
  intros Hall. rewrite rrf_safe.
  - unfold final_scores. by rewrite (events_nil _ Hall).
  - rewrite (events_nil _ Hall). constructor.
Qed.


(** X4.  Scores accumulate over batches of lists: when fusing each of two
    collections of lists returns, fusing them together returns, and the
    score of every document is its score from the first collection ([0.0]
    when that ranking does not hold it) with its terms from the second
    collection added to it one after the other, each addition rounded. *)
Theorem rrf_app_scores_add results1 results2 k out1 out2 :
  Binary64.reciprocal_rank_fusion dumps loads results1 k = Ok out1 →
  Binary64.reciprocal_rank_fusion dumps loads results2 k = Ok out2 →
  ∃ out,
    Binary64.reciprocal_rank_fusion dumps loads (results1 ++ results2) k = Ok out
    ∧ ∀ d s, (d, s) ∈ out →
        s = foldl Binary64.add (score_of dumps d out1)
              (Binary64.fused_terms dumps k (dumps d) results2).
Proof using loads_dumps.
  intros Hout1 Hout2.
  destruct (b64_rrf_Ok_inv _ _ _ _ _ Hout1) as [Hs1 _].
  destruct (b64_rrf_Ok_inv _ _ _ _ _ Hout2) as [Hs2 _].
  assert (safe k (events dumps (results1 ++ results2))) as Hs.
  { apply safe_events. intros docs [Hin|Hin]%elem_of_app.
    - by apply (proj1 (safe_events dumps k results1) Hs1).
    - by apply (proj1 (safe_events dumps k results2) Hs2). }
  pose proof (b64_rrf_safe dumps loads _ _ Hs) as Hout.
  eexists. split; [exact Hout|]. intros d s Hin.
  rewrite (b64_rrf_score _ _ loads_dumps _ _ _ _ _ Hout Hin).
  by rewrite fused_terms_app, foldl_app, (b64_score_of_sum _ _ _ d Hout1).
Qed.


(** X6.  When every list holds at most one document, as the lists of a
    retriever with [k=1] results do, the fused score of a document is
    [1 / k] added to [0.0] once for every list that holds it, each addition
    rounded; the call returns for every [k] but [0]. *)
Theorem rrf_counts_votes results k :
  (∀ docs, docs ∈ results → (length docs ≤ 1)%nat) →
  (k ≠ 0 → ∃ out, Binary64.reciprocal_rank_fusion dumps loads results k = Ok out)
  ∧ ∀ out d s, Binary64.reciprocal_rank_fusion dumps loads results k = Ok out →
      (d, s) ∈ out →
      s = foldl Binary64.add Binary64.zero
            (replicate (votes dumps (dumps d) results) (Binary64.quotient k)).
Proof using loads_dumps.
  intros Hlen. split.
  - intros Hk. eexists. apply b64_rrf_safe, safe_events.
    intros docs Hin%Hlen. lia.
  - intros out d s Hout Hin.
    rewrite (b64_rrf_score _ _ loads_dumps _ _ _ _ _ Hout Hin).
    by rewrite fused_terms_votes.
Qed.

(** X7.  The fusion engine and the unique-union combiner return the same
    documents: whenever the engine returns, the documents of its ranking
    are a permutation of the union of the same lists. *)
Theorem rrf_documents_are_the_union results k out :
  reciprocal_rank_fusion dumps loads results k = Ok out →
  out.*1 ≡ₚ get_unique_union dumps loads results.
Proof using loads_dumps.
  intros Hout. apply NoDup_Permutation.
  - by eapply rrf_NoDup.
  - apply (NoDup_fmap_1 dumps).
    rewrite (get_unique_union_keys _ _ loads_dumps). apply NoDup_elements.
  - intros d. rewrite (rrf_elem_of _ _ _ _ Hout).
    by rewrite (get_unique_union_elem_of _ _ loads_dumps).
Qed.

(** X8.  The union is empty exactly when every list is empty, and taking
    the union of a union changes nothing but, at most, the order. *)
Theorem get_unique_union_empty_and_idempotent documents :
  (get_unique_union dumps loads documents = []
   ↔ ∀ docs, docs ∈ documents → docs = [])
  ∧ get_unique_union dumps loads [get_unique_union dumps loads documents]
    ≡ₚ get_unique_union dumps loads documents.
Proof using loads_dumps.
  split.
  - rewrite <- all_keys_nil. split.
    + intros Hnil. destruct (all_keys dumps documents) as [|key keys] eqn:Hk; [done|].
      assert (loads key ∈ get_unique_union dumps loads documents) as Hin.
      { unfold get_unique_union. fold (all_keys dumps documents).
        apply list_elem_of_fmap. exists key. split; [done|].
        apply unique_keys_elem_of. rewrite Hk. left. }
      rewrite Hnil in Hin. by apply elem_of_nil in Hin.
    + intros Hk. unfold get_unique_union. fold (all_keys dumps documents).
      by rewrite Hk.
  - apply NoDup_Permutation.
    + apply (NoDup_fmap_1 dumps).
      rewrite (get_unique_union_keys _ _ loads_dumps). apply NoDup_elements.
    + apply (NoDup_fmap_1 dumps).
      rewrite (get_unique_union_keys _ _ loads_dumps). apply NoDup_elements.
    + intros d. rewrite !(get_unique_union_elem_of _ _ loads_dumps).
      csimpl. by rewrite app_nil_r, (get_unique_union_elem_of _ _ loads_dumps).
Qed.

(** X20.  In binary64 the fused score of a document is the sum of its terms
    [1 / (r + k)], one for every list and every zero-based place [r] at
    which the document stands, added to [0.0] one after the other in the
    order in which the loops meet them, each quotient and each addition
    rounded.  This holds whenever the engine returns; a list that does not
    hold the document adds no term. *)
Theorem rrf_score_is_rounded_sum results k out :
  Binary64.reciprocal_rank_fusion dumps loads results k = Ok out →
  (∀ d, d ∈ mjoin results → ∃ s, (d, s) ∈ out)
  ∧ (∀ d s, (d, s) ∈ out →
       s = foldl Binary64.add Binary64.zero
             (Binary64.fused_terms dumps k (dumps d) results))
  ∧ (∀ key docs, key ∉ dumps <$> docs →
       Binary64.list_terms dumps k 0 key docs = []).
Proof using loads_dumps.
  intros Hout. split_and!.
  - intros d Hd. by eapply b64_rrf_has_score.
  - intros d s Hin. by eapply b64_rrf_score.
  - intros key docs. apply list_terms_absent.
Qed.

(** X21.  On [[A; B; C]; [B; C; D]] with four different documents and
    [k = 60] the binary64 engine returns the documents in the order
    [B; C; A; D], with the scores [0.03306010928961749],
    [0.03252247488101534], [0.016666666666666666] and
    [0.016129032258064516]. *)
Theorem rrf_scenario_binary64 A B C D :
  NoDup [A; B; C; D] →
  Binary64.reciprocal_rank_fusion dumps loads [[A; B; C]; [B; C; D]] 60
  = Ok [(B, S754_finite false 4764463868081574 (-57));
        (C, S754_finite false 4686982584169824 (-57));
        (A, S754_finite false 4803839602528529 (-58));
        (D, S754_finite false 4648877034705028 (-58))].
Proof using loads_dumps.
  intros Hnd.
  assert (∀ d d', d ≠ d' → dumps d ≠ dumps d') as Hne.
  { intros d d' Hdd Heq. by apply Hdd, (dumps_inj dumps loads loads_dumps). }
  rewrite !NoDup_cons, !not_elem_of_cons in Hnd.
  destruct Hnd as ((HAB & HAC & HAD & _) & (HBC & HBD & _) & (HCD & _) & _).
  pose proof (Hne _ _ HAB) as kAB. pose proof (Hne _ _ HAC) as kAC.
  pose proof (Hne _ _ HAD) as kAD. pose proof (Hne _ _ HBC) as kBC.
  pose proof (Hne _ _ HBD) as kBD. pose proof (Hne _ _ HCD) as kCD.
  rewrite b64_rrf_safe by (apply safe_positive; lia).
  unfold Binary64.final_scores, events, Binary64.step.
  cbn [enumerate_keys fmap list_fmap mjoin list_join app foldl fst snd
       Binary64.dict_mem Binary64.dict_new Binary64.dict_iadd].
  repeat (rewrite ?decide_True by done; rewrite ?decide_False by done;
          cbn [app Binary64.dict_mem Binary64.dict_new Binary64.dict_iadd]).
  vm_compute Binary64.sorted_desc.
  cbn [fmap list_fmap fst snd]. by rewrite !loads_dumps.
Qed.


(** X22.  A later place adds no more.  For [k > 0] the float
    [1 / (r' + k)] of a place [r' ≥ r] is not greater than the float
    [1 / (r + k)]: the rounding of the quotient keeps the order of the
    places. *)
Theorem rrf_later_place_adds_no_more k (r r' : nat) :
  0 < k → (r ≤ r')%nat →
  Binary64.leb (Binary64.quotient (Z.of_nat r' + k))
               (Binary64.quotient (Z.of_nat r + k)) = true.
Proof.
  intros Hk Hr.
  apply leb_le; [apply regular_not_nan, quotient_regular; lia..|].
  apply quotient_antitone; lia.
Qed.

(** X23.  In binary64 a single list without repeated documents comes back
    as it is, for [k > 0]: the document at the place [i] with the float
    [1 / (i + k)] as its score. *)
Theorem rrf_single_list_binary64 docs k :
  0 < k → NoDup (dumps <$> docs) →
  Binary64.reciprocal_rank_fusion dumps loads [docs] k
  = Ok (imap (λ i d, (d, Binary64.quotient (Z.of_nat i + k))) docs).
Proof using loads_dumps.
  intros Hk Hnd.
  destruct (b64_rrf_returns_positive dumps loads [docs] k Hk) as [out Hout].
  rewrite Hout. f_equal.
  pose proof (b64_rrf_replicate_order dumps loads loads_dumps docs 1 k out
                Hk ltac:(lia) Hnd Hout) as Hord.
  apply list_eq. intros i. rewrite list_lookup_imap.
  assert (out.*1 !! i = docs !! i) as Hi by (by rewrite Hord).
  rewrite list_lookup_fmap in Hi.
  destruct (out !! i) as [[d s]|] eqn:Hlook; simpl in Hi; rewrite <- Hi;
    [|done].
  simpl. do 2 f_equal.
  rewrite (b64_rrf_score _ _ loads_dumps _ _ _ _ _ Hout
             (list_elem_of_lookup_2 _ _ _ Hlook)).
  unfold Binary64.fused_terms. csimpl. rewrite app_nil_r.
  rewrite (list_terms_once dumps k 0 docs i d) by done.
  simpl. replace (0 + Z.of_nat i + k) with (Z.of_nat i + k) by lia.
  apply add_zero_l, quotient_regular. lia.
Qed.

End Special.

Lemma rrf_empty_iff_witness :
  reciprocal_rank_fusion (Document:=string) id id [[]; []] 0 = Ok [].
Proof.
  apply (rrf_empty_iff (Document:=string) id id [[]; []] 0).
  intros docs Hin.
  apply elem_of_cons in Hin as [Hin|Hin]; [exact Hin|].
  apply list_elem_of_singleton in Hin. exact Hin.
Defined.


Lemma rrf_app_scores_add_witness :
  ∃ out,
    Binary64.reciprocal_rank_fusion id id
      (replicate 2 ["A"]%string ++ replicate 3 ["A"]%string) 60 = Ok out
    ∧ ∀ d s, (d, s) ∈ out →
        s = foldl Binary64.add
              (score_of id d [("A"%string, S754_finite false 4803839602528529 (-57))])
              (Binary64.fused_terms id 60 (id d) (replicate 3 ["A"]%string)).
Proof.
  apply (rrf_app_scores_add (Document:=string) id id (λ d, eq_refl)
           (replicate 2 ["A"]%string) (replicate 3 ["A"]%string) 60
           [("A"%string, S754_finite false 4803839602528529 (-57))]
           [("A"%string, S754_finite false 7205759403792794 (-57))]);
    vm_compute; reflexivity.
Defined.

(** Five lists at once give ["A"] the score [0.08333333333333333]; its
    scores from two and from three of them are [0.03333333333333333] and
    [0.05], and their float sum is [0.08333333333333334]. *)
Example rrf_batches_do_not_add :
  ∃ s5 s2 s3,
    Binary64.reciprocal_rank_fusion id id (replicate 5 ["A"]%string) 60
    = Ok [("A"%string, s5)]
    ∧ Binary64.reciprocal_rank_fusion id id (replicate 2 ["A"]%string) 60
      = Ok [("A"%string, s2)]
    ∧ Binary64.reciprocal_rank_fusion id id (replicate 3 ["A"]%string) 60
      = Ok [("A"%string, s3)]
    ∧ s5 ≠ Binary64.add s2 s3.
Proof. do 3 eexists. split_and!; [vm_compute; reflexivity..|by vm_compute]. Qed.


(** ["A"] stands at the places 1, 2 and 7 of three lists.  With the lists in
    this order its score is [0.0474478480153437]; with the last two lists
    exchanged it is [0.04744784801534369]. *)
Example rrf_list_order_changes_a_score :
  ∃ out out' s s',
    Binary64.reciprocal_rank_fusion id id
      [["a1"; "A"]; ["b1"; "b2"; "A"];
       ["c1"; "c2"; "c3"; "c4"; "c5"; "c6"; "c7"; "A"]]%string 60 = Ok out
    ∧ Binary64.reciprocal_rank_fusion id id
        [["a1"; "A"]; ["c1"; "c2"; "c3"; "c4"; "c5"; "c6"; "c7"; "A"];
         ["b1"; "b2"; "A"]]%string 60 = Ok out'
    ∧ ("A"%string, s) ∈ out ∧ ("A"%string, s') ∈ out' ∧ s ≠ s'.
Proof.
  do 4 eexists. split_and!; [vm_compute; reflexivity..| | |].
  - left.
  - left.
  - by vm_compute.
Qed.

(** Six lists that hold ["A"]: the score is [0.09999999999999999]. *)
Lemma rrf_counts_votes_witness :
  S754_finite false 7205759403792793 (-56)
  = foldl Binary64.add Binary64.zero
      (replicate (votes id "A" (replicate 6 ["A"]%string ++ [["B"]; []]%string))
         (Binary64.quotient 60)).
Proof.
  destruct (rrf_counts_votes (Document:=string) id id (λ d, eq_refl)
              (replicate 6 ["A"]%string ++ [["B"]; []]%string) 60) as [_ Hvotes].
  - intros docs Hin.
    repeat (apply elem_of_cons in Hin as [Hin|Hin]; [rewrite Hin; simpl; lia|]).
    apply elem_of_nil in Hin. destruct Hin.
  - apply (Hvotes
             [("A"%string, S754_finite false 7205759403792793 (-56));
              ("B"%string, S754_finite false 4803839602528529 (-58))]
             "A"%string).
    + vm_compute. reflexivity.
    + left.
Defined.

Lemma rrf_documents_are_the_union_witness :
  ["B"; "A"; "C"]%string
  ≡ₚ get_unique_union id id [["A"; "B"]; ["B"; "C"]]%string.
Proof.
  apply (rrf_documents_are_the_union (Document:=string) id id (λ d, eq_refl)
           [["A"; "B"]; ["B"; "C"]]%string 60
           [("B"%string, 0 + / inject_Z (0 + 1 + 60) + / inject_Z (0 + 60));
            ("A"%string, 0 + / inject_Z (0 + 60));
            ("C"%string, 0 + / inject_Z (0 + 1 + 60))]%Q).
  reflexivity.
Defined.

Lemma get_unique_union_empty_and_idempotent_witness :
  get_unique_union (Document:=string) id id [[]; []] = [].
Proof.
  apply (get_unique_union_empty_and_idempotent (Document:=string) id id
           (λ d, eq_refl) [[]; []]).
  intros docs Hin.
  apply elem_of_cons in Hin as [Hin|Hin]; [exact Hin|].
  apply list_elem_of_singleton in Hin. exact Hin.
Defined.

Lemma rrf_score_is_rounded_sum_witness :
  S754_finite false 7127007934898884 (-57)
  = foldl Binary64.add Binary64.zero
      (Binary64.fused_terms id 60 (id "A"%string) [["A"; "A"]; ["B"; "A"]]%string).
Proof.
  destruct (rrf_score_is_rounded_sum (Document:=string) id id (λ d, eq_refl)
              [["A"; "A"]; ["B"; "A"]]%string 60
              [("A"%string, S754_finite false 7127007934898884 (-57));
               ("B"%string, S754_finite false 4803839602528529 (-58))])
    as (_ & Hsum & _).
  - vm_compute. reflexivity.
  - apply (Hsum "A"%string). left.
Defined.

Lemma rrf_scenario_binary64_witness :
  Binary64.reciprocal_rank_fusion id id [["A"; "B"; "C"]; ["B"; "C"; "D"]]%string 60
  = Ok [("B"%string, S754_finite false 4764463868081574 (-57));
        ("C"%string, S754_finite false 4686982584169824 (-57));
        ("A"%string, S754_finite false 4803839602528529 (-58));
        ("D"%string, S754_finite false 4648877034705028 (-58))].
Proof.
  apply (rrf_scenario_binary64 (Document:=string) id id (λ d, eq_refl)
           "A"%string "B"%string "C"%string "D"%string).
  apply (bool_decide_unpack _). vm_compute. exact I.
Defined.


Lemma rrf_later_place_adds_no_more_witness :
  Binary64.leb (Binary64.quotient (Z.of_nat 7 + 60))
               (Binary64.quotient (Z.of_nat 2 + 60)) = true.
Proof. apply (rrf_later_place_adds_no_more 60 2 7); lia. Defined.

Lemma rrf_single_list_binary64_witness :
  Binary64.reciprocal_rank_fusion id id [["A"; "B"]]%string 60
  = Ok (imap (λ i d, (d, Binary64.quotient (Z.of_nat i + 60)))
          ["A"; "B"]%string).
Proof.
  apply (rrf_single_list_binary64 (Document:=string) id id (λ d, eq_refl)
           ["A"; "B"]%string 60).
  - lia.
  - apply (bool_decide_unpack _). vm_compute. exact I.
Defined.

(** ** Splitting the reply of the model *)

Lemma split_on_blank_cons2 c c' x cur :
  split_on_blank (String c (String c' x)) cur
  = if decide (c = newline ∧ c' = newline)
    then cur :: split_on_blank x EmptyString
    else split_on_blank (String c' x) (cur +:+ String c EmptyString).
Proof. done. Qed.

(** A text without a blank line is one piece. *)
Lemma split_on_blank_single a cur :
  no_blank a = true → split_on_blank a cur = [cur +:+ a].
Proof.
  revert cur. induction a as [|c a IH]; intros cur Ha.
  - by rewrite append_nil_r.
  - destruct a as [|c' a]; [done|].
    rewrite no_blank_cons in Ha. rewrite split_on_blank_cons2.
    destruct (decide (c = newline ∧ c' = newline)); [done|].
    rewrite IH by done. by rewrite append_assoc.
Qed.

(** The scan cuts at the first blank line when the text before it does not
    end in a newline. *)
Lemma split_on_blank_piece a rest cur :
  no_blank (a +:+ String newline EmptyString) = true →
  split_on_blank (a +:+ blank +:+ rest) cur
  = (cur +:+ a) :: split_on_blank rest EmptyString.
Proof.
  revert cur. induction a as [|c a IH]; intros cur Ha.
  - change (EmptyString +:+ blank +:+ rest)
      with (String newline (String newline rest)).
    rewrite split_on_blank_cons2, decide_True by done. by rewrite append_nil_r.
  - rewrite append_cons. destruct a as [|c' a].
    + change (no_blank (String c (String newline EmptyString)) = true) in Ha.
      rewrite no_blank_cons in Ha.
      change (EmptyString +:+ blank +:+ rest)
        with (String newline (String newline rest)) in *.
      destruct (decide (c = newline ∧ newline = newline)) as [|Hsep]; [done|].
      rewrite split_on_blank_cons2, decide_False by done.
      rewrite (IH (cur +:+ String c EmptyString)) by done.
      by rewrite append_assoc.
    + rewrite !append_cons in *. rewrite (no_blank_cons c) in Ha.
      destruct (decide (c = newline ∧ c' = newline)) as [|Hsep]; [done|].
      rewrite split_on_blank_cons2, decide_False by done.
      rewrite (IH (cur +:+ String c EmptyString)) by done.
      by rewrite append_assoc.
Qed.

Lemma well_separated_cons p pieces :
  pieces ≠ [] →
  well_separated (p :: pieces)
  = no_blank (p +:+ String newline EmptyString) && well_separated pieces.
Proof. by destruct pieces. Qed.

Lemma split_on_blank_well_separated x cur :
  no_blank (cur +:+ first_char x) = true →
  well_separated (split_on_blank x cur) = true.
Proof.
  revert cur.
  enough ((∀ cur, no_blank (cur +:+ first_char x) = true →
             well_separated (split_on_blank x cur) = true)
          ∧ ∀ c cur, no_blank (cur +:+ String c EmptyString) = true →
             well_separated (split_on_blank (String c x) cur) = true)
    as [H _] by done.
  induction x as [|c' x [IH1 IH2]]; (split; [intros cur Hcur|intros c cur Hcur]).
  - by rewrite append_nil_r in Hcur.
  - done.
  - by apply IH2.
  - rewrite split_on_blank_cons2.
    destruct (decide (c = newline ∧ c' = newline)) as [[-> ->]|Hsep].
    + rewrite well_separated_cons by apply split_on_blank_nonempty.
      rewrite Hcur. apply IH1. by destruct x.
    + apply IH2. rewrite append_assoc. by apply no_blank_snoc.
Qed.

(** X9.  A reply without a blank line is handed on as a single query, the
    whole reply, however many lines it has; and only such a reply gives a
    single query. *)
Theorem parse_queries_single_iff x :
  (length (parse_queries x) = 1%nat ↔ no_blank x = true)
  ∧ (no_blank x = true → parse_queries x = [x]).
Proof.
  assert (no_blank x = true → parse_queries x = [x]) as Hsingle.
  { intros Hx. unfold parse_queries. by rewrite split_on_blank_single. }
  split; [|done]. split.
  - intros Hlen. pose proof (join_split_on_blank x EmptyString) as Hjoin.
    pose proof (split_on_blank_well_separated x EmptyString) as Hws.
    unfold parse_queries in Hlen.
    destruct (split_on_blank x EmptyString) as [|p [|q qs]]; try done.
    simpl in Hjoin. subst p. apply Hws. by destruct x.
  - intros Hx. by rewrite Hsingle.
Qed.

(** X10.  Splitting is the inverse of joining with blank lines on the lists
    it can return: the pieces of every reply hold no blank line and, but
    for the last, do not end in a newline, and every non-empty list of such
    pieces is what splitting its join returns. *)
Theorem parse_queries_join_round_trip :
  (∀ x, well_separated (parse_queries x) = true)
  ∧ (∀ qs, well_separated qs = true → parse_queries (join_blank qs) = qs).
Proof.
  split.
  - intros x. apply split_on_blank_well_separated. by destruct x.
  - induction qs as [|p qs IH]; [done|]. destruct qs as [|q qs].
    + intros Hp. unfold parse_queries. by rewrite split_on_blank_single.
    + rewrite well_separated_cons by done. intros [Hp Hqs]%andb_prop.
      rewrite join_blank_cons by done. unfold parse_queries.
      rewrite split_on_blank_piece by done. f_equal. by apply IH.
Qed.

Lemma parse_queries_single_iff_witness :
  parse_queries ("first query?" +:+ String newline "second query?")
  = ["first query?" +:+ String newline "second query?"].
Proof.
  apply (parse_queries_single_iff
           ("first query?" +:+ String newline "second query?")).
  reflexivity.
Defined.

Lemma parse_queries_join_round_trip_witness :
  parse_queries (join_blank ["a"; String newline "b"; EmptyString]%string)
  = ["a"; String newline "b"; EmptyString]%string.
Proof.
  apply parse_queries_join_round_trip. reflexivity.
Defined.

(** ** Splitting on single newlines *)

Lemma count_newlines_app s t :
  count_newlines (s +:+ t) = (count_newlines s + count_newlines t)%nat.
Proof.
  induction s as [|c s IH]; [done|]. rewrite append_cons. simpl.
  rewrite IH. lia.
Qed.

Lemma split_on_newline_nonempty x cur : split_on_newline x cur ≠ [].
Proof.
  revert cur. induction x as [|c x IH]; intros cur; [done|]. simpl.
  destruct (decide (c = newline)); [done|apply IH].
Qed.

Lemma length_split_on_newline x cur :
  length (split_on_newline x cur) = S (count_newlines x).
Proof.
  revert cur. induction x as [|c x IH]; intros cur; [done|]. simpl.
  destruct (decide (c = newline)); simpl; by rewrite IH.
Qed.

Lemma join_newline_cons p pieces :
  pieces ≠ [] →
  join_newline (p :: pieces) = p +:+ String newline (join_newline pieces).
Proof. by destruct pieces. Qed.

Lemma join_split_on_newline x cur :
  join_newline (split_on_newline x cur) = cur +:+ x.
Proof.
  revert cur. induction x as [|c x IH]; intros cur.
  - simpl. by rewrite append_nil_r.
  - cbn [split_on_newline]. destruct (decide (c = newline)) as [->|_].
    + rewrite join_newline_cons by apply split_on_newline_nonempty.
      by rewrite IH.
    + by rewrite IH, append_assoc.
Qed.

Lemma split_on_newline_pieces x cur :
  count_newlines cur = 0%nat →
  Forall (λ q, count_newlines q = 0%nat) (split_on_newline x cur).
Proof.
  revert cur. induction x as [|c x IH]; intros cur Hcur.
  - by constructor.
  - cbn [split_on_newline]. destruct (decide (c = newline)) as [->|Hc].
    + constructor; [done|]. by apply IH.
    + apply IH. rewrite count_newlines_app, Hcur. simpl.
      by rewrite decide_False.
Qed.

(** X11.  In the re-ranking notebook the retriever runs once for every line
    of the reply, empty lines included: the chain returns one more list
    than the reply has newlines, the [i]-th list is what the retriever
    gives for the [i]-th line, no line holds a newline, and the lines joined
    by newlines are the reply. *)
Theorem reranking_chain_one_list_per_line {Document : Type}
    (retriever : string → list Document) (llm_output : string) :
  length (ReRanking.chain_retrieval retriever llm_output)
  = S (count_newlines llm_output)
  ∧ (∀ i, ReRanking.chain_retrieval retriever llm_output !! i
          = retriever <$> ReRanking.chain_generate_queries llm_output !! i)
  ∧ Forall (λ q, count_newlines q = 0%nat)
      (ReRanking.chain_generate_queries llm_output)
  ∧ join_newline (ReRanking.chain_generate_queries llm_output) = llm_output.
Proof.
  unfold ReRanking.chain_retrieval, ReRanking.chain_generate_queries.
  split_and!.
  - by rewrite length_fmap, length_split_on_newline.
  - intros i. apply list_lookup_fmap.
  - by apply split_on_newline_pieces.
  - apply (join_split_on_newline llm_output EmptyString).
Qed.

(** ** The retrieval chains *)

Section Chains.

Context {Document : Type} (dumps : Document → string) (loads : string → Document).
Hypothesis loads_dumps : ∀ d, loads (dumps d) = d.
Variable retriever : string → list Document.

Lemma elem_of_retrieved d (queries : list string) :
  d ∈ mjoin (retriever <$> queries) ↔ ∃ q, q ∈ queries ∧ d ∈ retriever q.
Proof.
  rewrite list_elem_of_join. split.
  - intros (docs & Hd & (q & -> & Hq)%list_elem_of_fmap). by exists q.
  - intros (q & Hq & Hd). exists (retriever q). split; [done|].
    apply list_elem_of_fmap. by exists q.
Qed.

Lemma sum_list_bounded n (ls : list (list Document)) :
  (∀ l, l ∈ ls → (length l ≤ n)%nat) →
  (sum_list (length <$> ls) ≤ length ls * n)%nat.
Proof.
  induction ls as [|l ls IH]; intros Hn; csimpl; [lia|].
  specialize (Hn l ltac:(left)) as Hl.
  specialize (IH ltac:(intros ? ?; apply Hn; by right)). lia.
Qed.

(** X12.  The multi-query retrieval chain never fails after the model has
    replied.  It returns exactly the documents the retriever gives for some
    query of the reply, each once; when the retriever returns at most [n]
    documents a query, it returns at most [n] times the number of queries. *)
Theorem multi_query_chain_retrieval llm_output :
  ∃ out,
    MultiQuery.chain_retrieval dumps loads retriever llm_output = Ok out
    ∧ NoDup (dumps <$> out)
    ∧ (∀ d, d ∈ out ↔ ∃ q, q ∈ parse_queries llm_output ∧ d ∈ retriever q)
    ∧ (∀ n, (∀ q, (length (retriever q) ≤ n)%nat) →
         (length out ≤ length (parse_queries llm_output) * n)%nat).
Proof using loads_dumps.
  eexists. split; [reflexivity|]. split_and!.
  - rewrite (get_unique_union_keys _ _ loads_dumps). apply NoDup_elements.
  - intros d. rewrite (get_unique_union_elem_of _ _ loads_dumps).
    apply elem_of_retrieved.
  - intros n Hn.
    rewrite <- (length_fmap dumps), (get_unique_union_keys _ _ loads_dumps).
    rewrite unique_keys_perm.
    etransitivity; [apply length_remove_dups_le|].
    rewrite length_all_keys.
    etransitivity; [apply (sum_list_bounded n)|by rewrite length_fmap].
    intros l (q & -> & _)%list_elem_of_fmap. apply Hn.
Qed.

(** X13.  The RAG-fusion retrieval chain, which fuses with [k = 60], never
    fails after the model has replied: it ranks exactly the documents the
    retriever gives for some query of the reply, each once, by scores that
    do not increase along the ranking and of which none is less than [0.0];
    the scores are greater than [0.0] when the retriever returns at most [n]
    documents a query and [n + 60 ≤ 2 ^ 1074].  With a retriever that
    returns at most one document a query, as the notebook's retriever does,
    the score of a document is [1 / 60] added to [0.0] once for every query
    that retrieves it, each addition rounded. *)
Theorem rag_fusion_chain_retrieval llm_output :
  ∃ out,
    RagFusion.chain_retrieval dumps loads retriever llm_output = Ok out
    ∧ NoDup (dumps <$> out.*1)
    ∧ (∀ d, d ∈ out.*1 ↔ ∃ q, q ∈ parse_queries llm_output ∧ d ∈ retriever q)
    ∧ (∀ i j p q, (i < j)%nat → out !! i = Some p → out !! j = Some q →
         Binary64.leb q.2 p.2 = true)
    ∧ (∀ d s, (d, s) ∈ out → Binary64.leb Binary64.zero s = true)
    ∧ (∀ n, (∀ q, (length (retriever q) ≤ n)%nat) → Z.of_nat n + 60 ≤ 2 ^ 1074 →
         ∀ d s, (d, s) ∈ out → Binary64.ltb Binary64.zero s = true)
    ∧ ((∀ q, (length (retriever q) ≤ 1)%nat) →
       ∀ d s, (d, s) ∈ out →
         s = foldl Binary64.add Binary64.zero
               (replicate
                  (votes dumps (dumps d) (retriever <$> parse_queries llm_output))
                  (Binary64.quotient 60))).
Proof using loads_dumps.
  destruct (b64_rrf_returns_positive dumps loads
              (retriever <$> parse_queries llm_output) 60 ltac:(lia))
    as [out Hout].
  exists out. split; [exact Hout|]. split_and!.
  - by eapply b64_rrf_NoDup.
  - intros d. rewrite (b64_rrf_elem_of _ _ loads_dumps _ _ _ _ Hout).
    apply elem_of_retrieved.
  - intros i j p q Hij Hi Hj.
    destruct (b64_rrf_ranked _ _ loads_dumps _ _ _ _ _ _ _ Hout Hij Hi Hj)
      as (Hp & Hq & Hle & _).
    by apply leb_le.
  - intros d s Hin. apply nonneg_leb.
    by apply (b64_rrf_nonneg _ _ loads_dumps _ 60 _ _ _ ltac:(lia) Hout Hin).
  - intros n Hn Hsmall d s Hin. apply positive_ltb.
    apply (b64_rrf_nonneg _ _ loads_dumps _ 60 _ _ _ ltac:(lia) Hout Hin).
    pose proof (b64_rrf_elem_of_input _ _ loads_dumps _ _ _ _ _ Hout Hin) as Hd.
    apply list_elem_of_join in Hd as (docs & Hd & Hdocs).
    apply list_elem_of_lookup in Hd as [i Hi].
    exists docs, i, d. split_and!; [done..|].
    pose proof Hdocs as (q & -> & _)%list_elem_of_fmap.
    apply lookup_lt_Some in Hi. specialize (Hn q). lia.
  - intros Hone d s Hin.
    rewrite (b64_rrf_score _ _ loads_dumps _ _ _ _ _ Hout Hin).
    rewrite fused_terms_votes; [done|].
    intros docs (q & -> & _)%list_elem_of_fmap. apply Hone.
Qed.

End Chains.

Lemma multi_query_chain_retrieval_witness :
  ∃ out,
    MultiQuery.chain_retrieval id id (λ q, [q; "shared"]%string)
      ("a" +:+ blank +:+ "b") = Ok out
    ∧ NoDup (id <$> out)
    ∧ (length out ≤ length (parse_queries ("a" +:+ blank +:+ "b")) * 2)%nat.
Proof.
  destruct (multi_query_chain_retrieval (Document:=string) id id (λ d, eq_refl)
              (λ q, [q; "shared"]%string) ("a" +:+ blank +:+ "b"))
    as (out & Hout & Hnd & _ & Hlen).
  exists out. split; [exact Hout|]. split; [exact Hnd|].
  apply Hlen. intros q. simpl. lia.
Defined.

(** Six queries that all retrieve the same document. *)
Lemma rag_fusion_chain_retrieval_witness :
  ∃ out,
    RagFusion.chain_retrieval id id (λ q, ["doc"]%string)
      ("a" +:+ blank +:+ "b" +:+ blank +:+ "c" +:+ blank +:+ "d" +:+ blank
       +:+ "e" +:+ blank +:+ "f")
    = Ok out
    ∧ out = [("doc"%string, S754_finite false 7205759403792793 (-56))].
Proof.
  destruct (rag_fusion_chain_retrieval (Document:=string) id id (λ d, eq_refl)
              (λ q, ["doc"]%string)
              ("a" +:+ blank +:+ "b" +:+ blank +:+ "c" +:+ blank +:+ "d" +:+ blank
               +:+ "e" +:+ blank +:+ "f"))
    as (out & Hout & _).
  exists out. split; [exact Hout|].
  vm_compute in Hout. injection Hout as <-. reflexivity.
Defined.

(** ** Logical routing *)

Lemma prefix_spec pat s :
  String.prefix pat s = true ↔ ∃ post, s = pat +:+ post.
Proof.
  revert s. induction pat as [|c pat IH]; intros s.
  - destruct s as [|c' s]; (split; [|done]); intros _; by eexists.
  - destruct s as [|c' s].
    + split; [done|]. by intros [post ?].
    + cbn [String.prefix]. destruct (ascii_dec c c') as [->|Hne].
      * rewrite IH. split.
        -- intros [post ->]. by exists post.
        -- intros [post Hpost]. rewrite append_cons in Hpost.
           injection Hpost as ->. by exists post.
      * split; [done|]. intros [post Hpost]. rewrite append_cons in Hpost.
        by injection Hpost.
Qed.

Lemma contains_spec pat s :
  contains pat s = true ↔ ∃ pre post, s = pre +:+ pat +:+ post.
Proof.
  induction s as [|c s IH].
  - cbn [contains]. destruct (String.prefix pat EmptyString) eqn:Hp.
    + split; [|done]. intros _. apply prefix_spec in Hp as [post Hpost].
      by exists EmptyString, post.
    + split; [done|]. intros ([|c pre] & post & Hs); [|done].
      assert (String.prefix pat EmptyString = true) as Hp'
        by (apply prefix_spec; by exists post).
      congruence.
  - cbn [contains]. destruct (String.prefix pat (String c s)) eqn:Hp.
    + split; [|done]. intros _. apply prefix_spec in Hp as [post Hpost].
      by exists EmptyString, post.
    + rewrite IH. split.
      * intros (pre & post & ->). by exists (String c pre), post.
      * intros ([|c' pre] & post & Hs).
        -- assert (String.prefix pat (String c s) = true) as Hp'
             by (apply prefix_spec; by exists post).
           congruence.
        -- rewrite append_cons in Hs. injection Hs as -> ->. by exists pre, post.
Qed.

Lemma lower_app s t : lower (s +:+ t) = lower s +:+ lower t.
Proof.
  induction s as [|c s IH]; [done|]. rewrite append_cons. cbn [lower].
  by rewrite IH.
Qed.

(** X14.  [choose_route] looks for the names as substrings of the
    lower-cased datasource, [python_docs] first: it returns the python
    route exactly when the lower-cased datasource holds [python_docs], the
    js route exactly when it holds [js_docs] and not [python_docs], and
    [golang_docs] in every other case.  So a datasource that holds
    [python_docs] in any letter case, anywhere, goes the python route,
    whatever else it holds. *)
Theorem choose_route_by_substring result :
  (choose_route result = "chain for python_docs"
   ↔ ∃ pre post, lower (datasource result) = pre +:+ "python_docs" +:+ post)
  ∧ (choose_route result = "chain for js_docs"
     ↔ (¬ ∃ pre post, lower (datasource result) = pre +:+ "python_docs" +:+ post)
       ∧ ∃ pre post, lower (datasource result) = pre +:+ "js_docs" +:+ post)
  ∧ (choose_route result = "golang_docs"
     ↔ (¬ ∃ pre post, lower (datasource result) = pre +:+ "python_docs" +:+ post)
       ∧ ¬ ∃ pre post, lower (datasource result) = pre +:+ "js_docs" +:+ post)
  ∧ (∀ pre v post,
       lower v = "python_docs" → datasource result = pre +:+ v +:+ post →
       choose_route result = "chain for python_docs").
Proof.
  assert (choose_route result = "chain for python_docs"
          ↔ ∃ pre post,
              lower (datasource result) = pre +:+ "python_docs" +:+ post)
    as Hpy.
  { rewrite <- contains_spec. unfold choose_route.
    destruct (contains "python_docs" _); [done|].
    by destruct (contains "js_docs" _). }
  split_and!.
  - done.
  - rewrite <- !contains_spec. unfold choose_route.
    destruct (contains "python_docs" _).
    + split; [done|]. by intros [[] _].
    + destruct (contains "js_docs" _); [done|]. split; [done|]. by intros [_ ?].
  - rewrite <- !contains_spec. unfold choose_route.
    destruct (contains "python_docs" _).
    + split; [done|]. by intros [[] _].
    + destruct (contains "js_docs" _); [|done]. split; [done|]. by intros [_ []].
  - intros pre v post Hv Hds. apply Hpy.
    exists (lower pre), (lower post). by rewrite Hds, !lower_app, Hv.
Qed.

Lemma choose_route_by_substring_witness :
  choose_route {| datasource := "JS_docs or Python_Docs" |}
  = "chain for python_docs"%string.
Proof.
  apply (choose_route_by_substring {| datasource := "JS_docs or Python_Docs" |})
    with (pre := "JS_docs or "%string) (v := "Python_Docs"%string)
         (post := EmptyString); reflexivity.
Defined.

(** ** The setup notebook *)

(** X15.  [_set_env] asks for a variable only when it is missing: a
    variable that is set keeps its value and no prompt is shown; a missing
    one gets the text typed at the prompt [key:].  Afterwards the variable
    is set, every other variable is as before, and a second call changes
    nothing. *)
Theorem set_env_sets_missing_only getpass key s :
  (∀ v, environ s !! key = Some v → _set_env getpass key s = s)
  ∧ (environ s !! key = None →
     environ (_set_env getpass key s) !! key = Some (getpass (key +:+ ":"))
     ∧ prompted (_set_env getpass key s) = prompted s ++ [key +:+ ":"])
  ∧ is_Some (environ (_set_env getpass key s) !! key)
  ∧ (∀ key', key' ≠ key →
       environ (_set_env getpass key s) !! key' = environ s !! key')
  ∧ _set_env getpass key (_set_env getpass key s) = _set_env getpass key s.
Proof.
  unfold _set_env. destruct (environ s !! key) as [v|] eqn:Hkey; split_and!.
  - done.
  - done.
  - by rewrite Hkey.
  - done.
  - by rewrite Hkey.
  - done.
  - intros _. simpl. by rewrite lookup_insert_eq.
  - simpl. by rewrite lookup_insert_eq.
  - intros key' Hne. simpl. by rewrite lookup_insert_ne.
  - simpl. by rewrite lookup_insert_eq.
Qed.

Lemma set_env_sets_missing_only_witness :
  _set_env (λ _, "typed"%string) "AWS_REGION"
    {| environ := {["AWS_REGION"%string := "eu-west-1"%string]}; prompted := [] |}
  = {| environ := {["AWS_REGION"%string := "eu-west-1"%string]}; prompted := [] |}.
Proof.
  apply (set_env_sets_missing_only (λ _, "typed"%string) "AWS_REGION"
           {| environ := {["AWS_REGION"%string := "eu-west-1"%string]};
              prompted := [] |})
    with (v := "eu-west-1"%string).
  reflexivity.
Defined.

Lemma set_env_lookup getpass key s :
  environ (_set_env getpass key s) !! key
  = Some (default (getpass (key +:+ ":")) (environ s !! key)).
Proof.
  unfold _set_env. destruct (environ s !! key) eqn:Hkey; simpl.
  - by rewrite Hkey.
  - by rewrite lookup_insert_eq.
Qed.

Lemma set_env_lookup_ne getpass key key' s :
  key' ≠ key → environ (_set_env getpass key s) !! key' = environ s !! key'.
Proof.
  intros Hne. unfold _set_env. destruct (environ s !! key); [done|].
  simpl. by rewrite lookup_insert_ne.
Qed.

Lemma set_env_prompted getpass key s :
  prompted (_set_env getpass key s)
  = prompted s ++ match environ s !! key with
                  | Some _ => []
                  | None => [key +:+ ":"]
                  end.
Proof.
  unfold _set_env. destruct (environ s !! key); simpl; [|done].
  by rewrite app_nil_r.
Qed.

(** X16.  After the AWS credentials cell the four lookups of the LLM cell
    succeed, whatever the environment was before: the region is
    [us-west-2] even if another one was set, each credential is the value
    it had, or the text typed at its prompt if it had none, and the prompts
    shown are those of the missing credentials, in the order of the cell.
    On its own the LLM cell fails with a [KeyError] exactly when one of
    the four variables is missing. *)
Theorem aws_credentials_cell_feeds_llm_cell getpass s :
  llm_cell_environ (aws_credentials_cell getpass s)
  = Some (default (getpass "AWS_ACCESS_KEY_ID:") (environ s !! "AWS_ACCESS_KEY_ID"),
          default (getpass "AWS_SECRET_ACCESS_KEY:")
            (environ s !! "AWS_SECRET_ACCESS_KEY"),
          default (getpass "AWS_SESSION_TOKEN:") (environ s !! "AWS_SESSION_TOKEN"),
          "us-west-2"%string)
  ∧ prompted (aws_credentials_cell getpass s)
    = prompted s
      ++ ((λ key, key +:+ ":")
            <$> filter (λ key, environ s !! key = None)
                  ["AWS_ACCESS_KEY_ID"; "AWS_SECRET_ACCESS_KEY";
                   "AWS_SESSION_TOKEN"]%string)
  ∧ (llm_cell_environ s = None
     ↔ environ s !! "AWS_ACCESS_KEY_ID" = None
       ∨ environ s !! "AWS_SECRET_ACCESS_KEY" = None
       ∨ environ s !! "AWS_SESSION_TOKEN" = None
       ∨ environ s !! "AWS_REGION" = None).
Proof.
  split_and!.
  - unfold llm_cell_environ, aws_credentials_cell, setenv. cbn [environ].
    rewrite (lookup_insert_ne _ "AWS_REGION" "AWS_ACCESS_KEY_ID") by done.
    rewrite (lookup_insert_ne _ "AWS_REGION" "AWS_SECRET_ACCESS_KEY") by done.
    rewrite (lookup_insert_ne _ "AWS_REGION" "AWS_SESSION_TOKEN") by done.
    rewrite lookup_insert_eq.
    rewrite !set_env_lookup.
    rewrite !(set_env_lookup_ne _ "AWS_SESSION_TOKEN") by done.
    rewrite !set_env_lookup.
    rewrite !(set_env_lookup_ne _ "AWS_SECRET_ACCESS_KEY") by done.
    rewrite !set_env_lookup.
    rewrite !(set_env_lookup_ne _ "AWS_ACCESS_KEY_ID") by done.
    done.
  - unfold aws_credentials_cell, setenv. cbn [prompted].
    rewrite !set_env_prompted.
    rewrite set_env_lookup_ne by done. rewrite set_env_lookup_ne by done.
    rewrite set_env_lookup_ne by done.
    rewrite <- !app_assoc. f_equal.
    rewrite !filter_cons, filter_nil.
    destruct (environ s !! "AWS_ACCESS_KEY_ID"),
      (environ s !! "AWS_SECRET_ACCESS_KEY"),
      (environ s !! "AWS_SESSION_TOKEN"); done.
  - unfold llm_cell_environ.
    destruct (environ s !! "AWS_ACCESS_KEY_ID"),
      (environ s !! "AWS_SECRET_ACCESS_KEY"),
      (environ s !! "AWS_SESSION_TOKEN"), (environ s !! "AWS_REGION");
      simpl; split; try done; auto; intros [|[|[|]]]; done.
Qed.

Lemma aws_credentials_cell_feeds_llm_cell_witness :
  llm_cell_environ {| environ := ∅; prompted := [] |} = None.
Proof.
  apply (aws_credentials_cell_feeds_llm_cell (λ _, EmptyString)
           {| environ := ∅; prompted := [] |}).
  left. reflexivity.
Defined.

(** X17.  The LangSmith cell switches tracing on only when
    [enable_langsmith] is already bound to the string [y].  When the name
    is not bound the cell binds it to a [bool], which is not equal to [y]:
    whatever is typed at the question, tracing is set to [false], the
    endpoint is left alone and no key is asked for. *)
Theorem langsmith_cell_tracing input getpass enable_langsmith s :
  (environ (langsmith_cell input getpass enable_langsmith s).2
     !! "LANGCHAIN_TRACING_V2" = Some "true"%string
   ↔ enable_langsmith = Some (PyStr "y"))
  ∧ (enable_langsmith ≠ Some (PyStr "y") →
     environ (langsmith_cell input getpass enable_langsmith s).2
     = <["LANGCHAIN_TRACING_V2" := "false"%string]> (environ s)
     ∧ prompted (langsmith_cell input getpass enable_langsmith s).2 = prompted s)
  ∧ (enable_langsmith = None →
     ∃ b, (langsmith_cell input getpass enable_langsmith s).1 = PyBool b)
  ∧ (enable_langsmith = Some (PyStr "y") →
     environ (langsmith_cell input getpass enable_langsmith s).2
       !! "LANGCHAIN_ENDPOINT" = Some "https://api.smith.langchain.com"%string
     ∧ is_Some (environ (langsmith_cell input getpass enable_langsmith s).2
                  !! "LANGCHAIN_API_KEY")).
Proof.
  unfold langsmith_cell.
  destruct enable_langsmith as [[b|v]|]; cbn [py_eq_str].
  - split_and!; [|done|done|done]. simpl. rewrite lookup_insert_eq.
    split; [done|]. by intros [=].
  - destruct (String.eqb_spec v "y") as [->|Hne].
    + split_and!; [|done|done|].
      * cbn [snd]. rewrite set_env_lookup_ne by done. simpl.
        rewrite lookup_insert_ne by done. by rewrite lookup_insert_eq.
      * intros _. cbn [snd]. split.
        -- rewrite set_env_lookup_ne by done. simpl.
           by rewrite lookup_insert_eq.
        -- rewrite set_env_lookup. by eexists.
    + split_and!; [|done|done|].
      * simpl. rewrite lookup_insert_eq. split; [done|]. intros [=]. done.
      * intros [=]. done.
  - split_and!; [|done| |done].
    + simpl. rewrite lookup_insert_eq. split; done.
    + intros _. by eexists.
Qed.

Lemma langsmith_cell_tracing_witness :
  environ (langsmith_cell (λ _, "y"%string) (λ _, "secret"%string) None
             {| environ := ∅; prompted := [] |}).2
  = <["LANGCHAIN_TRACING_V2"%string := "false"%string]> ∅
  ∧ prompted (langsmith_cell (λ _, "y"%string) (λ _, "secret"%string) None
                {| environ := ∅; prompted := [] |}).2 = [].
Proof.
  apply (langsmith_cell_tracing (λ _, "y"%string) (λ _, "secret"%string) None
           {| environ := ∅; prompted := [] |}).
  intros H. discriminate H.
Defined.

(** ** Multi-representation indexing *)

Lemma lookup_make_doc_ids {Document : Type} uuid4 (docs : list Document) i :
  (i < length docs)%nat → make_doc_ids uuid4 docs !! i = Some (uuid4 i).
Proof.
  intros Hi. unfold make_doc_ids. rewrite list_lookup_fmap.
  by rewrite lookup_seq_lt.
Qed.

Lemma summary_docs_from_Some doc_ids summaries i :
  (i + length summaries ≤ length doc_ids)%nat →
  ∃ sds, summary_docs_from i doc_ids summaries = Some sds
         ∧ length sds = length summaries
         ∧ ∀ j sd, sds !! j = Some sd →
             summaries !! j = Some (page_content sd)
             ∧ doc_ids !! (i + j)%nat = Some (doc_id sd).
Proof.
  revert i. induction summaries as [|s summaries IH]; intros i Hlen.
  - exists []. by split_and!.
  - simpl in Hlen. cbn [summary_docs_from].
    destruct (lookup_lt_is_Some_2 doc_ids i ltac:(lia)) as [uid Huid].
    destruct (IH (S i) ltac:(lia)) as (sds & -> & Hsds & Hall).
    rewrite Huid. simpl. eexists. split_and!; [done|by rewrite <- Hsds|].
    intros [|j] sd Hj; simpl in Hj.
    + injection Hj as <-. simpl. by rewrite Nat.add_0_r.
    + destruct (Hall j sd Hj) as [Hs Hid]. split; [done|].
      by rewrite <- Nat.add_succ_comm.
Qed.

Lemma summary_docs_from_None doc_ids summaries i :
  (i ≤ length doc_ids)%nat →
  (length doc_ids < i + length summaries)%nat →
  summary_docs_from i doc_ids summaries = None.
Proof.
  revert i. induction summaries as [|s summaries IH]; intros i Hi Hlen.
  - simpl in Hlen. lia.
  - simpl in Hlen. cbn [summary_docs_from].
    destruct (doc_ids !! i) as [uid|] eqn:Huid; [|done]. simpl.
    apply lookup_lt_Some in Huid. rewrite IH by lia. done.
Qed.

(** X18.  With one summary for each document, the summary documents are
    built without an [IndexError], the [i]-th from the [i]-th summary with
    the [i]-th identifier, and the pair handed to the document store under
    that identifier holds the [i]-th document; when the identifiers drawn
    are all different no other pair has this identifier.  With more
    summaries than documents the comprehension raises. *)
Theorem summary_docs_link_to_their_documents {Document : Type}
    (uuid4 : nat → string) (docs : list Document) (summaries : list string) :
  ((length summaries ≤ length docs)%nat →
   ∃ sds,
     summary_docs (make_doc_ids uuid4 docs) summaries = Some sds
     ∧ length sds = length summaries
     ∧ ∀ i sd, sds !! i = Some sd →
         summaries !! i = Some (page_content sd)
         ∧ doc_id sd = uuid4 i
         ∧ ∃ d, docs !! i = Some d
                ∧ docstore_pairs (make_doc_ids uuid4 docs) docs !! i
                  = Some (doc_id sd, d)
                ∧ ((∀ m n, uuid4 m = uuid4 n → m = n) →
                   ∀ d', (doc_id sd, d')
                         ∈ docstore_pairs (make_doc_ids uuid4 docs) docs →
                         d' = d))
  ∧ ((length docs < length summaries)%nat →
     summary_docs (make_doc_ids uuid4 docs) summaries = None).
Proof.
  assert (length (make_doc_ids uuid4 docs) = length docs) as Hids.
  { unfold make_doc_ids. by rewrite length_fmap, length_seq. }
  split.
  - intros Hlen.
    destruct (summary_docs_from_Some (make_doc_ids uuid4 docs) summaries 0)
      as (sds & Hsds & Hl & Hall); [simpl; lia|].
    exists sds. split_and!; [done..|].
    intros i sd Hi. destruct (Hall i sd Hi) as [Hs Hid]. simpl in Hid.
    assert (i < length docs)%nat as Hidocs.
    { apply lookup_lt_Some in Hs. lia. }
    rewrite lookup_make_doc_ids in Hid by done. injection Hid as Hid.
    destruct (lookup_lt_is_Some_2 docs i Hidocs) as [d Hd].
    split_and!; [done..|]. exists d. split_and!; [done| |].
    + unfold docstore_pairs. apply lookup_zip_with_Some.
      exists (uuid4 i), d. rewrite lookup_make_doc_ids by done.
      by rewrite <- Hid.
    + intros Hinj d' (j & Hj)%list_elem_of_lookup.
      apply lookup_zip_with_Some in Hj as (uid & d'' & Heq & Hj1 & Hj2).
      injection Heq as Hu ->.
      rewrite lookup_make_doc_ids in Hj1 by (by eapply lookup_lt_Some).
      injection Hj1 as Hj1.
      assert (j = i) as -> by (apply Hinj; congruence).
      congruence.
  - intros Hlen. apply summary_docs_from_None; simpl; lia.
Qed.

Lemma summary_docs_link_to_their_documents_witness :
  ∃ sds,
    summary_docs (make_doc_ids (λ i, String (ascii_of_nat (97 + i)) EmptyString)
                    ["doc a"; "doc b"]%string)
      ["sum a"; "sum b"]%string = Some sds
    ∧ length sds = 2%nat.
Proof.
  destruct (summary_docs_link_to_their_documents
              (λ i, String (ascii_of_nat (97 + i)) EmptyString)
              ["doc a"; "doc b"]%string ["sum a"; "sum b"]%string)
    as [Hsome _].
  destruct Hsome as (sds & Hsds & Hlen & _); [simpl; lia|].
  exists sds. split; [exact Hsds|exact Hlen].
Defined.
